(** * Merlin playlist renamer: a shallow embedding and its properties

    The development follows [src/merlin_renamer.py] (the playlist parser,
    the title priority policy and the canonical [sanitize_filename]) and
    [src/rename_from_id3.py] (the older [sanitize_filename]).

    Python values are embedded as follows.
    - [str] is a list of Unicode code points ([pystr := list N]);
    - [bytes] is a list of [Byte.byte];
    - an exception that the program catches or lets escape is an [option]
      whose [None] is the raised exception;
    - a [while] loop whose variant is the length of a string runs on that
      length as fuel, and a lemma shows the loop left through its test. *)

From Stdlib Require Import Strings.String Strings.Ascii Strings.Byte.
From Stdlib Require Import DecimalString DecimalNat.
From Stdlib Require Import List NArith Arith Bool Lia Sorting.Sorted.
Import ListNotations.
Open Scope list_scope.

Set Implicit Arguments.

(* ================================================================== *)
(** * Python built-ins used by the program *)
(* ================================================================== *)

Module Py.

Local Open Scope N_scope.

(** A Python [str]: the sequence of its code points. *)
Definition pystr := list N.

(** A Python [bytes] object. *)
Definition bytes := list byte.

(** An ASCII literal of the source, as a [str]. *)
Fixpoint lit (s : string) : pystr :=
  match s with
  | EmptyString => []
  | String a r => N_of_ascii a :: lit r
  end.

(** The byte of value [n] (for [n < 256]). *)
Definition byte_of (n : N) : byte :=
  match Byte.of_N n with
  | Some b => b
  | None => x00
  end.

(** An ASCII literal of the source, as [bytes]. *)
Definition blit (s : string) : bytes := map byte_of (lit s).

(** [a <= c <= b]. *)
Definition between (a b c : N) : bool := (a <=? c) && (c <=? b).

(** [c in s] for a one-character [c]. *)
Definition char_in (s : pystr) (c : N) : bool := existsb (N.eqb c) s.

(** Equality of two [str] values. *)
Fixpoint str_eqb (s t : pystr) : bool :=
  match s, t with
  | [], [] => true
  | a :: s', b :: t' => (a =? b) && str_eqb s' t'
  | _, _ => false
  end.

(** Truth value of a [str]: non-empty. *)
Definition truthy (s : pystr) : bool :=
  match s with
  | [] => false
  | _ :: _ => true
  end.

(** [str.isspace] on one character, the interpreter's [Py_UNICODE_ISSPACE]:
    the characters [str.strip()] removes. *)
Definition isspace (c : N) : bool :=
  between 0x09 0x0D c || between 0x1C 0x20 c
  || (c =? 0x85) || (c =? 0xA0) || (c =? 0x1680)
  || between 0x2000 0x200A c
  || (c =? 0x2028) || (c =? 0x2029) || (c =? 0x202F)
  || (c =? 0x205F) || (c =? 0x3000).

(** [s.lstrip(chars)], the characters to remove given by a predicate. *)
Fixpoint lstrip (p : N -> bool) (s : pystr) : pystr :=
  match s with
  | [] => []
  | c :: t => if p c then lstrip p t else s
  end.

(** [s.rstrip(chars)]. *)
Definition rstrip (p : N -> bool) (s : pystr) : pystr :=
  rev (lstrip p (rev s)).

(** [s.strip(chars)]; [s.strip()] is [strip isspace s]. *)
Definition strip (p : N -> bool) (s : pystr) : pystr :=
  rstrip p (lstrip p s).

(** [cc in s] where [cc] is the character [c] twice. *)
Fixpoint has_double (c : N) (s : pystr) : bool :=
  match s with
  | a :: ((b :: _) as r) => ((a =? c) && (b =? c)) || has_double c r
  | _ => false
  end.

(** [s.replace(cc, c)] where [cc] is the character [c] twice: the
    occurrences are replaced from the left and do not overlap. *)
Fixpoint replace_double (c : N) (s : pystr) : pystr :=
  match s with
  | a :: ((b :: t) as r) =>
      if (a =? c) && (b =? c) then c :: replace_double c t
      else a :: replace_double c r
  | _ => s
  end.

(** [while cc in s: s = s.replace(cc, c)]; every round shortens [s], so
    its length is enough fuel. *)
Fixpoint collapse_loop (fuel : nat) (c : N) (s : pystr) : pystr :=
  if has_double c s then
    match fuel with
    | O => s
    | S f => collapse_loop f c (replace_double c s)
    end
  else s.

Definition collapse (c : N) (s : pystr) : pystr :=
  collapse_loop (List.length s) c s.

(** UTF-8 encoding of one code point; [None] is [UnicodeEncodeError],
    raised for a surrogate (a [str] holds nothing above U+10FFFF). *)
Definition encode_char (c : N) : option bytes :=
  if c <? 0x80 then Some [byte_of c]
  else if c <? 0x800 then
    Some [byte_of (0xC0 + c / 64); byte_of (0x80 + c mod 64)]
  else if between 0xD800 0xDFFF c then None
  else if c <? 0x10000 then
    Some [byte_of (0xE0 + c / 4096); byte_of (0x80 + (c / 64) mod 64);
          byte_of (0x80 + c mod 64)]
  else if c <? 0x110000 then
    Some [byte_of (0xF0 + c / 262144); byte_of (0x80 + (c / 4096) mod 64);
          byte_of (0x80 + (c / 64) mod 64); byte_of (0x80 + c mod 64)]
  else None.

(** [s.encode('utf-8')]. *)
Fixpoint encode_utf8 (s : pystr) : option bytes :=
  match s with
  | [] => Some []
  | c :: t =>
      match encode_char c, encode_utf8 t with
      | Some b, Some bs => Some (b ++ bs)
      | _, _ => None
      end
  end.

(** A continuation byte of UTF-8. *)
Definition is_cont (b : N) : bool := between 0x80 0xBF b.

Definition cons_opt (c : N) (r : option pystr) : option pystr :=
  match r with
  | Some s => Some (c :: s)
  | None => None
  end.

(** The strict UTF-8 decoder on byte values: well-formed sequences only
    (no overlong form, no surrogate, nothing above U+10FFFF); [None] is
    [UnicodeDecodeError]. *)
Fixpoint decode_utf8_values (bs : list N) : option pystr :=
  match bs with
  | [] => Some []
  | b0 :: t0 =>
      if b0 <? 0x80 then cons_opt b0 (decode_utf8_values t0)
      else if between 0xC2 0xDF b0 then
        match t0 with
        | b1 :: t1 =>
            if is_cont b1
            then cons_opt ((b0 - 0xC0) * 64 + (b1 - 0x80))
                          (decode_utf8_values t1)
            else None
        | _ => None
        end
      else if between 0xE0 0xEF b0 then
        match t0 with
        | b1 :: b2 :: t2 =>
            if between (if b0 =? 0xE0 then 0xA0 else 0x80)
                       (if b0 =? 0xED then 0x9F else 0xBF) b1
               && is_cont b2
            then cons_opt ((b0 - 0xE0) * 4096 + (b1 - 0x80) * 64 + (b2 - 0x80))
                          (decode_utf8_values t2)
            else None
        | _ => None
        end
      else if between 0xF0 0xF4 b0 then
        match t0 with
        | b1 :: b2 :: b3 :: t3 =>
            if between (if b0 =? 0xF0 then 0x90 else 0x80)
                       (if b0 =? 0xF4 then 0x8F else 0xBF) b1
               && is_cont b2 && is_cont b3
            then cons_opt ((b0 - 0xF0) * 262144 + (b1 - 0x80) * 4096
                           + (b2 - 0x80) * 64 + (b3 - 0x80))
                          (decode_utf8_values t3)
            else None
        | _ => None
        end
      else None
  end.

(** [b.decode('utf-8')]. *)
Definition decode_utf8 (b : bytes) : option pystr :=
  decode_utf8_values (map Byte.to_N b).

(** [b.decode('latin-1')]: every byte is the code point of its value.
    The result is an [option] because the call sits in a [try]. *)
Definition decode_latin1 (b : bytes) : option pystr :=
  Some (map Byte.to_N b).

(** [str.isalpha] on one character below U+0100 (general categories
    Lu, Ll, Lt, Lm, Lo of the Latin-1 block). *)
Definition latin1_isalpha (c : N) : bool :=
  between 65 90 c || between 97 122 c
  || (c =? 0xAA) || (c =? 0xB5) || (c =? 0xBA)
  || between 0xC0 0xD6 c || between 0xD8 0xF6 c || between 0xF8 0xFF c.

(** [str.isalnum] on one character below U+0100: alphabetic, or a
    decimal digit, or one of the superscripts and fractions that
    [isdigit] and [isnumeric] accept. *)
Definition latin1_isalnum (c : N) : bool :=
  latin1_isalpha c || between 48 57 c
  || (c =? 0xB2) || (c =? 0xB3) || (c =? 0xB9) || between 0xBC 0xBE c.

Section UnicodeTables.

(** The Unicode character database above the Latin-1 block is not part of
    the program; the two classifications it provides are parameters. *)
Variable alpha_above : N -> bool.
Variable alnum_above : N -> bool.

(** [c.isalpha()]. *)
Definition isalpha (c : N) : bool :=
  if c <? 0x100 then latin1_isalpha c else alpha_above c.

(** [c.isalnum()]. *)
Definition isalnum (c : N) : bool :=
  if c <? 0x100 then latin1_isalnum c else alnum_above c.

End UnicodeTables.

(** [[0-9a-fA-F]] *)
Definition is_hex (c : N) : bool :=
  between 48 57 c || between 97 102 c || between 65 70 c.

(** The regular expressions of the program are sequences of hexadecimal
    groups of fixed length and literal characters. *)
Inductive atom : Type :=
| Hex (n : nat)
| Lit (c : N).

(** [n] hexadecimal digits at the head of [s]; the rest of [s]. *)
Fixpoint eat_hex (n : nat) (s : list N) : option (list N) :=
  match n with
  | O => Some s
  | S n' =>
      match s with
      | c :: t => if is_hex c then eat_hex n' t else None
      | [] => None
      end
  end.

(** [re.match]: the pattern anchored at the head of [s]; the rest of [s]
    after the match. *)
Fixpoint re_match (p : list atom) (s : list N) : option (list N) :=
  match p with
  | [] => Some s
  | Hex n :: p' =>
      match eat_hex n s with
      | Some t => re_match p' t
      | None => None
      end
  | Lit c :: p' =>
      match s with
      | d :: t => if d =? c then re_match p' t else None
      | [] => None
      end
  end.

(** Number of characters a match of the pattern consumes. *)
Fixpoint pat_len (p : list atom) : nat :=
  match p with
  | [] => O
  | Hex n :: p' => (n + pat_len p')%nat
  | Lit _ :: p' => S (pat_len p')
  end.

(** [re.search(p, s)] as a truth value: a match at some position. *)
Fixpoint re_search (p : list atom) (s : list N) : bool :=
  match re_match p s with
  | Some _ => true
  | None =>
      match s with
      | [] => false
      | _ :: t => re_search p t
      end
  end.

(** [re.finditer(p, s)] for a pattern of positive length: the start
    offsets and texts of the matches, from the left, not overlapping.
    [pos] is the offset of [s] in the subject; [fuel] bounds the number of
    positions visited. *)
Fixpoint re_finditer (fuel : nat) (p : list atom) (pos : nat) (s : list N)
  : list (nat * list N) :=
  match fuel with
  | O => []
  | S f =>
      match s with
      | [] => []
      | _ :: t =>
          match re_match p s with
          | Some _ =>
              (pos, firstn (pat_len p) s)
                :: re_finditer f p (pos + pat_len p) (skipn (pat_len p) s)
          | None => re_finditer f p (S pos) t
          end
      end
  end.

(** [b[i:j]] for [0 <= i <= j]. *)
Definition slice (A : Type) (b : list A) (i j : nat) : list A :=
  firstn (j - i) (skipn i b).

(** [range(a, b)]. *)
Definition range (a b : nat) : list nat := seq a (b - a).

(** [l.sort(key=key, reverse=True)]: the sort is stable, so elements of
    equal key keep their order; [insert_desc x l] puts [x], which came
    before every element of [l], in front of the first element whose key
    is not greater. *)
Fixpoint insert_desc (A : Type) (key : A -> nat) (x : A) (l : list A)
  : list A :=
  match l with
  | [] => [x]
  | y :: r =>
      if (key x <? key y)%nat then y :: insert_desc key x r else x :: l
  end.

Definition sort_desc (A : Type) (key : A -> nat) (l : list A) : list A :=
  fold_right (insert_desc key) [] l.

(** Equality of two [bytes] values. *)
Fixpoint bytes_eqb (a b : bytes) : bool :=
  match a, b with
  | [], [] => true
  | x :: a', y :: b' => Byte.eqb x y && bytes_eqb a' b'
  | _, _ => false
  end.

(** [str(n)] for a non-negative integer: its decimal digits. *)
Definition str_of_int (n : nat) : pystr :=
  lit (NilEmpty.string_of_uint (Nat.to_uint n)).

End Py.

Import Py.

(* ================================================================== *)
(** * [src/rename_from_id3.py] *)
(* ================================================================== *)

Module rename_from_id3.

(** [while len(safe.encode('utf-8')) > max_length and safe: safe = safe[:-1]];
    every round drops one character, so the length of [safe] is enough
    fuel.  [None]: the encoding raised. *)
Fixpoint truncate_loop (fuel : nat) (max_length : nat) (safe : pystr)
  : option pystr :=
  match encode_utf8 safe with
  | None => None
  | Some b =>
      if (max_length <? List.length b) && truthy safe then
        match fuel with
        | O => Some safe
        | S f => truncate_loop f max_length (removelast safe)
        end
      else Some safe
  end.

Section WithUnicode.

Variable alnum_above : N -> bool.

(** [sanitize_filename(title, max_length=60)] of the older renamer: every
    character that is neither alphanumeric nor one of space, underscore,
    hyphen and period becomes an underscore. *)
Definition sanitize_filename (title : pystr) (max_length : nat)
  : option pystr :=
  if negb (truthy title) then Some (lit "unnamed")
  else
    let safe :=
      map (fun c => if isalnum alnum_above c || char_in (lit " _-.") c
                    then c else 95%N) title in
    let safe := collapse 32 safe in
    let safe := collapse 95 safe in
    let safe := strip (char_in (lit "._-")) (strip isspace safe) in
    match truncate_loop (List.length safe) max_length safe with
    | None => None
    | Some safe => Some (if truthy safe then safe else lit "unnamed")
    end.

End WithUnicode.

(** The frames [get_title_from_id3] asks for. *)
Inductive tag : Type := TIT2 | TIT1 | TRCK.

(** What [ID3(filepath)] gives: for each frame present, its [text] list. *)
Definition id3_tags := tag -> option (list pystr).

(** [str(tags[k].text[0])]; [None] is the [IndexError] on an empty
    list. *)
Definition first_text (texts : list pystr) : option pystr :=
  match texts with
  | [] => None
  | t :: _ => Some t
  end.

(** [get_title_from_id3(filepath)]: [file] is [None] when [ID3(filepath)]
    raises; every exception ends in [return None].  The first frame
    present among TIT2, TIT1 and TRCK decides. *)
Definition get_title_from_id3 (HAS_MUTAGEN : bool) (file : option id3_tags)
  : option pystr :=
  if negb HAS_MUTAGEN then None
  else
    match file with
    | None => None
    | Some tags =>
        match tags TIT2 with
        | Some texts => first_text texts
        | None =>
            match tags TIT1 with
            | Some texts => first_text texts
            | None =>
                match tags TRCK with
                | Some texts => first_text texts
                | None => None
                end
            end
        end
    end.

End rename_from_id3.

(* ================================================================== *)
(** * [src/merlin_renamer.py] *)
(* ================================================================== *)

Module merlin_renamer.

Definition ENTRY_SIZE : nat := 256.

(** [b'La\x94i$'] *)
Definition UUID_MARKER : bytes := [x4c; x61; x94; x69; x24].

(** [[0-9a-fA-F]{8}-[0-9a-fA-F]{4}-[0-9a-fA-F]{4}-[0-9a-fA-F]{4}-[0-9a-fA-F]{12}] *)
Definition UUID_PATTERN : list atom :=
  [Hex 8; Lit 45; Hex 4; Lit 45; Hex 4; Lit 45; Hex 4; Lit 45; Hex 12].

(** The character class [invalid_chars] of the source: backslash, slash,
    colon, star, question mark, double quote, less, greater, bar, and the
    control characters U+0000 to U+001F. *)
Definition invalid_chars (c : N) : bool :=
  char_in [92; 47; 58; 42; 63; 34; 60; 62; 124]%N c || between 0 0x1f c.

(** [while len(safe.encode('utf-8')) > max_length and safe: safe = safe[:-1]];
    every round drops one character, so the length of [safe] is enough
    fuel.  [None]: the encoding raised. *)
Fixpoint truncate_loop (fuel : nat) (max_length : nat) (safe : pystr)
  : option pystr :=
  match encode_utf8 safe with
  | None => None
  | Some b =>
      if (max_length <? List.length b) && truthy safe then
        match fuel with
        | O => Some safe
        | S f => truncate_loop f max_length (removelast safe)
        end
      else Some safe
  end.

(** [sanitize_filename(title, max_length=60)]. *)
Definition sanitize_filename (title : pystr) (max_length : nat)
  : option pystr :=
  if negb (truthy title) then Some (lit "unnamed")
  else
    let safe := map (fun c => if invalid_chars c then 95%N else c) title in
    let safe := collapse 32 safe in
    let safe := collapse 95 safe in
    let safe := strip (char_in (lit "._-")) (strip isspace safe) in
    match truncate_loop (List.length safe) max_length safe with
    | None => None
    | Some safe => Some (if truthy safe then safe else lit "unnamed")
    end.

(** [is_uuid_like(text)].  The test [hex_chars / len(text) > 0.7] is a
    comparison of two floats; the quotient of [14] by [20] (and of every
    pair in the same ratio) rounds to the float of the literal [0.7], and
    every other quotient is further from it than the rounding error, so
    the test is [10 * hex_chars > 7 * len(text)] on the integers. *)
Definition is_uuid_like (text : pystr) : bool :=
  if negb (truthy text) then false
  else if re_search [Hex 8; Lit 45; Hex 4] text then true
  else
    let hex_chars :=
      List.length (filter (char_in (lit "0123456789abcdefABCDEF-")) text) in
    if (10 <? List.length text)
       && (7 * List.length text <? 10 * hex_chars)
    then true else false.

(** One element of the list [find_uuids_in_entry] returns. *)
Record uuid_info : Type := {
  uuid : pystr;
  offset : nat;
  has_marker : bool
}.

(** The loop [for marker_offset in range(...)]: stops with [True] at the
    first offset where the marker is read. *)
Fixpoint marker_loop (entry : bytes) (offsets : list nat) : bool :=
  match offsets with
  | [] => false
  | marker_offset :: r =>
      if bytes_eqb
           (slice entry marker_offset (marker_offset + List.length UUID_MARKER))
           UUID_MARKER
      then true
      else marker_loop entry r
  end.

(** [find_uuids_in_entry(entry)]; [offset - 5] on [nat] stops at zero, as
    [max(0, offset - 5)] does. *)
Definition find_uuids_in_entry (entry : bytes) : list uuid_info :=
  map (fun m : nat * list N =>
         let (offset, text) := m in
         {| uuid := text;
            offset := offset;
            has_marker :=
              marker_loop entry (range (Nat.max 0 (offset - 5)) offset) |})
      (re_finditer (List.length entry) UUID_PATTERN 0 (map Byte.to_N entry)).

(** One element of [text_sequences]. *)
Record text_seq : Type := {
  ts_offset : nat;
  text : pystr
}.

(** What the [try] statement does with one printable run. *)
Inductive run_outcome : Type :=
| Kept (t : pystr)       (* appended to [text_sequences] *)
| Rejected (t : pystr)   (* decoded, refused by a test *)
| Dropped.               (* [except: pass] *)

Section WithUnicode.

Variable alpha_above : N -> bool.

(** The three tests on a decoded and stripped run. *)
Definition accepts (text : pystr) : bool :=
  (8 <=? List.length text)
  && negb (is_uuid_like text)
  && (3 <=? List.length (filter (isalpha alpha_above) text)).

(** The body of the [try] statement on the bytes [entry[start:i]]. *)
Definition try_run (run : bytes) : run_outcome :=
  match decode_utf8 run with
  | Some t =>
      let text := strip isspace t in
      if accepts text then Kept text else Rejected text
  | None =>
      match decode_latin1 run with
      | Some t =>
          let text := strip isspace t in
          if accepts text then Kept text else Rejected text
      | None => Dropped
      end
  end.

(** The inner loop [while i < len(entry) and entry[i] >= 32: i += 1] on
    [rest = entry[i:]]: the run read and what follows it. *)
Fixpoint printable_run (rest : bytes) : bytes * bytes :=
  match rest with
  | [] => ([], [])
  | b :: t =>
      if (32 <=? Byte.to_N b)%N
      then let (run, after) := printable_run t in (b :: run, after)
      else ([], rest)
  end.

(** The outer loop [while i < len(entry)], on [rest = entry[i:]]; every
    round moves [i] forward, so the length of the entry is enough fuel. *)
Fixpoint scan_loop (fuel : nat) (i : nat) (rest : bytes)
  (text_sequences : list text_seq) : list text_seq :=
  match rest with
  | [] => text_sequences
  | b :: t =>
      match fuel with
      | O => text_sequences
      | S f =>
          if (32 <=? Byte.to_N b)%N then
            let start := i in
            let (run, after) := printable_run rest in
            scan_loop f (i + List.length run) after
              match try_run run with
              | Kept text =>
                  text_sequences ++ [{| ts_offset := start; text := text |}]
              | _ => text_sequences
              end
          else scan_loop f (i + 1) t text_sequences
      end
  end.

(** [extract_title_from_entry(entry, uuid_offsets)] *)
Definition extract_title_from_entry (entry : bytes)
  (uuid_offsets : list uuid_info) : pystr :=
  let text_sequences := scan_loop (List.length entry) 0 entry [] in
  match sort_desc (fun x => List.length (text x)) text_sequences with
  | x :: _ => text x
  | [] => []
  end.

(** One element of the list [read_merlin_playlist] returns. *)
Record item : Type := {
  index : nat;
  item_uuid : pystr;
  pl_title : pystr;
  all_uuids : list pystr
}.

(** [f.seek(pos); f.read(n)] on a file of content [container]. *)
Definition seek_read (container : bytes) (pos n : nat) : bytes :=
  firstn n (skipn pos container).

(** The loop [for i in range(num_entries)] of [read_merlin_playlist]. *)
Fixpoint playlist_loop (container : bytes) (indices : list nat)
  (items : list item) : list item :=
  match indices with
  | [] => items
  | i :: r =>
      let entry := seek_read container (i * ENTRY_SIZE) ENTRY_SIZE in
      if (List.length entry <? ENTRY_SIZE)%nat then items
      else
        let uuids := find_uuids_in_entry entry in
        match uuids with
        | [] => playlist_loop container r items
        | u0 :: _ =>
            let file_uuid :=
              match filter has_marker uuids with
              | u :: _ => uuid u
              | [] => uuid u0
              end in
            let title := extract_title_from_entry entry uuids in
            playlist_loop container r
              (items ++ [{| index := i;
                            item_uuid := file_uuid;
                            pl_title := title;
                            all_uuids := map uuid uuids |}])
        end
  end.

(** [read_merlin_playlist(filepath)] on a file of content [container]. *)
Definition read_merlin_playlist (container : bytes) : list item :=
  let file_size := List.length container in
  let num_entries := file_size / ENTRY_SIZE in
  playlist_loop container (range 0 num_entries) [].

End WithUnicode.

(** The frames [get_id3_title] asks for. *)
Inductive tag : Type := TIT2 | TIT1 | TALB.

(** What [ID3(filepath)] gives: for each frame present, its [text] list. *)
Definition id3_tags := tag -> option (list pystr).

(** The loop [for tag in ['TIT2', 'TIT1', 'TALB']]; the outer [None] is
    the [IndexError] of [text[0]] on an empty list. *)
Fixpoint id3_loop (tags : id3_tags) (keys : list tag)
  : option (option pystr) :=
  match keys with
  | [] => Some None
  | k :: r =>
      match tags k with
      | None => id3_loop tags r
      | Some [] => None
      | Some (text :: _) =>
          if truthy text && (3 <=? List.length text)
          then Some (Some text)
          else id3_loop tags r
      end
  end.

(** [get_id3_title(filepath)]: [file] is [None] when [ID3(filepath)]
    raises; every exception ends in [return None]. *)
Definition get_id3_title (HAS_MUTAGEN : bool) (file : option id3_tags)
  : option pystr :=
  if negb HAS_MUTAGEN then None
  else
    match file with
    | None => None
    | Some tags =>
        match id3_loop tags [TIT2; TIT1; TALB] with
        | Some r => r
        | None => None
        end
    end.

Inductive title_source : Type := ID3 | PLAYLIST | UUID.

(** The source folder: for a file name, whether the file exists, and what
    [ID3] reads in it. *)
Definition folder := pystr -> option (option id3_tags).

(** The title choice in the loop [for item in items] of [main]. *)
Definition choose_title (HAS_MUTAGEN id3_only : bool) (source_folder : folder)
  (it : item) : pystr * title_source :=
  let uuid := item_uuid it in
  let src_mp3 := source_folder (uuid ++ lit ".mp3") in
  let id3_title :=
    match src_mp3 with
    | Some file => if HAS_MUTAGEN then get_id3_title HAS_MUTAGEN file else None
    | None => None
    end in
  let pl_title := if negb id3_only then Some (pl_title it) else None in
  let otherwise :=
    match pl_title with
    | Some p =>
        if truthy p && negb (is_uuid_like p) then (p, PLAYLIST)
        else (uuid, UUID)
    | None => (uuid, UUID)
    end in
  match id3_title with
  | Some t => if truthy t then (t, ID3) else otherwise
  | None => otherwise
  end.

(** The loop [for ext in ['.jpg', '.jpeg', '.JPG', '.JPEG']] of
    [find_matching_image]; [source] tells which file names exist in the
    source folder. *)
Fixpoint image_loop (source : pystr -> bool) (base_name : pystr)
  (exts : list pystr) : option pystr :=
  match exts with
  | [] => None
  | ext :: r =>
      let img_path := base_name ++ ext in
      if source img_path then Some img_path
      else image_loop source base_name r
  end.

(** [find_matching_image(mp3_path, source_folder)]: [mp3_path] is [None]
    for a path that is missing or does not exist, and otherwise the stem
    of the path; the result is the name of the image in the source
    folder. *)
Definition find_matching_image (mp3_path : option pystr)
  (source : pystr -> bool) : option pystr :=
  match mp3_path with
  | None => None
  | Some base_name =>
      image_loop source base_name
        [lit ".jpg"; lit ".jpeg"; lit ".JPG"; lit ".JPEG"]
  end.

(** The loop [while True] of [get_unique_path].  [exists_ name] is
    [(output_dir / name).exists()] for the name that the f-string
    builds; [None] when the fuel runs out. *)
Fixpoint unique_loop (fuel : nat) (exists_ : pystr -> bool)
  (base_name extension : pystr) (counter : nat) : option pystr :=
  match fuel with
  | O => None
  | S f =>
      let dst_path := base_name ++ lit "_" ++ str_of_int counter ++ extension in
      if negb (exists_ dst_path) then Some dst_path
      else unique_loop f exists_ base_name extension (counter + 1)
  end.

(** [get_unique_path(output_dir, base_name, extension)]: the name that
    is joined to [output_dir] in the path returned.  [fuel] bounds the
    rounds of the loop. *)
Definition get_unique_path (fuel : nat) (exists_ : pystr -> bool)
  (base_name extension : pystr) : option pystr :=
  let dst_path := base_name ++ extension in
  if negb (exists_ dst_path) then Some dst_path
  else unique_loop fuel exists_ base_name extension 1.

(** The fields of an element of [mapping] that the copy loop of [main]
    reads; [mp3_src] is the name of the MP3 file in the source folder
    and [img_src] the name of the image found, if any. *)
Record mapping_entry : Type := {
  final_title : pystr;
  mp3_src : pystr;
  mp3_exists : bool;
  img_src : option pystr
}.

(** [path.exists()] for a file of the source folder. *)
Definition exists_in (source_folder : folder) (name : pystr) : bool :=
  match source_folder name with
  | Some _ => true
  | None => false
  end.

(** The loop [for item in items] of [main] that builds [mapping];
    [None] when [sanitize_filename] raises.  The stem of [uuid.mp3] is
    [uuid] for an identifier, which holds neither slash nor is empty. *)
Fixpoint mapping_loop (HAS_MUTAGEN id3_only no_images : bool)
  (source_folder : folder) (items : list item)
  : option (list mapping_entry) :=
  match items with
  | [] => Some []
  | it :: r =>
      let uuid := item_uuid it in
      let mp3_exists := exists_in source_folder (uuid ++ lit ".mp3") in
      let final_title :=
        fst (choose_title HAS_MUTAGEN id3_only source_folder it) in
      match sanitize_filename final_title 60 with
      | None => None
      | Some safe_title =>
          let img_path :=
            if no_images then None
            else find_matching_image
                   (if mp3_exists then Some uuid else None)
                   (exists_in source_folder) in
          match mapping_loop HAS_MUTAGEN id3_only no_images source_folder r
          with
          | None => None
          | Some mapping =>
              Some ({| final_title := safe_title;
                       mp3_src := uuid ++ lit ".mp3";
                       mp3_exists := mp3_exists;
                       img_src := img_path |} :: mapping)
          end
      end
  end.

Section WithFileSystem.

(** The states of the file system. *)
Variable fs : Type.

(** [(output_dir / name).exists()] in a state. *)
Variable path_exists : fs -> pystr -> bool.

(** [shutil.copy2(src, output_dir / name)] and the [print] that follows
    it: the state afterwards, [None] when one of them raises. *)
Variable copy2 : fs -> pystr -> pystr -> option fs.

(** [path.suffix.lower()] of a file name, a function of the standard
    library. *)
Variable suffix_lower : pystr -> pystr.

(** The state of the copy loop: the file system, the names written so
    far (latest first) and the three counters. *)
Record copy_state : Type := {
  files : fs;
  written : list pystr;
  mp3_count : nat;
  img_count : nat;
  skipped : nat
}.

(** How the copy loop ends: after the last element of the mapping, or
    with the exception of a [shutil.copy2] or a [print], which [main]
    does not catch. *)
Inductive copy_outcome : Type :=
| Done (st : copy_state)
| Raised.

(** The loop [for m in mapping] that copies the files; [fuel] bounds the
    rounds of every call of [get_unique_path], and [None] is a call that
    ran out of it. *)
Fixpoint copy_loop (fuel : nat) (mapping : list mapping_entry)
  (st : copy_state) : option copy_outcome :=
  match mapping with
  | [] => Some (Done st)
  | m :: r =>
      if negb (mp3_exists m) then
        copy_loop fuel r {| files := files st;
                            written := written st;
                            mp3_count := mp3_count st;
                            img_count := img_count st;
                            skipped := skipped st + 1 |}
      else
        match get_unique_path fuel (path_exists (files st)) (final_title m)
                (lit ".mp3")
        with
        | None => None
        | Some mp3_dst =>
            match copy2 (files st) (mp3_src m) mp3_dst with
            | None => Some Raised
            | Some files1 =>
                match img_src m with
                | None =>
                    copy_loop fuel r {| files := files1;
                                        written := mp3_dst :: written st;
                                        mp3_count := mp3_count st + 1;
                                        img_count := img_count st;
                                        skipped := skipped st |}
                | Some img =>
                    match get_unique_path fuel (path_exists files1)
                            (final_title m) (suffix_lower img)
                    with
                    | None => None
                    | Some img_dst =>
                        match copy2 files1 img img_dst with
                        | None => Some Raised
                        | Some files2 =>
                            copy_loop fuel r
                              {| files := files2;
                                 written := img_dst :: mp3_dst :: written st;
                                 mp3_count := mp3_count st + 1;
                                 img_count := img_count st + 1;
                                 skipped := skipped st |}
                        end
                    end
                end
            end
        end
  end.

End WithFileSystem.

End merlin_renamer.

(* ================================================================== *)
(** * Notions used in the statements *)
(* ================================================================== *)

(** [r] is a contiguous part of [s]. *)
Definition infix (A : Type) (r s : list A) : Prop :=
  exists pre suf, s = pre ++ r ++ suf.

(** The pattern [p] matches in [s] at offset [k]. *)
Definition matches_at (p : list atom) (s : list N) (k : nat) : Prop :=
  re_match p (skipn k s) <> None.

(** Record number [i] of a container: the bytes [f.seek(i * 256)],
    [f.read(256)] give. *)
Definition record (container : bytes) (i : nat) : bytes :=
  merlin_renamer.seek_read container (i * merlin_renamer.ENTRY_SIZE)
    merlin_renamer.ENTRY_SIZE.

(** The entry that record [i] of a container yields, if any: the body of
    the loop of [read_merlin_playlist]. *)
Definition entry_of (alpha_above : N -> bool) (container : bytes) (i : nat)
  : list merlin_renamer.item :=
  let uuids := merlin_renamer.find_uuids_in_entry (record container i) in
  match uuids with
  | [] => []
  | u0 :: _ =>
      [{| merlin_renamer.index := i;
          merlin_renamer.item_uuid :=
            match filter merlin_renamer.has_marker uuids with
            | u :: _ => merlin_renamer.uuid u
            | [] => merlin_renamer.uuid u0
            end;
          merlin_renamer.pl_title :=
            merlin_renamer.extract_title_from_entry alpha_above
              (record container i) uuids;
          merlin_renamer.all_uuids := map merlin_renamer.uuid uuids |}]
  end.

(** A record of the examples: three null bytes, the marker, an
    identifier at offset 8, four null bytes, a title, null bytes up to
    256. *)
Definition record0 : bytes :=
  repeat x00 3 ++ merlin_renamer.UUID_MARKER
  ++ blit "1c74e8f3-123e-4497-964b-6720f1817071"
  ++ repeat x00 4 ++ blit "My Favorite Song" ++ repeat x00 192.

(** The identifier of [record0], as [find_uuids_in_entry] reports it. *)
Definition uuid0 : merlin_renamer.uuid_info :=
  {| merlin_renamer.uuid := lit "1c74e8f3-123e-4497-964b-6720f1817071";
     merlin_renamer.offset := 8;
     merlin_renamer.has_marker := true |}.

(** A container of two records, the second without identifier. *)
Definition container0 : bytes := record0 ++ repeat x00 256.

(** The entry that [record0] yields. *)
Definition item0 : merlin_renamer.item :=
  {| merlin_renamer.index := 0;
     merlin_renamer.item_uuid := merlin_renamer.uuid uuid0;
     merlin_renamer.pl_title := lit "My Favorite Song";
     merlin_renamer.all_uuids := [merlin_renamer.uuid uuid0] |}.

(** The embedded-tag lookup of [main] for an identifier: [None] when the
    file [uuid.mp3] is absent from the source folder or the tag library
    is missing, and otherwise what [get_id3_title] returns. *)
Definition embedded_lookup (HAS_MUTAGEN : bool)
  (source_folder : merlin_renamer.folder) (uuid : pystr) : option pystr :=
  match source_folder (uuid ++ lit ".mp3") with
  | Some file =>
      if HAS_MUTAGEN then merlin_renamer.get_id3_title HAS_MUTAGEN file
      else None
  | None => None
  end.

(** The lookup gave a title: a non-empty string of at least three
    characters. *)
Definition gave_title (r : option pystr) (t : pystr) : Prop :=
  r = Some t /\ t <> [] /\ 3 <= length t.

(** An entry of the examples, with a playlist title. *)
Definition song_a : merlin_renamer.item :=
  {| merlin_renamer.index := 0;
     merlin_renamer.item_uuid := lit "1c74e8f3-123e-4497-964b-6720f1817071";
     merlin_renamer.pl_title := lit "Song A";
     merlin_renamer.all_uuids := [lit "1c74e8f3-123e-4497-964b-6720f1817071"]
  |}.

(** The same entry without playlist title. *)
Definition untitled : merlin_renamer.item :=
  {| merlin_renamer.index := 0;
     merlin_renamer.item_uuid := lit "1c74e8f3-123e-4497-964b-6720f1817071";
     merlin_renamer.pl_title := [];
     merlin_renamer.all_uuids := [lit "1c74e8f3-123e-4497-964b-6720f1817071"]
  |}.

(** A source folder without any file. *)
Definition empty_folder : merlin_renamer.folder := fun _ => None.

(** A source folder where every file carries the title frame
    [Real Title]. *)
Definition tagged_folder : merlin_renamer.folder :=
  fun _ =>
    Some (Some (fun k =>
                  match k with
                  | merlin_renamer.TIT2 => Some [lit "Real Title"]
                  | _ => None
                  end)).

(** A byte of a printable run: its value is at least 32. *)
Definition printable (b : byte) : bool := (32 <=? Byte.to_N b)%N.

(** A sequence of bytes that is empty or begins with a byte below 32. *)
Definition low_end (l : bytes) : Prop :=
  match l with
  | [] => True
  | b :: _ => printable b = false
  end.

(** [run] is a printable run of [entry] at offset [start]: a non-empty
    span of bytes of value at least 32 that can be extended on neither
    side. *)
Definition maximal_run (entry : bytes) (start : nat) (run : bytes) : Prop :=
  run <> [] /\ forallb printable run = true
  /\ exists pre post,
       entry = pre ++ run ++ post /\ length pre = start
       /\ low_end (rev pre) /\ low_end post.

(** The text of a run: decoded as UTF-8, or as Latin-1 when that fails,
    and stripped. *)
Definition decoded (run : bytes) : pystr :=
  strip isspace
    match decode_utf8 run with
    | Some t => t
    | None => map Byte.to_N run
    end.

(** The runs the outer loop of [extract_title_from_entry] reads, with
    their offsets: the loop without its [try] statement. *)
Fixpoint runs_loop (fuel : nat) (i : nat) (rest : bytes)
  : list (nat * bytes) :=
  match rest with
  | [] => []
  | b :: t =>
      match fuel with
      | O => []
      | S f =>
          if (32 <=? Byte.to_N b)%N then
            let (run, after) := merlin_renamer.printable_run rest in
            (i, run) :: runs_loop f (i + length run) after
          else runs_loop f (i + 1) t
      end
  end.

(** The list [text_sequences] of [extract_title_from_entry] when its
    loop ends. *)
Definition text_sequences (alpha_above : N -> bool) (entry : bytes)
  : list merlin_renamer.text_seq :=
  merlin_renamer.scan_loop alpha_above (length entry) 0 entry [].

(** What a run adds to [text_sequences]. *)
Definition candidate (alpha_above : N -> bool) (r : nat * bytes)
  : list merlin_renamer.text_seq :=
  if merlin_renamer.accepts alpha_above (decoded (snd r))
  then [{| merlin_renamer.ts_offset := fst r;
           merlin_renamer.text := decoded (snd r) |}]
  else [].

(** A text passes the three tests: at least eight characters, at least
    three of them alphabetic, not identifier-like. *)
Definition survives (alpha_above : N -> bool) (t : pystr) : Prop :=
  8 <= length t
  /\ 3 <= length (filter (isalpha alpha_above) t)
  /\ merlin_renamer.is_uuid_like t = false.

(** Identifier-like, in the words of the specification: the text holds
    eight hexadecimal digits followed by a hyphen, or it is longer than
    ten characters and more than 70% of them are hexadecimal digits or
    hyphens. *)
Definition identifier_like_spec (t : pystr) : Prop :=
  (exists k, matches_at [Hex 8; Lit 45] t k)
  \/ (10 < length t
      /\ 7 * length t
         < 10 * length (filter (char_in (lit "0123456789abcdefABCDEF-")) t)).

(** Identifier-like, as the program tests it: after the eight digits and
    the hyphen come four more hexadecimal digits. *)
Definition identifier_like (t : pystr) : Prop :=
  (exists k, matches_at [Hex 8; Lit 45; Hex 4] t k)
  \/ (10 < length t
      /\ 7 * length t
         < 10 * length (filter (char_in (lit "0123456789abcdefABCDEF-")) t)).

(** A record with an identifier and a text that starts with eight
    hexadecimal digits and a hyphen. *)
Definition record_hex_title : bytes :=
  repeat x00 3 ++ merlin_renamer.UUID_MARKER
  ++ blit "1c74e8f3-123e-4497-964b-6720f1817071"
  ++ repeat x00 4 ++ blit "deadbeef-song title" ++ repeat x00 189.

(** [u] is the element of least offset among those of [uuids] that
    satisfy [P]. *)
Definition first_by_offset (P : merlin_renamer.uuid_info -> bool)
  (uuids : list merlin_renamer.uuid_info) (u : merlin_renamer.uuid_info)
  : Prop :=
  In u uuids /\ P u = true
  /\ forall v, In v uuids -> P v = true ->
               merlin_renamer.offset u <= merlin_renamer.offset v.

(** A code point that UTF-8 can encode: not a surrogate. *)
Definition encodable (c : N) : bool :=
  negb (between 0xD800 0xDFFF c) && (c <? 0x110000)%N.

(** The nine characters that no file name may hold. *)
Definition forbidden : list N := [92; 47; 58; 42; 63; 34; 60; 62; 124]%N.

(** A C0 control character. *)
Definition is_control (c : N) : Prop := (c <= 0x1F)%N.

(** A character that the trimming step of [sanitize_filename] removes
    from either end: white space, period, underscore, hyphen. *)
Definition trimmed_char (c : N) : bool :=
  isspace c || char_in (lit "._-") c.

(** Neither the first nor the last character is one the trimming step
    removes. *)
Definition clean_ends (s : pystr) : bool :=
  match s with
  | [] => true
  | c :: _ => negb (trimmed_char c) && negb (trimmed_char (last s c))
  end.

(** The string between the substitution and the truncation. *)
Definition trimmed (title : pystr) : pystr :=
  strip (char_in (lit "._-"))
    (strip isspace
       (collapse 95
          (collapse 32
             (map (fun c => if merlin_renamer.invalid_chars c then 95%N
                            else c) title)))).

(** [sanitize_filename(sanitize_filename(x))] *)
Definition sanitize_twice (x : pystr) : option pystr :=
  match merlin_renamer.sanitize_filename x 60 with
  | Some y => merlin_renamer.sanitize_filename y 60
  | None => None
  end.

(** A character database that knows no letter and no digit above the
    Latin-1 block; it closes the examples, whose characters are all
    below U+0100. *)
Definition no_table : N -> bool := fun _ => false.

(** The same string with an underscore for the apostrophe. *)
Definition cafe_d_ete_legacy : pystr :=
  lit "Caf" ++ [233%N] ++ lit " d_" ++ [233%N] ++ lit "t" ++ [233%N].

(** The string of the examples: C, a, f, e-acute, space, d, apostrophe,
    e-acute, t, e-acute. *)
Definition cafe_d_ete : pystr :=
  lit "Caf" ++ [233%N] ++ lit " d'" ++ [233%N] ++ lit "t" ++ [233%N].

(** The text of a run in the words of the specification: decoded as
    UTF-8, or as Latin-1 when that fails, and left as it is. *)
Definition decoded_spec (run : bytes) : pystr :=
  match decode_utf8 run with
  | Some t => t
  | None => map Byte.to_N run
  end.

(** The playlist title in the words of the specification: of the decoded
    runs that pass the three tests the longest one, and the first one in
    the record among those of that length; the empty string without
    such a run. *)
Definition playlist_title_spec (alpha_above : N -> bool) (entry : bytes)
  : pystr :=
  match sort_desc (fun t => length t)
          (filter (merlin_renamer.accepts alpha_above)
             (map (fun r => decoded_spec (snd r))
                (runs_loop (length entry) 0 entry)))
  with
  | t :: _ => t
  | [] => []
  end.

(** A record with an identifier and two texts, the first one with white
    space on both sides. *)
Definition record_padded : bytes :=
  repeat x00 3 ++ merlin_renamer.UUID_MARKER
  ++ blit "1c74e8f3-123e-4497-964b-6720f1817071"
  ++ repeat x00 4 ++ blit "   Hi there, you   " ++ [x00]
  ++ blit "Hello big World" ++ repeat x00 173.

(** A run that is not UTF-8: the byte E9 of [Caf\xe9 du matin] is
    followed by a space. *)
Definition run_latin1 : bytes := blit "Caf" ++ [xe9] ++ blit " du matin".

(** A record with an identifier and the run [run_latin1]. *)
Definition record_latin1 : bytes :=
  repeat x00 3 ++ merlin_renamer.UUID_MARKER
  ++ blit "1c74e8f3-123e-4497-964b-6720f1817071"
  ++ repeat x00 4 ++ run_latin1 ++ repeat x00 195.

(** A run that is not UTF-8, of eight bytes, four of them white
    space. *)
Definition run_latin1_padded : bytes := blit "  caf" ++ [xe9] ++ blit "  ".

(** A record with an identifier and the run [run_latin1_padded]. *)
Definition record_latin1_padded : bytes :=
  repeat x00 3 ++ merlin_renamer.UUID_MARKER
  ++ blit "1c74e8f3-123e-4497-964b-6720f1817071"
  ++ repeat x00 4 ++ run_latin1_padded ++ repeat x00 200.

(** The steps of [sanitize_filename] between the substitution and the
    truncation: collapse the spaces, collapse the underscores, trim. *)
Definition trim_collapse (safe : pystr) : pystr :=
  strip (char_in (lit "._-"))
    (strip isspace (collapse 95 (collapse 32 safe))).

(** A character that the older [sanitize_filename] keeps. *)
Definition legacy_keeps (alnum_above : N -> bool) (c : N) : bool :=
  isalnum alnum_above c || char_in (lit " _-.") c.

(** An entry with its record index moved by [n]. *)
Definition shift_index (n : nat) (it : merlin_renamer.item)
  : merlin_renamer.item :=
  {| merlin_renamer.index := n + merlin_renamer.index it;
     merlin_renamer.item_uuid := merlin_renamer.item_uuid it;
     merlin_renamer.pl_title := merlin_renamer.pl_title it;
     merlin_renamer.all_uuids := merlin_renamer.all_uuids it |}.

(** A record with two identifiers, the second one after the marker. *)
Definition record_two_uuids : bytes :=
  blit "aaaaaaaa-bbbb-cccc-dddd-eeeeeeeeeeee" ++ repeat x00 4
  ++ merlin_renamer.UUID_MARKER
  ++ blit "1c74e8f3-123e-4497-964b-6720f1817071" ++ repeat x00 175.

(** Neither the first nor the last character is white space. *)
Definition no_space_ends (s : pystr) : Prop :=
  match s with
  | [] => True
  | c :: _ => isspace c = false /\ isspace (last s c) = false
  end.

(** A frame that [get_id3_title] passes over: it is absent, or the first
    string of its text has fewer than three characters. *)
Definition frame_skipped (tags : merlin_renamer.id3_tags)
  (k : merlin_renamer.tag) : Prop :=
  tags k = None
  \/ exists text r, tags k = Some (text :: r) /\ length text < 3.

(** The extensions that [find_matching_image] tries, in its order. *)
Definition image_extensions : list pystr :=
  [lit ".jpg"; lit ".jpeg"; lit ".JPG"; lit ".JPEG"].

(** The name that [get_unique_path] tries in round [k]. *)
Definition numbered (base_name extension : pystr) (k : nat) : pystr :=
  base_name ++ lit "_" ++ Py.str_of_int k ++ extension.

(** Every string that the tags of the files of a folder hold can be
    encoded. *)
Definition tags_encodable (source_folder : merlin_renamer.folder) : Prop :=
  forall name tags k texts,
    source_folder name = Some (Some tags) ->
    tags k = Some texts ->
    Forall (fun text => forallb encodable text = true) texts.

(** A file name that the device accepts: not empty, without forbidden or
    control character, of at most 60 bytes once encoded. *)
Definition valid_name (s : pystr) : Prop :=
  s <> []
  /\ Forall (fun c => ~ In c forbidden /\ ~ is_control c) s
  /\ exists b, encode_utf8 s = Some b /\ length b <= 60.

(** Only finitely many names exist: every name that exists is one of
    [listing]. *)
Definition covers (exists_ : pystr -> bool) (listing : list pystr) : Prop :=
  forall name, exists_ name = true -> In name listing.

(** What the properties of the copy loop ask of the file system: a copy
    that succeeds leaves its destination in existence and removes
    nothing, and in every state only finitely many names exist. *)
Definition sound_file_system (fs : Type) (path_exists : fs -> pystr -> bool)
  (copy2 : fs -> pystr -> pystr -> option fs) : Prop :=
  (forall s src dst s', copy2 s src dst = Some s' ->
                        path_exists s' dst = true)
  /\ (forall s src dst s' name,
        copy2 s src dst = Some s' ->
        path_exists s name = true -> path_exists s' name = true)
  /\ (forall s, exists listing, covers (path_exists s) listing).

(** A copy loop that starts in the state [s] of the file system with
    nothing written. *)
Definition fresh_state (fs : Type) (s : fs) : merlin_renamer.copy_state fs :=
  {| merlin_renamer.files := s;
     merlin_renamer.written := [];
     merlin_renamer.mp3_count := 0;
     merlin_renamer.img_count := 0;
     merlin_renamer.skipped := 0 |}.

(** A file system for the examples: a state is the list of the names
    that exist, a copy adds its destination, and the copy of a source
    without name raises. *)
Definition listed (s : list pystr) (name : pystr) : bool :=
  existsb (Py.str_eqb name) s.

Definition listed_copy2 (s : list pystr) (src dst : pystr)
  : option (list pystr) :=
  if truthy src then Some (dst :: s) else None.

(** What the copy loop promises when it ends in the state [st], having
    started in the state [s] of the file system on [mapping]: the names
    written are pairwise distinct, none of them existed before and all
    of them exist now; every element of the mapping was copied or
    skipped, and every name written is counted as an MP3 file or as an
    image. *)
Definition copied_safely (fs : Type) (path_exists : fs -> pystr -> bool)
  (mapping : list merlin_renamer.mapping_entry) (s : fs)
  (st : merlin_renamer.copy_state fs) : Prop :=
  NoDup (merlin_renamer.written st)
  /\ (forall x, In x (merlin_renamer.written st) ->
                path_exists s x = false
                /\ path_exists (merlin_renamer.files st) x = true)
  /\ merlin_renamer.mp3_count st + merlin_renamer.skipped st
     = length mapping
  /\ merlin_renamer.mp3_count st + merlin_renamer.img_count st
     = length (merlin_renamer.written st).

(** What the loop that builds the mapping keeps of an entry: a valid
    name, whether the MP3 file of the entry exists, and an image only
    for an MP3 file that exists, the image itself a file of the source
    folder. *)
Definition maps_to (source_folder : merlin_renamer.folder)
  (it : merlin_renamer.item) (m : merlin_renamer.mapping_entry) : Prop :=
  valid_name (merlin_renamer.final_title m)
  /\ merlin_renamer.mp3_exists m
     = merlin_renamer.exists_in source_folder
         (merlin_renamer.item_uuid it ++ lit ".mp3")
  /\ forall img,
       merlin_renamer.img_src m = Some img ->
       merlin_renamer.mp3_exists m = true
       /\ merlin_renamer.exists_in source_folder img = true.

(* ================================================================== *)
(** * The model on concrete inputs *)
(* ================================================================== *)

Example strip_spaces_only :
  strip isspace (lit "  a b  ") = lit "a b".
Proof. reflexivity. Qed.

Example replace_three_spaces :
  replace_double 32 (lit "a   b") = lit "a  b"
  /\ collapse 32 (lit "a   b") = lit "a b".
Proof. split; reflexivity. Qed.

Example utf8_two_bytes :
  encode_utf8 [233%N] = Some [xc3; xa9]
  /\ decode_utf8 [xc3; xa9] = Some [233%N].
Proof. split; reflexivity. Qed.

Example utf8_refuses_the_marker :
  decode_utf8 merlin_renamer.UUID_MARKER = None
  /\ decode_latin1 merlin_renamer.UUID_MARKER
     = Some [76; 97; 148; 105; 36]%N.
Proof. split; reflexivity. Qed.

Example utf8_refuses_overlong_and_surrogate :
  decode_utf8 [xc0; x80] = None
  /\ decode_utf8 [xed; xa0; x80] = None
  /\ decode_utf8 [xf4; x90; x80; x80] = None
  /\ encode_utf8 [0xD800%N] = None.
Proof. repeat split. Qed.

Example utf8_boundaries :
  map (fun c => match encode_utf8 [c] with
                | Some b => decode_utf8 b
                | None => None
                end)
      [0x7F; 0x80; 0x7FF; 0x800; 0xD7FF; 0xE000; 0xFFFF; 0x10000; 0x10FFFF]%N
  = map (fun c => Some [c])
      [0x7F; 0x80; 0x7FF; 0x800; 0xD7FF; 0xE000; 0xFFFF; 0x10000; 0x10FFFF]%N.
Proof. vm_compute. reflexivity. Qed.

Example sanitize_empty :
  merlin_renamer.sanitize_filename [] 60 = Some (lit "unnamed").
Proof. reflexivity. Qed.

Example sanitize_path :
  merlin_renamer.sanitize_filename (lit "a/b\c:  d__e.") 60
  = Some (lit "a_b_c_ d_e").
Proof. vm_compute. reflexivity. Qed.

Example sanitize_truncates :
  merlin_renamer.sanitize_filename (repeat 233%N 40) 60
  = Some (repeat 233%N 30).
Proof. vm_compute. reflexivity. Qed.

Example uuid_shaped_text :
  merlin_renamer.is_uuid_like (lit "a1b2c3d4-e5f6-7890") = true
  /\ merlin_renamer.is_uuid_like (lit "My Favorite Song") = false
  /\ merlin_renamer.is_uuid_like (lit "abcdefabcdefabxyzuvw") = false
  /\ merlin_renamer.is_uuid_like (lit "abcdefabcdefab-xyzuvw") = true.
Proof. repeat split. Qed.

Example identifier_of_record0 :
  merlin_renamer.find_uuids_in_entry record0 = [uuid0].
Proof. vm_compute. reflexivity. Qed.

Example title_of_record0 :
  merlin_renamer.extract_title_from_entry no_table record0 [uuid0]
  = lit "My Favorite Song".
Proof. vm_compute. reflexivity. Qed.

(** The scenario of two records, the second without identifier: one
    entry. *)
Example entries_of_container0 :
  merlin_renamer.read_merlin_playlist no_table container0 = [item0].
Proof. vm_compute. reflexivity. Qed.

Example candidates_of_record_padded :
  map (fun c => (merlin_renamer.ts_offset c, merlin_renamer.text c))
    (text_sequences no_table record_padded)
  = [(48, lit "Hi there, you"); (68, lit "Hello big World")].
Proof. vm_compute. reflexivity. Qed.

Example candidates_of_record_latin1 :
  map (fun c => (merlin_renamer.ts_offset c, merlin_renamer.text c))
    (text_sequences no_table record_latin1)
  = [(48, lit "Caf" ++ [233%N] ++ lit " du matin")].
Proof. vm_compute. reflexivity. Qed.

Example decimal_counter : Py.str_of_int 10 = lit "10".
Proof. reflexivity. Qed.

Example second_identifier_after_marker :
  map (fun u => (merlin_renamer.offset u, merlin_renamer.has_marker u))
    (merlin_renamer.find_uuids_in_entry record_two_uuids)
  = [(0, false); (45, true)].
Proof. vm_compute. reflexivity. Qed.

Example legacy_title_of_short_frame :
  rename_from_id3.get_title_from_id3 true
    (Some (fun k => match k with
                    | rename_from_id3.TIT2 => Some [lit "A"]
                    | rename_from_id3.TIT1 => Some [lit "Side one"]
                    | rename_from_id3.TRCK => None
                    end))
  = Some (lit "A")
  /\ merlin_renamer.get_id3_title true
       (Some (fun k => match k with
                       | merlin_renamer.TIT2 => Some [lit "A"]
                       | merlin_renamer.TIT1 => Some [lit "Side one"]
                       | merlin_renamer.TALB => None
                       end))
     = Some (lit "Side one").
Proof. split; reflexivity. Qed.

Example image_prefers_jpg :
  merlin_renamer.find_matching_image (Some (lit "a"))
    (fun name => Py.str_eqb name (lit "a.JPG")
                 || Py.str_eqb name (lit "a.jpeg"))
  = Some (lit "a.jpeg").
Proof. reflexivity. Qed.

Example unique_path_counts :
  merlin_renamer.get_unique_path 3
    (listed [lit "Song.mp3"; lit "Song_1.mp3"]) (lit "Song") (lit ".mp3")
  = Some (lit "Song_2.mp3")
  /\ merlin_renamer.get_unique_path 1
       (listed [lit "Song.mp3"; lit "Song_1.mp3"]) (lit "Song") (lit ".mp3")
     = None.
Proof. split; vm_compute; reflexivity. Qed.

Example unique_path_of_no_name :
  merlin_renamer.get_unique_path 1 (listed [[]]) [] [] = Some (lit "_1").
Proof. vm_compute. reflexivity. Qed.

Example copy_two_of_one_title :
  merlin_renamer.copy_loop listed listed_copy2 (fun _ => lit ".jpg") 2
    [ {| merlin_renamer.final_title := lit "Song";
         merlin_renamer.mp3_src := lit "a.mp3";
         merlin_renamer.mp3_exists := true;
         merlin_renamer.img_src := Some (lit "a.JPG") |};
      {| merlin_renamer.final_title := lit "Song";
         merlin_renamer.mp3_src := lit "b.mp3";
         merlin_renamer.mp3_exists := false;
         merlin_renamer.img_src := None |};
      {| merlin_renamer.final_title := lit "Song";
         merlin_renamer.mp3_src := lit "c.mp3";
         merlin_renamer.mp3_exists := true;
         merlin_renamer.img_src := None |} ]
    (fresh_state [])
  = Some (merlin_renamer.Done
            {| merlin_renamer.files :=
                 [lit "Song_1.mp3"; lit "Song.jpg"; lit "Song.mp3"];
               merlin_renamer.written :=
                 [lit "Song_1.mp3"; lit "Song.jpg"; lit "Song.mp3"];
               merlin_renamer.mp3_count := 2;
               merlin_renamer.img_count := 1;
               merlin_renamer.skipped := 1 |}).
Proof. vm_compute. reflexivity. Qed.

Example copy_stopped_by_exception :
  merlin_renamer.copy_loop listed listed_copy2 (fun _ => lit ".jpg") 2
    [ {| merlin_renamer.final_title := lit "Song";
         merlin_renamer.mp3_src := [];
         merlin_renamer.mp3_exists := true;
         merlin_renamer.img_src := None |};
      {| merlin_renamer.final_title := lit "Other";
         merlin_renamer.mp3_src := lit "c.mp3";
         merlin_renamer.mp3_exists := true;
         merlin_renamer.img_src := None |} ]
    (fresh_state [])
  = Some (merlin_renamer.Raised (list pystr)).
Proof. vm_compute. reflexivity. Qed.

Example mapping_of_container0 :
  option_map (map merlin_renamer.final_title)
    (merlin_renamer.mapping_loop true false false empty_folder
       (merlin_renamer.read_merlin_playlist no_table container0))
  = Some [lit "My Favorite Song"].
Proof. vm_compute. reflexivity. Qed.

(* ================================================================== *)
(** * Properties of the built-ins *)
(* ================================================================== *)

Section ListFacts.

Variable A : Type.

(** Induction two elements at a time, the recursion scheme of
    [has_double] and [replace_double]. *)
Lemma pair_ind (P : list A -> Prop) :
  P [] ->
  (forall a, P [a]) ->
  (forall a b t, P t -> P (b :: t) -> P (a :: b :: t)) ->
  forall l, P l.
Proof.
  intros H0 H1 H2 l.
  assert (H : P l /\ forall a, P (a :: l)).
  { induction l as [|b t [IHt IHc]]; split; auto. }
  exact (proj1 H).
Qed.

Lemma infix_refl (s : list A) : infix s s.
Proof. exists [], []. now rewrite app_nil_r. Qed.

Lemma infix_trans (r s t : list A) : infix r s -> infix s t -> infix r t.
Proof.
  intros (p1 & s1 & ->) (p2 & s2 & ->).
  exists (p2 ++ p1), (s1 ++ s2). now rewrite !app_assoc.
Qed.

Lemma infix_length (r s : list A) : infix r s -> length r <= length s.
Proof. intros (p & q & ->). rewrite !length_app. lia. Qed.

Lemma infix_same_length (r s : list A) :
  infix r s -> length s <= length r -> r = s.
Proof.
  intros (p & q & ->) H. rewrite !length_app in H.
  destruct p; [|simpl in H; lia].
  destruct q; [|simpl in H; lia].
  now rewrite app_nil_r.
Qed.

Lemma infix_Forall (P : A -> Prop) (r s : list A) :
  infix r s -> Forall P s -> Forall P r.
Proof.
  intros (p & q & ->) H.
  apply Forall_app in H as [_ H]. now apply Forall_app in H as [H _].
Qed.

Lemma infix_removelast (s : list A) : infix (removelast s) s.
Proof.
  destruct s as [|a t] using rev_ind.
  - apply infix_refl.
  - rewrite removelast_last. exists [], [a]. reflexivity.
Qed.

End ListFacts.

Section StripFacts.

Variable p : N -> bool.

Lemma lstrip_split (s : pystr) :
  exists pre, s = pre ++ lstrip p s /\ forallb p pre = true.
Proof.
  induction s as [|c t (pre & E & F)]; simpl.
  - now exists [].
  - destruct (p c) eqn:Hc.
    + exists (c :: pre). simpl. rewrite Hc, F. now rewrite <- E.
    + now exists [].
Qed.

Lemma lstrip_infix (s : pystr) : infix (lstrip p s) s.
Proof.
  destruct (lstrip_split s) as (pre & E & _).
  exists pre, []. now rewrite app_nil_r.
Qed.

Lemma rstrip_infix (s : pystr) : infix (rstrip p s) s.
Proof.
  unfold rstrip. destruct (lstrip_split (rev s)) as (pre & E & _).
  exists [], (rev pre). simpl.
  rewrite <- rev_app_distr, <- E. now rewrite rev_involutive.
Qed.

Lemma strip_infix (s : pystr) : infix (strip p s) s.
Proof.
  unfold strip. eapply infix_trans; [apply rstrip_infix | apply lstrip_infix].
Qed.

(** [lstrip] leaves a string alone exactly when the string does not
    begin with a character to remove. *)
Lemma lstrip_fixed (s : pystr) :
  lstrip p s = s <->
  match s with [] => True | c :: _ => p c = false end.
Proof.
  destruct s as [|c t]; simpl; [tauto|].
  destruct (p c) eqn:Hc; split; intro H; try congruence.
  pose proof (infix_length (lstrip_infix t)) as L.
  rewrite H in L. simpl in L. lia.
Qed.

(** [rstrip] leaves a string alone exactly when the string does not end
    with a character to remove. *)
Lemma rstrip_fixed (s : pystr) :
  rstrip p s = s <->
  match s with [] => True | c :: _ => p (last s c) = false end.
Proof.
  unfold rstrip.
  assert (E : rev (lstrip p (rev s)) = s <-> lstrip p (rev s) = rev s).
  { split; intro H.
    - rewrite <- H at 2. now rewrite rev_involutive.
    - rewrite H. apply rev_involutive. }
  rewrite E, lstrip_fixed.
  destruct s as [|c t]; [simpl; tauto|].
  destruct (rev (c :: t)) as [|d r] eqn:R.
  - apply (f_equal (@length N)) in R. rewrite length_rev in R. discriminate.
  - apply (f_equal (@rev N)) in R. rewrite rev_involutive in R.
    rewrite R. simpl rev. now rewrite last_last.
Qed.

Lemma strip_fixed (s : pystr) :
  strip p s = s <-> lstrip p s = s /\ rstrip p s = s.
Proof.
  unfold strip. split.
  - intro H.
    assert (L : lstrip p s = s).
    { apply infix_same_length; [apply lstrip_infix|].
      rewrite <- H at 1. apply infix_length, rstrip_infix. }
    split; [exact L|]. now rewrite L in H.
  - intros [L R]. now rewrite L.
Qed.

End StripFacts.

Section DoubleFacts.

Variable c : N.

(** The two functions on a string of two characters or more. *)
Lemma has_double_eq (d a b : N) (t : pystr) :
  has_double d (a :: b :: t)
  = ((a =? d) && (b =? d))%N || has_double d (b :: t).
Proof. reflexivity. Qed.

Lemma replace_double_eq (a b : N) (t : pystr) :
  replace_double c (a :: b :: t)
  = if ((a =? c) && (b =? c))%N then c :: replace_double c t
    else a :: replace_double c (b :: t).
Proof. reflexivity. Qed.

Lemma has_double_tail (d a : N) (s : pystr) :
  has_double d (a :: s) = false -> has_double d s = false.
Proof.
  destruct s as [|b t]; [reflexivity|].
  simpl. intro H. now apply orb_false_iff in H as [_ H].
Qed.

Lemma has_double_suffix (d : N) (pre s : pystr) :
  has_double d (pre ++ s) = false -> has_double d s = false.
Proof.
  induction pre as [|a pre IH]; simpl app; [auto|].
  intro H. apply IH. eapply has_double_tail, H.
Qed.

Lemma has_double_prefix (d : N) (s suf : pystr) :
  has_double d (s ++ suf) = false -> has_double d s = false.
Proof.
  induction s as [| a | a b t _ IH] using pair_ind; try reflexivity.
  simpl app. rewrite !has_double_eq.
  intro H. apply orb_false_iff in H as [H1 H2].
  now rewrite H1, (IH H2).
Qed.

Lemma has_double_infix (d : N) (r s : pystr) :
  infix r s -> has_double d s = false -> has_double d r = false.
Proof.
  intros (pre & suf & ->) H.
  eapply has_double_prefix, has_double_suffix, H.
Qed.

(** A replacement never changes the first character. *)
Lemma replace_double_head (s : pystr) :
  hd_error (replace_double c s) = hd_error s.
Proof.
  destruct s as [|a [|b t]]; try reflexivity.
  simpl. destruct ((a =? c)%N && (b =? c)%N) eqn:E; [|reflexivity].
  apply andb_true_iff in E as [E _]. apply N.eqb_eq in E. now subst.
Qed.

Lemma has_double_cons (d a : N) (s : pystr) :
  has_double d (a :: s) =
  match hd_error s with
  | Some b => ((a =? d) && (b =? d))%N || has_double d s
  | None => false
  end.
Proof. destruct s; reflexivity. Qed.

(** Replacing the doubles of [c] creates no double of another
    character. *)
Lemma replace_double_other (d : N) (s : pystr) :
  d <> c -> has_double d s = false ->
  has_double d (replace_double c s) = false.
Proof.
  intro Hd.
  induction s as [| a | a b t IHt IHb] using pair_ind; try reflexivity.
  intro H. pose proof (has_double_tail _ _ _ H) as Hb.
  pose proof (has_double_tail _ _ _ Hb) as Ht.
  rewrite replace_double_eq.
  destruct ((a =? c) && (b =? c))%N eqn:E.
  - rewrite has_double_cons, replace_double_head.
    destruct (hd_error t); [|reflexivity].
    rewrite (IHt Ht). replace (c =? d)%N with false; [reflexivity|].
    symmetry. apply N.eqb_neq. congruence.
  - rewrite has_double_cons, replace_double_head. simpl hd_error.
    rewrite (IHb Hb). simpl in H.
    apply orb_false_iff in H as [H _]. now rewrite H.
Qed.

Lemma replace_double_Forall (P : N -> Prop) (s : pystr) :
  Forall P s -> Forall P (replace_double c s).
Proof.
  induction s as [| a | a b t IHt IHb] using pair_ind; auto.
  intro H. inversion H as [|? ? Ha Hb]; subst.
  inversion Hb as [|? ? _ Ht]; subst.
  rewrite replace_double_eq.
  destruct ((a =? c) && (b =? c))%N eqn:E; constructor; auto.
  apply andb_true_iff in E as [E _]. apply N.eqb_eq in E. now subst.
Qed.

(** A round of the loop shortens the string. *)
Lemma replace_double_shorter (s : pystr) :
  has_double c s = true -> length (replace_double c s) < length s.
Proof.
  assert (L : forall s, length (replace_double c s) <= length s).
  { intro u. induction u as [| a | a b t IHt IHb] using pair_ind; auto.
    rewrite replace_double_eq.
    destruct ((a =? c) && (b =? c))%N; simpl in *; lia. }
  induction s as [| a | a b t IHt IHb] using pair_ind; try discriminate.
  rewrite replace_double_eq.
  rewrite has_double_eq.
  destruct ((a =? c) && (b =? c))%N; simpl orb; intro H.
  - specialize (L t). simpl. lia.
  - specialize (IHb H). simpl in *. lia.
Qed.

(** With the length of the string as fuel the loop leaves through its
    test: no double is left. *)
Lemma collapse_loop_exit (fuel : nat) (s : pystr) :
  length s <= fuel -> has_double c (collapse_loop fuel c s) = false.
Proof.
  revert s. induction fuel as [|f IH]; intros s L; simpl.
  - destruct s; [reflexivity | simpl in L; lia].
  - destruct (has_double c s) eqn:E; [|exact E].
    apply IH. pose proof (replace_double_shorter s E). lia.
Qed.

Lemma collapse_exit (s : pystr) : has_double c (collapse c s) = false.
Proof. apply collapse_loop_exit. lia. Qed.

(** More fuel than the length changes nothing. *)
Lemma collapse_loop_fuel (f g : nat) (s : pystr) :
  length s <= f -> length s <= g ->
  collapse_loop f c s = collapse_loop g c s.
Proof.
  revert g s. induction f as [|f IH]; intros [|g] s Lf Lg;
    try (destruct s; [reflexivity | simpl in *; lia]).
  cbn [collapse_loop].
  destruct (has_double c s) eqn:E; [|reflexivity].
  pose proof (replace_double_shorter s E) as Sh.
  apply IH; lia.
Qed.

Lemma collapse_loop_other (d : N) (fuel : nat) (s : pystr) :
  d <> c -> has_double d s = false ->
  has_double d (collapse_loop fuel c s) = false.
Proof.
  intro Hd. revert s. induction fuel as [|f IH]; intros s H; simpl.
  - now destruct (has_double c s).
  - destruct (has_double c s); [|exact H].
    apply IH. now apply replace_double_other.
Qed.

Lemma collapse_loop_Forall (P : N -> Prop) (fuel : nat) (s : pystr) :
  Forall P s -> Forall P (collapse_loop fuel c s).
Proof.
  revert s. induction fuel as [|f IH]; intros s H; simpl.
  - now destruct (has_double c s).
  - destruct (has_double c s); [|exact H].
    apply IH. now apply replace_double_Forall.
Qed.

(** A string without a double is left alone. *)
Lemma collapse_fixed (s : pystr) :
  has_double c s = false -> collapse c s = s.
Proof.
  unfold collapse. intro H. destruct (length s); simpl; now rewrite H.
Qed.

End DoubleFacts.

Section EncodeFacts.

Lemma encode_char_defined (c : N) :
  encodable c = true -> exists b, encode_char c = Some b.
Proof.
  unfold encodable, encode_char. intro H.
  apply andb_true_iff in H as [H1 H2]. apply negb_true_iff in H1.
  rewrite H1, H2.
  destruct (c <? 0x80)%N; [eauto|].
  destruct (c <? 0x800)%N; [eauto|].
  destruct (c <? 0x10000)%N; eauto.
Qed.

Lemma encode_utf8_defined (s : pystr) :
  forallb encodable s = true -> exists b, encode_utf8 s = Some b.
Proof.
  induction s as [|c t IH]; simpl; [eauto|].
  intro H. apply andb_true_iff in H as [Hc Ht].
  destruct (encode_char_defined c Hc) as (b & ->).
  destruct (IH Ht) as (bs & ->). eauto.
Qed.

Lemma encode_utf8_app (s t : pystr) (b : bytes) :
  encode_utf8 (s ++ t) = Some b ->
  exists b1 b2, encode_utf8 s = Some b1 /\ encode_utf8 t = Some b2
                /\ b = b1 ++ b2.
Proof.
  revert b. induction s as [|c s IH]; simpl; intros b H.
  - exists [], b. auto.
  - destruct (encode_char c) as [bc|]; [|discriminate].
    destruct (encode_utf8 (s ++ t)) as [bs|] eqn:E; [|discriminate].
    destruct (IH bs eq_refl) as (b1 & b2 & -> & -> & ->).
    exists (bc ++ b1), b2. inversion H. now rewrite app_assoc.
Qed.

(** A contiguous part of an encodable string is encodable, in no more
    bytes. *)
Lemma encode_utf8_infix (r s : pystr) (b : bytes) :
  infix r s -> encode_utf8 s = Some b ->
  exists br, encode_utf8 r = Some br /\ length br <= length b.
Proof.
  intros (pre & suf & ->) H.
  apply encode_utf8_app in H as (b1 & b2 & _ & H & ->).
  apply encode_utf8_app in H as (br & b3 & H & _ & ->).
  exists br. split; [exact H|]. rewrite !length_app. lia.
Qed.

End EncodeFacts.

Section CodecFacts.

Local Open Scope N_scope.

Lemma to_N_byte_of (n : N) : n < 256 -> Byte.to_N (byte_of n) = n.
Proof.
  intro H. unfold byte_of. destruct (Byte.of_N n) as [b|] eqn:E.
  - now apply Byte.to_of_N.
  - apply Byte.of_N_None_iff in E. lia.
Qed.

(** The groups of six bits of a code point. *)
Lemma six_bit_groups (c : N) :
  exists q1 q2 q3 r0 r1 r2,
    c / 64 = q1 /\ c / 4096 = q2 /\ c / 262144 = q3
    /\ c mod 64 = r0 /\ (c / 64) mod 64 = r1 /\ (c / 4096) mod 64 = r2
    /\ c = 64 * q1 + r0 /\ q1 = 64 * q2 + r1 /\ q2 = 64 * q3 + r2
    /\ r0 < 64 /\ r1 < 64 /\ r2 < 64.
Proof.
  exists (c / 64), (c / 4096), (c / 262144),
         (c mod 64), ((c / 64) mod 64), ((c / 4096) mod 64).
  repeat split; try (apply N.mod_lt; discriminate).
  - apply N.div_mod'.
  - change 4096 with (64 * 64). rewrite <- N.Div0.div_div.
    apply N.div_mod'.
  - change 262144 with (4096 * 64). rewrite <- N.Div0.div_div.
    apply N.div_mod'.
Qed.

Ltac decide_tests :=
  repeat match goal with
  | |- context [?a =? ?b] => destruct (N.eqb_spec a b); try lia
  | |- context [?a <? ?b] => destruct (N.ltb_spec a b); try lia
  | |- context [?a <=? ?b] => destruct (N.leb_spec a b); try lia
  end.

Ltac round_trip :=
  let E := fresh "E" in
  let E' := fresh "E" in
  intro E;
  match type of E with
  | Some ?l = Some ?r => assert (E' : l = r) by congruence; rewrite <- E'
  end;
  cbn [map app];
  rewrite !to_N_byte_of by lia;
  cbn [decode_utf8_values]; unfold is_cont, between;
  decide_tests; cbn [andb]; f_equal; lia.

Lemma decode_encode_char (c : N) (bc : bytes) (rest : list N) :
  encode_char c = Some bc ->
  decode_utf8_values (map Byte.to_N bc ++ rest)
  = cons_opt c (decode_utf8_values rest).
Proof.
  unfold encode_char, between.
  destruct (six_bit_groups c)
    as (q1 & q2 & q3 & r0 & r1 & r2 & -> & -> & -> & -> & -> & ->
        & E0 & E1 & E2 & L0 & L1 & L2).
  destruct (N.ltb_spec c 0x80); [round_trip|].
  destruct (N.ltb_spec c 0x800); [round_trip|].
  destruct (N.leb_spec 0xD800 c); destruct (N.leb_spec c 0xDFFF);
    cbn [andb]; try discriminate.
  all: destruct (N.ltb_spec c 0x10000); [round_trip|].
  all: destruct (N.ltb_spec c 0x110000); [round_trip|discriminate].
Qed.

(** Decoding undoes encoding. *)
Lemma decode_encode_utf8 (s : pystr) (b : bytes) :
  encode_utf8 s = Some b -> decode_utf8 b = Some s.
Proof.
  unfold decode_utf8. revert b.
  induction s as [|c s IH]; simpl; intros b H.
  - now inversion H.
  - destruct (encode_char c) as [bc|] eqn:Ec; [|discriminate].
    destruct (encode_utf8 s) as [bs|]; [|discriminate].
    inversion H; subst. rewrite map_app, (@decode_encode_char c bc _ Ec).
    now rewrite (IH bs eq_refl).
Qed.

End CodecFacts.

(* ================================================================== *)
(** * Properties of [sanitize_filename] *)
(* ================================================================== *)

Section SanitizeFacts.

Import merlin_renamer.

Lemma truncate_loop_infix (fuel max_length : nat) (s r : pystr) :
  truncate_loop fuel max_length s = Some r -> infix r s.
Proof.
  revert s. induction fuel as [|f IH]; intros s; simpl;
    destruct (encode_utf8 s) as [b|]; try discriminate;
    destruct ((max_length <? length b) && truthy s).
  - intro H. inversion H. apply infix_refl.
  - intro H. inversion H. apply infix_refl.
  - intro H. eapply infix_trans; [apply (IH _ H) | apply infix_removelast].
  - intro H. inversion H. apply infix_refl.
Qed.

(** With the length of the string as fuel the loop leaves through its
    test: what it returns is encoded in at most [max_length] bytes. *)
Lemma truncate_loop_exit (fuel max_length : nat) (s r : pystr) :
  length s <= fuel ->
  truncate_loop fuel max_length s = Some r ->
  exists b, encode_utf8 r = Some b /\ length b <= max_length.
Proof.
  revert s. induction fuel as [|f IH]; intros s L; simpl;
    destruct (encode_utf8 s) as [b|] eqn:E; try discriminate;
    destruct ((max_length <? length b) && truthy s) eqn:C.
  - destruct s; [|simpl in L; lia].
    rewrite andb_false_r in C. discriminate.
  - intro H. inversion H; subst. exists b. split; [exact E|].
    apply andb_false_iff in C as [C|C].
    + apply Nat.ltb_ge in C. lia.
    + destruct r; [|discriminate]. simpl in E. inversion E. simpl. lia.
  - apply IH.
    destruct s as [|a t] using rev_ind; [simpl; lia|].
    rewrite removelast_last. rewrite length_app in L. simpl in L. lia.
  - intro H. inversion H; subst. exists b. split; [exact E|].
    apply andb_false_iff in C as [C|C].
    + apply Nat.ltb_ge in C. lia.
    + destruct r; [|discriminate]. simpl in E. inversion E. simpl. lia.
Qed.

(** The loop returns whenever the string can be encoded. *)
Lemma truncate_loop_defined (fuel max_length : nat) (s : pystr) :
  forallb encodable s = true ->
  exists r, truncate_loop fuel max_length s = Some r.
Proof.
  revert s. induction fuel as [|f IH]; intros s H; simpl;
    destruct (encode_utf8_defined s H) as (b & ->);
    destruct ((max_length <? length b) && truthy s); eauto.
  apply IH. apply forallb_forall. intros x Hx.
  rewrite forallb_forall in H. apply H.
  destruct (infix_removelast s) as (pre & suf & E).
  rewrite E. apply in_or_app. right. apply in_or_app. now left.
Qed.

(** A string that fits is returned as it is. *)
Lemma truncate_loop_fixed (fuel max_length : nat) (s : pystr) (b : bytes) :
  encode_utf8 s = Some b -> length b <= max_length ->
  truncate_loop fuel max_length s = Some s.
Proof.
  intros E L.
  destruct fuel; simpl; rewrite E;
    (replace (max_length <? length b) with false
      by (symmetry; apply Nat.ltb_ge; lia)); reflexivity.
Qed.

Lemma sanitize_filename_unfold (title : pystr) (max_length : nat) :
  sanitize_filename title max_length =
  if negb (truthy title) then Some (lit "unnamed")
  else
    match truncate_loop (length (trimmed title)) max_length (trimmed title)
    with
    | None => None
    | Some safe => Some (if truthy safe then safe else lit "unnamed")
    end.
Proof. reflexivity. Qed.

(** A property of the characters of the substituted title passes to the
    trimmed string. *)
Lemma trimmed_Forall (P : N -> Prop) (title : pystr) :
  Forall P (map (fun c => if invalid_chars c then 95%N else c) title) ->
  Forall P (trimmed title).
Proof.
  intro H. unfold trimmed.
  eapply infix_Forall; [apply strip_infix|].
  eapply infix_Forall; [apply strip_infix|].
  now apply collapse_loop_Forall, collapse_loop_Forall.
Qed.

(** The trimmed string holds neither two spaces nor two underscores in
    a row. *)
Lemma trimmed_no_double (title : pystr) :
  has_double 32 (trimmed title) = false
  /\ has_double 95 (trimmed title) = false.
Proof.
  unfold trimmed. split.
  - eapply has_double_infix; [apply strip_infix|].
    eapply has_double_infix; [apply strip_infix|].
    apply collapse_loop_other; [discriminate | apply collapse_exit].
  - eapply has_double_infix; [apply strip_infix|].
    eapply has_double_infix; [apply strip_infix|].
    apply collapse_exit.
Qed.

Lemma substituted_clean (title : pystr) :
  Forall (fun c => invalid_chars c = false)
         (map (fun c => if invalid_chars c then 95%N else c) title).
Proof.
  apply Forall_map, Forall_forall. intros c _.
  destruct (invalid_chars c) eqn:E; [reflexivity | exact E].
Qed.

Lemma substituted_encodable (title : pystr) :
  forallb encodable title = true ->
  Forall (fun c => encodable c = true)
         (map (fun c => if invalid_chars c then 95%N else c) title).
Proof.
  intro H. apply Forall_map, Forall_forall. intros c Hc.
  destruct (invalid_chars c); [reflexivity|].
  rewrite forallb_forall in H. now apply H.
Qed.

(** A string without an invalid character is left alone by the
    substitution. *)
Lemma substitution_fixed (s : pystr) :
  Forall (fun c => invalid_chars c = false) s ->
  map (fun c => if invalid_chars c then 95%N else c) s = s.
Proof.
  induction 1 as [|c t Hc _ IH]; simpl; [reflexivity|].
  now rewrite Hc, IH.
Qed.

(** [invalid_chars] is the forbidden set together with the control
    characters. *)
Lemma invalid_chars_spec (c : N) :
  invalid_chars c = false -> ~ In c forbidden /\ ~ is_control c.
Proof.
  unfold invalid_chars, is_control, between, forbidden, char_in.
  intro H. apply orb_false_iff in H as [H1 H2]. split.
  - intro I. rewrite <- not_true_iff_false in H1. apply H1.
    apply existsb_exists. exists c. split; [exact I | apply N.eqb_refl].
  - intro L. apply N.leb_le in L. rewrite L in H2.
    now destruct c.
Qed.

(** What [sanitize_filename] returns: the literal, or the truncation of
    the trimmed string. *)
Lemma sanitize_filename_inv (title y : pystr) (max_length : nat) :
  sanitize_filename title max_length = Some y ->
  y = lit "unnamed"
  \/ (truthy y = true
      /\ truncate_loop (length (trimmed title)) max_length (trimmed title)
         = Some y).
Proof.
  rewrite sanitize_filename_unfold.
  destruct (negb (truthy title)); [intro H; inversion H; now left|].
  destruct (truncate_loop _ _ _) as [r|]; [|discriminate].
  destruct (truthy r) eqn:T; intro H; inversion H; subst; auto.
Qed.

(** The two trimming steps leave a string alone exactly when its ends
    are clean. *)
Lemma trim_fixed_iff (y : pystr) :
  strip (char_in (lit "._-")) (strip isspace y) = y <-> clean_ends y = true.
Proof.
  assert (E : strip (char_in (lit "._-")) (strip isspace y) = y <->
              strip isspace y = y /\ strip (char_in (lit "._-")) y = y).
  { split.
    - intro H.
      assert (W : strip isspace y = y).
      { apply infix_same_length; [apply strip_infix|].
        rewrite <- H at 1. apply infix_length, strip_infix. }
      split; [exact W|]. now rewrite W in H.
    - intros [W D]. now rewrite W. }
  rewrite E, !strip_fixed, !lstrip_fixed, !rstrip_fixed.
  unfold clean_ends, trimmed_char.
  destruct y as [|c t]; [tauto|].
  rewrite andb_true_iff, !negb_true_iff, !orb_false_iff. tauto.
Qed.

End SanitizeFacts.

(* ================================================================== *)
(** * Properties of the pattern matcher *)
(* ================================================================== *)

Section RegexFacts.

Lemma eat_hex_split (n : nat) (s t : list N) :
  eat_hex n s = Some t -> exists m, s = m ++ t /\ length m = n.
Proof.
  revert s. induction n as [|n IH]; intros s; simpl.
  - intro H. inversion H. now exists [].
  - destruct s as [|c r]; [discriminate|].
    destruct (is_hex c); [|discriminate].
    intro H. destruct (IH _ H) as (m & -> & L).
    exists (c :: m). simpl. auto.
Qed.

(** A match consumes as many characters as the pattern is long. *)
Lemma re_match_split (p : list atom) (s t : list N) :
  re_match p s = Some t -> exists m, s = m ++ t /\ length m = pat_len p.
Proof.
  revert s. induction p as [|[n|c] p IH]; intros s; simpl.
  - intro H. inversion H. now exists [].
  - destruct (eat_hex n s) as [r|] eqn:E; [|discriminate].
    intro H. destruct (eat_hex_split _ _ E) as (m1 & -> & L1).
    destruct (IH _ H) as (m2 & -> & L2).
    exists (m1 ++ m2). rewrite length_app, app_assoc. auto.
  - destruct s as [|d r]; [discriminate|].
    destruct (d =? c)%N; [|discriminate].
    intro H. destruct (IH _ H) as (m & -> & L).
    exists (d :: m). simpl. auto.
Qed.

Lemma re_match_nil (p : list atom) : 0 < pat_len p -> re_match p [] = None.
Proof.
  intro L. destruct (re_match p []) as [t|] eqn:E; [|reflexivity].
  destruct (re_match_split _ _ E) as (m & Em & Lm).
  destruct m; [simpl in Lm; lia | discriminate].
Qed.

(** [re.search] finds a match exactly when the pattern matches at some
    offset. *)
Lemma re_search_iff (p : list atom) (s : list N) :
  re_search p s = true <-> exists k, matches_at p s k.
Proof.
  unfold matches_at. induction s as [|a t IH]; simpl.
  - destruct (re_match p []) eqn:E; split; intro H.
    + exists 0. simpl. congruence.
    + reflexivity.
    + discriminate.
    + destruct H as (k & H). destruct k; simpl in H; congruence.
  - destruct (re_match p (a :: t)) eqn:E.
    + split; [|reflexivity]. intros _. exists 0. simpl. congruence.
    + rewrite IH. split; intros (k & H).
      * now exists (S k).
      * destruct k as [|k]; [simpl in H; congruence | now exists k].
Qed.

Section FindIter.

Variable p : list atom.
Hypothesis p_positive : 0 < pat_len p.

(** The length of the subject is enough fuel: more changes nothing. *)
Lemma re_finditer_fuel (f g pos : nat) (s : list N) :
  length s <= f -> length s <= g ->
  re_finditer f p pos s = re_finditer g p pos s.
Proof.
  revert g pos s. induction f as [|f IH]; intros [|g] pos s Lf Lg;
    try (destruct s; [reflexivity | simpl in *; lia]).
  destruct s as [|a t]; [reflexivity|].
  cbn [re_finditer]. destruct (re_match p (a :: t)).
  - f_equal. apply IH; rewrite length_skipn; cbn [length] in *; lia.
  - apply IH; cbn [length] in *; lia.
Qed.

(** With the length of the subject as fuel, [re.finditer] yields nothing
    exactly when [re.search] finds nothing. *)
Lemma re_finditer_nil (fuel pos : nat) (s : list N) :
  length s <= fuel ->
  (re_finditer fuel p pos s = [] <-> re_search p s = false).
Proof.
  revert pos s. induction fuel as [|f IH]; intros pos s L.
  - destruct s; [|simpl in L; lia].
    simpl. rewrite (re_match_nil p p_positive). tauto.
  - destruct s as [|a t].
    + simpl. rewrite (re_match_nil p p_positive). tauto.
    + cbn [re_finditer re_search].
      destruct (re_match p (a :: t)).
      * split; discriminate.
      * apply IH. simpl in L. lia.
Qed.

(** Every match reported lies at or after [pos]; it is a match of the
    pattern at its offset, and its text is what the subject holds
    there. *)
Lemma re_finditer_In (fuel pos : nat) (s : list N) (k : nat) (m : list N) :
  In (k, m) (re_finditer fuel p pos s) ->
  pos <= k /\ matches_at p s (k - pos)
  /\ m = firstn (pat_len p) (skipn (k - pos) s).
Proof.
  unfold matches_at.
  revert pos s. induction fuel as [|f IH]; intros pos s; [intros []|].
  destruct s as [|a t]; [intros []|].
  cbn [re_finditer].
  destruct (re_match p (a :: t)) as [r|] eqn:E.
  - intros [H|H].
    + inversion H; subst. rewrite Nat.sub_diag. simpl skipn.
      repeat split; [lia | congruence].
    + destruct (IH _ _ H) as (Lk & Mk & Em).
      rewrite skipn_skipn in Mk, Em.
      replace (k - (pos + pat_len p) + pat_len p) with (k - pos) in * by lia.
      repeat split; [lia | assumption | assumption].
  - intro H. destruct (IH _ _ H) as (Lk & Mk & Em).
    replace (k - pos) with (S (k - S pos)) by lia. simpl skipn.
    repeat split; [lia | assumption | assumption].
Qed.

(** The offsets reported are at least [pos] and strictly increasing. *)
Lemma re_finditer_sorted (fuel pos : nat) (s : list N) :
  Forall (le pos) (map fst (re_finditer fuel p pos s))
  /\ StronglySorted lt (map fst (re_finditer fuel p pos s)).
Proof.
  revert pos s. induction fuel as [|f IH]; intros pos s.
  - split; constructor.
  - destruct s as [|a t]; [split; constructor|].
    cbn [re_finditer].
    destruct (re_match p (a :: t)).
    + destruct (IH (pos + pat_len p) (skipn (pat_len p) (a :: t)))
        as [B S]. simpl map. split.
      * constructor; [lia|]. eapply Forall_impl; [|exact B].
        simpl. intros; lia.
      * constructor; [exact S|]. eapply Forall_impl; [|exact B].
        simpl. intros; lia.
    + destruct (IH (S pos) t) as [B S]. split; [|exact S].
      eapply Forall_impl; [|exact B]. simpl. intros; lia.
Qed.

End FindIter.

End RegexFacts.

(* ================================================================== *)
(** * The claims on [sanitize_filename] *)
(* ================================================================== *)

(** C8.  For every title and every byte budget, [sanitize_filename]
    returns a string whenever the title holds no surrogate code point,
    and no character of a string it returns is one of the nine forbidden
    characters (backslash, slash, colon, star, question mark, double
    quote, less, greater, bar) or a C0 control character. *)
Theorem sanitize_no_forbidden (title : pystr) (max_length : nat) :
  (forallb encodable title = true ->
   exists out, merlin_renamer.sanitize_filename title max_length = Some out)
  /\ (forall out c,
        merlin_renamer.sanitize_filename title max_length = Some out ->
        In c out -> ~ In c forbidden /\ ~ is_control c).
Proof.
  split.
  - intro H. rewrite sanitize_filename_unfold.
    destruct (negb (truthy title)); [eauto|].
    destruct (truncate_loop_defined (length (trimmed title)) max_length
                (trimmed title)) as (r & ->); [|eauto].
    apply forallb_forall, Forall_forall, trimmed_Forall.
    now apply substituted_encodable.
  - intros out c H Hc. apply invalid_chars_spec. revert c Hc.
    apply Forall_forall.
    destruct (sanitize_filename_inv _ _ H) as [-> | (_ & T)].
    + repeat constructor.
    + eapply infix_Forall; [eapply truncate_loop_infix, T|].
      apply trimmed_Forall, substituted_clean.
Qed.

Lemma sanitize_no_forbidden_witness :
  (exists out,
     merlin_renamer.sanitize_filename (lit "a/b") 60 = Some out)
  /\ (~ In 95%N forbidden /\ ~ is_control 95%N).
Proof.
  destruct (sanitize_no_forbidden (lit "a/b") 60) as [T C]. split.
  - apply T. reflexivity.
  - apply (C (lit "a_b") 95%N); [reflexivity | simpl; tauto].
Defined.

(** C7, as the claim states it, fails: sanitizing the three characters
    a, space, period gives a, space, and sanitizing that gives a. *)
Lemma sanitize_not_idempotent :
  merlin_renamer.sanitize_filename (lit "a .") 60 = Some (lit "a ")
  /\ sanitize_twice (lit "a .") = Some (lit "a")
  /\ sanitize_twice (lit "a .")
     <> merlin_renamer.sanitize_filename (lit "a .") 60.
Proof. repeat split. discriminate. Qed.

(** C7, amended.  With the default budget of 60 bytes, sanitizing a
    sanitized name [y] gives [y] again exactly when [y] neither begins
    nor ends with a white space character, a period, an underscore or a
    hyphen. *)
Theorem sanitize_idempotent_iff (x y : pystr) :
  merlin_renamer.sanitize_filename x 60 = Some y ->
  (merlin_renamer.sanitize_filename y 60 = Some y <-> clean_ends y = true).
Proof.
  intro H.
  destruct (sanitize_filename_inv _ _ H) as [-> | (T & Tr)];
    [split; reflexivity|].
  pose proof (truncate_loop_infix _ _ _ Tr) as I.
  assert (C : Forall (fun c => merlin_renamer.invalid_chars c = false) y).
  { eapply infix_Forall; [exact I|].
    apply trimmed_Forall, substituted_clean. }
  destruct (trimmed_no_double x) as [D32 D95].
  apply (@has_double_infix 32 _ _ I) in D32.
  apply (@has_double_infix 95 _ _ I) in D95.
  destruct (truncate_loop_exit _ _ (Nat.le_refl _) Tr) as (b & Eb & Lb).
  rewrite sanitize_filename_unfold, T. cbn [negb].
  unfold trimmed.
  rewrite (substitution_fixed C), (collapse_fixed _ _ D32),
    (collapse_fixed _ _ D95).
  rewrite <- trim_fixed_iff.
  set (z := strip (char_in (lit "._-")) (strip isspace y)).
  split.
  - destruct (merlin_renamer.truncate_loop (length z) 60 z) as [r|] eqn:R;
      [|discriminate].
    pose proof (truncate_loop_infix _ _ _ R) as Iz.
    destruct (truthy r) eqn:Tr'; intro G; inversion G; subst.
    + apply infix_same_length.
      * eapply infix_trans; apply strip_infix.
      * now apply infix_length.
    + reflexivity.
  - intros ->. rewrite (truncate_loop_fixed _ _ Eb Lb). now rewrite T.
Qed.

Lemma sanitize_idempotent_iff_witness :
  merlin_renamer.sanitize_filename (lit "My Song") 60 = Some (lit "My Song")
  <-> clean_ends (lit "My Song") = true.
Proof. apply (sanitize_idempotent_iff (lit "My Song: ")). reflexivity. Defined.

(** C9, as the claim states it, fails: the older function keeps the
    accented letters, which are alphanumeric, and turns the apostrophe
    alone into an underscore; it does not return C, a, f, underscore,
    space, d, two underscores, t, underscore. *)
Lemma legacy_sanitize_keeps_accents :
  rename_from_id3.sanitize_filename no_table cafe_d_ete 60
  = Some cafe_d_ete_legacy
  /\ rename_from_id3.sanitize_filename no_table cafe_d_ete 60
     <> Some (lit "Caf_ d__t_").
Proof. split; [reflexivity | discriminate]. Qed.

(** C9, amended.  The canonical function returns the string unchanged,
    apostrophe and accented letters kept; the older function, whatever the
    character database says above the Latin-1 block, returns it with the
    apostrophe alone replaced by an underscore; so the two functions are
    not extensionally equal. *)
Theorem sanitize_variants_differ (alnum_above : N -> bool) :
  merlin_renamer.sanitize_filename cafe_d_ete 60 = Some cafe_d_ete
  /\ rename_from_id3.sanitize_filename alnum_above cafe_d_ete 60
     = Some cafe_d_ete_legacy
  /\ (exists x,
        merlin_renamer.sanitize_filename x 60
        <> rename_from_id3.sanitize_filename alnum_above x 60).
Proof.
  repeat split. exists cafe_d_ete. discriminate.
Qed.

(* ================================================================== *)
(** * Properties of the record scanner *)
(* ================================================================== *)

Section ScannerFacts.

Import merlin_renamer.

Lemma UUID_PATTERN_positive : 0 < pat_len UUID_PATTERN.
Proof. simpl. lia. Qed.

Lemma bytes_eqb_eq (a b : bytes) : bytes_eqb a b = true <-> a = b.
Proof.
  revert b. induction a as [|x a IH]; intros [|y b]; simpl;
    try (split; [discriminate | congruence]); [tauto|].
  rewrite andb_true_iff, IH. split.
  - intros [E ->]. now rewrite (Byte.byte_dec_bl _ _ E).
  - intro H. inversion H. split; [now apply Byte.byte_dec_lb | reflexivity].
Qed.

(** The marker loop answers [True] exactly when the marker is read at
    one of the offsets it visits. *)
Lemma marker_loop_iff (entry : bytes) (offsets : list nat) :
  marker_loop entry offsets = true <->
  exists m, In m offsets
            /\ slice entry m (m + length UUID_MARKER) = UUID_MARKER.
Proof.
  induction offsets as [|o r IH]; simpl.
  - split; [discriminate | intros (m & [] & _)].
  - destruct (bytes_eqb _ UUID_MARKER) eqn:E.
    + apply bytes_eqb_eq in E. split; [|reflexivity].
      intros _. exists o. auto.
    + rewrite IH. split; intros (m & I & H).
      * exists m. auto.
      * destruct I as [->|I]; [|exists m; auto].
        apply bytes_eqb_eq in H. congruence.
Qed.

Lemma find_uuids_offsets (entry : bytes) :
  map offset (find_uuids_in_entry entry)
  = map fst (re_finditer (length entry) UUID_PATTERN 0
               (map Byte.to_N entry)).
Proof.
  unfold find_uuids_in_entry. rewrite map_map.
  apply map_ext. now intros [k t].
Qed.

(** Every identifier reported is a match of the pattern at its offset,
    and its text is the 36 bytes the record holds there. *)
Lemma find_uuids_In (entry : bytes) (u : uuid_info) :
  In u (find_uuids_in_entry entry) ->
  matches_at UUID_PATTERN (map Byte.to_N entry) (offset u)
  /\ uuid u = firstn 36 (skipn (offset u) (map Byte.to_N entry)).
Proof.
  unfold find_uuids_in_entry. intro I.
  apply in_map_iff in I as ([k t] & <- & I). cbn [offset uuid].
  apply re_finditer_In in I as (_ & M & E);
    [|apply UUID_PATTERN_positive].
  rewrite Nat.sub_0_r in M, E. split; [exact M | exact E].
Qed.

(** The identifiers come in strictly increasing offset. *)
Lemma find_uuids_sorted (entry : bytes) :
  StronglySorted lt (map offset (find_uuids_in_entry entry)).
Proof.
  rewrite find_uuids_offsets.
  apply re_finditer_sorted, UUID_PATTERN_positive.
Qed.

(** A record has an identifier exactly when the pattern matches
    somewhere in it. *)
Lemma find_uuids_nonempty (entry : bytes) :
  find_uuids_in_entry entry <> [] <->
  exists k, matches_at UUID_PATTERN (map Byte.to_N entry) k.
Proof.
  rewrite <- re_search_iff. unfold find_uuids_in_entry.
  pose proof (@re_finditer_nil UUID_PATTERN UUID_PATTERN_positive
                (length entry) 0 (map Byte.to_N entry)) as F.
  rewrite length_map in F. specialize (F (Nat.le_refl _)).
  destruct (re_finditer _ _ _ _) eqn:E; simpl.
  - destruct (re_search _ _); [|split; congruence].
    destruct F as [F _]. specialize (F eq_refl). discriminate.
  - split; [|discriminate]. intros _.
    destruct (re_search _ _); [reflexivity|].
    destruct F as [_ F]. specialize (F eq_refl). discriminate.
Qed.

(** In a list sorted by offset, the head of a filtered list is the
    element of least offset that passes the filter. *)
Lemma filter_head_first (P : uuid_info -> bool) (l r : list uuid_info)
  (u : uuid_info) :
  StronglySorted lt (map offset l) ->
  filter P l = u :: r -> first_by_offset P l u.
Proof.
  unfold first_by_offset.
  induction l as [|a l IH]; simpl; [discriminate|].
  intros S F. inversion S as [|? ? S' B]; subst.
  destruct (P a) eqn:Pa.
  - inversion F; subst. repeat split; auto.
    intros v [->|I] _; [lia|].
    rewrite Forall_forall in B.
    specialize (B (offset v) (in_map offset _ _ I)). lia.
  - destruct (IH S' F) as (I & Pu & M). repeat split; auto.
    intros v [->|Iv] Pv; [congruence | auto].
Qed.

Lemma existsb_filter_nil (A : Type) (P : A -> bool) (l : list A) :
  existsb P l = match filter P l with [] => false | _ :: _ => true end.
Proof.
  induction l as [|a l IH]; simpl; [reflexivity|].
  destruct (P a); [reflexivity | exact IH].
Qed.

Lemma filter_all (A : Type) (l : list A) : filter (fun _ => true) l = l.
Proof. induction l; simpl; congruence. Qed.

Lemma ENTRY_SIZE_positive : 0 < ENTRY_SIZE.
Proof. unfold ENTRY_SIZE. lia. Qed.

(** Below [len // 256] every read gives a whole record. *)
Lemma record_length (container : bytes) (i : nat) :
  i < length container / ENTRY_SIZE ->
  length (record container i) = ENTRY_SIZE.
Proof.
  intro H. unfold record, seek_read.
  rewrite length_firstn, length_skipn.
  pose proof (Nat.Div0.mul_div_le (length container) ENTRY_SIZE) as D.
  pose proof ENTRY_SIZE_positive as Pos.
  assert (M : (S i) * ENTRY_SIZE
              <= (length container / ENTRY_SIZE) * ENTRY_SIZE)
    by (apply Nat.mul_le_mono_r; lia).
  generalize dependent ENTRY_SIZE. intros E H D Pos M.
  simpl in M. rewrite (Nat.mul_comm E) in D. lia.
Qed.

Lemma firstn_add (A : Type) (a b : nat) (l : list A) :
  firstn (a + b) l = firstn a l ++ firstn b (skipn a l).
Proof.
  revert l. induction a as [|a IH]; intros [|x l]; simpl;
    try reflexivity.
  - now rewrite firstn_nil.
  - now rewrite IH.
Qed.

(** The records, one after the other, are the container up to the last
    multiple of 256; what is left is shorter than a record. *)
Lemma records_concat (container : bytes) (n : nat) :
  n * ENTRY_SIZE <= length container ->
  concat (map (record container) (seq 0 n))
  = firstn (n * ENTRY_SIZE) container.
Proof.
  induction n as [|n IH]; intro L; [reflexivity|].
  rewrite seq_S, map_app, concat_app, IH by lia.
  cbn [map concat Nat.add]. rewrite app_nil_r. unfold record, seek_read.
  replace (S n * ENTRY_SIZE) with (n * ENTRY_SIZE + ENTRY_SIZE) by lia.
  now rewrite firstn_add.
Qed.

Lemma tail_short (container : bytes) :
  length (skipn (length container / ENTRY_SIZE * ENTRY_SIZE) container)
  < ENTRY_SIZE.
Proof.
  rewrite length_skipn.
  pose proof (Nat.div_mod_eq (length container) ENTRY_SIZE) as D.
  pose proof (Nat.mod_upper_bound (length container) ENTRY_SIZE) as M.
  pose proof ENTRY_SIZE_positive as Pos.
  rewrite (Nat.mul_comm ENTRY_SIZE) in D. lia.
Qed.

Section WithUnicode.

Variable alpha_above : N -> bool.

(** When no read is short, the loop appends the entry of every index in
    turn. *)
Lemma playlist_loop_spec (container : bytes) (indices : list nat)
  (items : list item) :
  (forall i, In i indices -> length (record container i) = ENTRY_SIZE) ->
  playlist_loop alpha_above container indices items
  = items ++ flat_map (entry_of alpha_above container) indices.
Proof.
  revert items. induction indices as [|i r IH]; intros items H.
  - simpl. now rewrite app_nil_r.
  - cbn [playlist_loop flat_map].
    change (seek_read container (i * ENTRY_SIZE) ENTRY_SIZE)
      with (record container i).
    rewrite (H i (or_introl eq_refl)), Nat.ltb_irrefl.
    unfold entry_of at 1.
    destruct (find_uuids_in_entry (record container i)) as [|u0 us] eqn:E.
    + apply IH. intros j Hj. apply H. now right.
    + rewrite IH by (intros j Hj; apply H; now right).
      now rewrite <- app_assoc.
Qed.

Lemma read_merlin_playlist_spec (container : bytes) :
  read_merlin_playlist alpha_above container
  = flat_map (entry_of alpha_above container)
      (seq 0 (length container / ENTRY_SIZE)).
Proof.
  unfold read_merlin_playlist, range. rewrite Nat.sub_0_r.
  rewrite playlist_loop_spec; [reflexivity|].
  intros i Hi. apply in_seq in Hi. apply record_length. lia.
Qed.

Lemma entry_of_index (container : bytes) (i : nat) (it : item) :
  In it (entry_of alpha_above container i) -> index it = i.
Proof.
  unfold entry_of.
  destruct (find_uuids_in_entry (record container i)); [intros []|].
  intros [<-|[]]. reflexivity.
Qed.

Lemma entry_of_length (container : bytes) (i : nat) :
  length (entry_of alpha_above container i) <= 1.
Proof.
  unfold entry_of.
  destruct (find_uuids_in_entry (record container i)); simpl; lia.
Qed.

Lemma entry_of_nonempty (container : bytes) (i : nat) :
  entry_of alpha_above container i <> [] <->
  find_uuids_in_entry (record container i) <> [].
Proof.
  unfold entry_of.
  destruct (find_uuids_in_entry (record container i)); split; congruence.
Qed.

End WithUnicode.

(** A tail shorter than a record, after whole records, changes neither
    the number of records nor any record. *)
Lemma tail_ignored (container tail : bytes) (n : nat) :
  length container = n * ENTRY_SIZE -> length tail < ENTRY_SIZE ->
  length (container ++ tail) / ENTRY_SIZE = n
  /\ forall i, i < n -> record (container ++ tail) i = record container i.
Proof.
  intros L T. pose proof ENTRY_SIZE_positive as Pos. split.
  - rewrite length_app, L, Nat.add_comm, Nat.div_add by lia.
    rewrite Nat.div_small by lia. reflexivity.
  - intros i Hi. unfold record, seek_read.
    assert (M : (S i) * ENTRY_SIZE <= n * ENTRY_SIZE)
      by (apply Nat.mul_le_mono_r; lia).
    generalize dependent ENTRY_SIZE. intros E L T Pos M. simpl in M.
    rewrite skipn_app, firstn_app, length_skipn.
    replace (i * E - length container) with 0 by lia.
    replace (E - (length container - i * E)) with 0 by lia.
    simpl. now rewrite app_nil_r.
Qed.

End ScannerFacts.

(* ================================================================== *)
(** * The claims on the record scanner *)
(* ================================================================== *)

(** C2.  A container of [len] bytes is read as [len // 256] records of
    exactly 256 bytes each; a tail shorter than a record after whole
    records changes nothing of the result; record [i] yields an entry
    (the one of index [i]) exactly when the identifier pattern matches
    somewhere in it; there are at most as many entries as records; the
    records, one after the other, are the container up to the last
    multiple of 256, and what is left of it is shorter than a record. *)
Theorem scan_records (alpha_above : N -> bool) (container : bytes) :
  let n := length container / merlin_renamer.ENTRY_SIZE in
  let items := merlin_renamer.read_merlin_playlist alpha_above container in
  (forall i, i < n ->
     length (record container i) = merlin_renamer.ENTRY_SIZE)
  /\ (forall tail,
        length container = n * merlin_renamer.ENTRY_SIZE ->
        length tail < merlin_renamer.ENTRY_SIZE ->
        merlin_renamer.read_merlin_playlist alpha_above (container ++ tail)
        = items)
  /\ (forall i,
        (exists it, In it items /\ merlin_renamer.index it = i)
        <-> i < n
            /\ exists k, matches_at merlin_renamer.UUID_PATTERN
                           (map Byte.to_N (record container i)) k)
  /\ length items <= n
  /\ concat (map (record container) (seq 0 n))
     = firstn (n * merlin_renamer.ENTRY_SIZE) container
  /\ length (skipn (n * merlin_renamer.ENTRY_SIZE) container)
     < merlin_renamer.ENTRY_SIZE.
Proof.
  intros n items. subst items.
  split; [|split; [|split; [|split; [|split]]]];
    [| | | | apply records_concat; rewrite Nat.mul_comm;
             apply Nat.Div0.mul_div_le | apply tail_short].
  - intros i Hi. now apply record_length.
  - intros tail L T.
    destruct (@tail_ignored container tail n L T) as [En Er].
    rewrite !read_merlin_playlist_spec, En. fold n.
    rewrite !flat_map_concat_map. f_equal.
    apply map_ext_in. intros i Hi. apply in_seq in Hi.
    unfold entry_of. now rewrite Er by lia.
  - intro i. split.
    + intros (it & I & E).
      rewrite read_merlin_playlist_spec in I.
      apply in_flat_map in I as (j & Hj & I).
      rewrite (entry_of_index _ _ _ _ I) in E. subst j.
      apply in_seq in Hj. fold n in Hj. split; [lia|].
      apply find_uuids_nonempty, (entry_of_nonempty alpha_above).
      intro Z. now rewrite Z in I.
    + intros (Hi & M). apply find_uuids_nonempty in M.
      apply (entry_of_nonempty alpha_above) in M.
      destruct (entry_of alpha_above container i) as [|it r] eqn:E;
        [congruence|].
      exists it. split.
      * rewrite read_merlin_playlist_spec. apply in_flat_map.
        exists i. split; [apply in_seq; fold n; lia|].
        rewrite E. now left.
      * apply (entry_of_index alpha_above container). rewrite E. now left.
  - rewrite read_merlin_playlist_spec. fold n.
    rewrite <- (length_seq n 0) at 2.
    generalize (seq 0 n). intro l.
    induction l as [|i l IH]; simpl; [lia|].
    rewrite length_app.
    pose proof (entry_of_length alpha_above container i). lia.
Qed.

Lemma scan_records_witness :
  length (record container0 1) = merlin_renamer.ENTRY_SIZE
  /\ merlin_renamer.read_merlin_playlist no_table
       (container0 ++ repeat x00 17)
     = merlin_renamer.read_merlin_playlist no_table container0
  /\ ((exists it,
         In it (merlin_renamer.read_merlin_playlist no_table container0)
         /\ merlin_renamer.index it = 0)
      <-> 0 < 2
          /\ exists k, matches_at merlin_renamer.UUID_PATTERN
                         (map Byte.to_N (record container0 0)) k).
Proof.
  destruct (scan_records no_table container0) as (A & B & C & _).
  split; [|split].
  - apply A. vm_compute. lia.
  - apply B; vm_compute; [reflexivity | lia].
  - apply (C 0).
Defined.

(** C4.  For an identifier reported at offset [k] of a record,
    [has_marker] is true exactly when the five marker bytes
    4C 61 94 69 24 stand in the record from some offset [m] with
    [k - 5 <= m <= k - 1]. *)
Theorem has_marker_iff (entry : bytes) (u : merlin_renamer.uuid_info) :
  In u (merlin_renamer.find_uuids_in_entry entry) ->
  (merlin_renamer.has_marker u = true <->
   exists m, merlin_renamer.offset u <= m + 5
             /\ m + 1 <= merlin_renamer.offset u
             /\ slice entry m (m + 5) = [x4c; x61; x94; x69; x24]).
Proof.
  unfold merlin_renamer.find_uuids_in_entry. intro I.
  apply in_map_iff in I as ([k t] & <- & _). cbn [merlin_renamer.has_marker
    merlin_renamer.offset].
  rewrite marker_loop_iff. unfold range.
  split; intros (m & H & E); exists m.
  - apply in_seq in H. repeat split; [lia | lia | exact E].
  - split; [apply in_seq; lia | apply E].
Qed.

Lemma has_marker_iff_witness :
  merlin_renamer.has_marker uuid0 = true <->
  exists m, merlin_renamer.offset uuid0 <= m + 5
            /\ m + 1 <= merlin_renamer.offset uuid0
            /\ slice record0 m (m + 5) = [x4c; x61; x94; x69; x24].
Proof. apply has_marker_iff. vm_compute. left. reflexivity. Defined.

(** C3.  The identifiers of a record come in strictly increasing offset,
    and the identifier of an entry is that of the marker-flagged
    identifier of least offset if the record has a marker-flagged
    identifier, and otherwise that of the identifier of least offset. *)
Theorem canonical_uuid_choice (alpha_above : N -> bool) (container : bytes)
  (it : merlin_renamer.item) :
  In it (merlin_renamer.read_merlin_playlist alpha_above container) ->
  let uuids :=
    merlin_renamer.find_uuids_in_entry
      (record container (merlin_renamer.index it)) in
  StronglySorted lt (map merlin_renamer.offset uuids)
  /\ exists u,
       merlin_renamer.item_uuid it = merlin_renamer.uuid u
       /\ if existsb merlin_renamer.has_marker uuids
          then first_by_offset merlin_renamer.has_marker uuids u
          else first_by_offset (fun _ => true) uuids u.
Proof.
  intros I uuids. split; [apply find_uuids_sorted|].
  rewrite read_merlin_playlist_spec in I.
  apply in_flat_map in I as (i & _ & I).
  pose proof (entry_of_index _ _ _ _ I) as Ei.
  subst uuids. rewrite Ei. clear Ei.
  unfold entry_of in I.
  pose proof (find_uuids_sorted (record container i)) as S.
  destruct (merlin_renamer.find_uuids_in_entry (record container i))
    as [|u0 us] eqn:E; [destruct I|].
  destruct I as [<-|[]]. cbn [merlin_renamer.item_uuid].
  rewrite existsb_filter_nil.
  destruct (filter merlin_renamer.has_marker (u0 :: us)) as [|u r] eqn:F.
  - exists u0. split; [reflexivity|].
    eapply filter_head_first; [exact S | apply filter_all].
  - exists u. split; [reflexivity|].
    eapply filter_head_first; [exact S | exact F].
Qed.

Lemma canonical_uuid_choice_witness :
  StronglySorted lt
    (map merlin_renamer.offset
       (merlin_renamer.find_uuids_in_entry
          (record container0 (merlin_renamer.index item0))))
  /\ exists u,
       merlin_renamer.item_uuid item0 = merlin_renamer.uuid u
       /\ first_by_offset merlin_renamer.has_marker
            (merlin_renamer.find_uuids_in_entry
               (record container0 (merlin_renamer.index item0))) u.
Proof.
  assert (E : existsb merlin_renamer.has_marker
                (merlin_renamer.find_uuids_in_entry
                   (record container0 (merlin_renamer.index item0)))
              = true) by (vm_compute; reflexivity).
  pose proof (canonical_uuid_choice no_table container0 item0) as H.
  cbv zeta in H. rewrite E in H. apply H.
  vm_compute. left. reflexivity.
Defined.

(* ================================================================== *)
(** * The title priority *)
(* ================================================================== *)

Section PriorityFacts.

Import merlin_renamer.

(** The loop over the frames returns a string only if it is non-empty
    and at least three characters long. *)
Lemma id3_loop_long (tags : id3_tags) (keys : list tag) (t : pystr) :
  id3_loop tags keys = Some (Some t) -> t <> [] /\ 3 <= length t.
Proof.
  induction keys as [|k r IH]; cbn [id3_loop]; [discriminate|].
  destruct (tags k) as [[|x xs]|]; try discriminate; auto.
  destruct (truthy x && (3 <=? length x)) eqn:E; [|exact IH].
  intro H. inversion H; subst.
  apply andb_true_iff in E as [T L]. apply Nat.leb_le in L.
  split; [|exact L]. intro Z. subst. discriminate.
Qed.

Lemma get_id3_title_long (m : bool) (file : option id3_tags) (t : pystr) :
  get_id3_title m file = Some t -> t <> [] /\ 3 <= length t.
Proof.
  unfold get_id3_title. destruct (negb m); [discriminate|].
  destruct file as [tags|]; [|discriminate].
  destruct (id3_loop tags [TIT2; TIT1; TALB]) as [r|] eqn:E;
    [|discriminate].
  intros ->. eapply id3_loop_long, E.
Qed.

Lemma embedded_lookup_long (m : bool) (f : folder) (uuid t : pystr) :
  embedded_lookup m f uuid = Some t -> t <> [] /\ 3 <= length t.
Proof.
  unfold embedded_lookup. destruct (f _) as [file|]; [|discriminate].
  destruct m; [apply get_id3_title_long | discriminate].
Qed.

Lemma truthy_iff (s : pystr) : truthy s = true <-> s <> [].
Proof. destruct s; simpl; split; congruence. Qed.

End PriorityFacts.

(** C1.  For every entry: if the embedded-tag lookup for the entry's
    identifier gives a title (a non-empty string of at least three
    characters), that string is the final title, of source ID3;
    otherwise, if the ID3-only flag is not set and the playlist title is
    non-empty and not identifier-like, the playlist title is the final
    title, of source PLAYLIST; otherwise the identifier is the final
    title, of source UUID. *)
Theorem title_priority (HAS_MUTAGEN id3_only : bool)
  (source_folder : merlin_renamer.folder) (it : merlin_renamer.item) :
  let uuid := merlin_renamer.item_uuid it in
  let looked := embedded_lookup HAS_MUTAGEN source_folder uuid in
  let final :=
    merlin_renamer.choose_title HAS_MUTAGEN id3_only source_folder it in
  let playlist_usable :=
    id3_only = false /\ merlin_renamer.pl_title it <> []
    /\ merlin_renamer.is_uuid_like (merlin_renamer.pl_title it) = false in
  (forall t, gave_title looked t -> final = (t, merlin_renamer.ID3))
  /\ ((forall t, ~ gave_title looked t) -> playlist_usable ->
      final = (merlin_renamer.pl_title it, merlin_renamer.PLAYLIST))
  /\ ((forall t, ~ gave_title looked t) -> ~ playlist_usable ->
      final = (uuid, merlin_renamer.UUID)).
Proof.
  intros uuid looked final playlist_usable.
  assert (E : final =
    match looked with
    | Some t => (t, merlin_renamer.ID3)
    | None =>
        if negb id3_only && truthy (merlin_renamer.pl_title it)
           && negb (merlin_renamer.is_uuid_like (merlin_renamer.pl_title it))
        then (merlin_renamer.pl_title it, merlin_renamer.PLAYLIST)
        else (uuid, merlin_renamer.UUID)
    end).
  { subst final. unfold merlin_renamer.choose_title. fold uuid.
    change (match source_folder (uuid ++ lit ".mp3") with
            | Some file =>
                if HAS_MUTAGEN
                then merlin_renamer.get_id3_title HAS_MUTAGEN file
                else None
            | None => None
            end) with looked.
    destruct looked as [t|] eqn:L.
    - destruct (embedded_lookup_long _ _ _ L) as [Ne _].
      apply truthy_iff in Ne. now rewrite Ne.
    - destruct id3_only; [reflexivity|]. reflexivity. }
  rewrite E. clear E. repeat split.
  - intros t (L & _). now rewrite L.
  - intros No (F & Ne & U). destruct looked as [t|] eqn:L.
    + exfalso. apply (No t). split; [reflexivity|].
      eapply embedded_lookup_long, L.
    + apply truthy_iff in Ne. now rewrite F, Ne, U.
  - intros No Nu. destruct looked as [t|] eqn:L.
    + exfalso. apply (No t). split; [reflexivity|].
      eapply embedded_lookup_long, L.
    + destruct (negb id3_only && truthy (merlin_renamer.pl_title it)
                && negb (merlin_renamer.is_uuid_like
                           (merlin_renamer.pl_title it))) eqn:C;
        [|reflexivity].
      exfalso. apply Nu.
      apply andb_true_iff in C as [C U].
      apply andb_true_iff in C as [F T].
      apply negb_true_iff in F, U. apply truthy_iff in T.
      repeat split; assumption.
Qed.

Lemma title_priority_witness :
  merlin_renamer.choose_title true false tagged_folder song_a
  = (lit "Real Title", merlin_renamer.ID3)
  /\ merlin_renamer.choose_title true false empty_folder song_a
     = (lit "Song A", merlin_renamer.PLAYLIST)
  /\ merlin_renamer.choose_title true false empty_folder untitled
     = (merlin_renamer.item_uuid untitled, merlin_renamer.UUID).
Proof.
  split; [|split].
  - apply (title_priority true false tagged_folder song_a).
    repeat split; [discriminate | simpl; lia].
  - apply (title_priority true false empty_folder song_a).
    + intros t (L & _). discriminate.
    + repeat split. discriminate.
  - apply (title_priority true false empty_folder untitled).
    + intros t (L & _). discriminate.
    + intros (_ & Ne & _). now apply Ne.
Defined.

(* ================================================================== *)
(** * Properties of the text detection *)
(* ================================================================== *)

Section TextFacts.

Import merlin_renamer.

Lemma printable_run_cons (b : byte) (t : bytes) :
  printable_run (b :: t) =
  if printable b
  then (b :: fst (printable_run t), snd (printable_run t))
  else ([], b :: t).
Proof.
  unfold printable. simpl. destruct (32 <=? Byte.to_N b)%N; [|reflexivity].
  now destruct (printable_run t).
Qed.

(** The inner loop splits the bytes into a run of printable bytes and a
    rest that does not begin with one. *)
Lemma printable_run_spec (rest : bytes) :
  rest = fst (printable_run rest) ++ snd (printable_run rest)
  /\ forallb printable (fst (printable_run rest)) = true
  /\ low_end (snd (printable_run rest)).
Proof.
  induction rest as [|b t (E & P & L)]; [simpl; auto|].
  rewrite printable_run_cons. destruct (printable b) eqn:Pb; simpl.
  - rewrite Pb, P. rewrite <- E. auto.
  - auto.
Qed.

(** It reads a printable span whole when what follows does not begin
    with a printable byte. *)
Lemma printable_run_app (run post : bytes) :
  forallb printable run = true -> low_end post ->
  printable_run (run ++ post) = (run, post).
Proof.
  intros P L. induction run as [|b r IH].
  - destruct post as [|c q]; [reflexivity|].
    simpl app. rewrite printable_run_cons. simpl in L. now rewrite L.
  - simpl in P. apply andb_true_iff in P as [Pb Pr].
    simpl app. rewrite printable_run_cons, Pb, (IH Pr). reflexivity.
Qed.

Section WithUnicode.

Variable alpha_above : N -> bool.

(** The [try] statement never ends in its last handler: a run is decoded
    one way or the other, and then kept or refused by the tests. *)
Lemma try_run_decoded (run : bytes) :
  try_run alpha_above run =
  if accepts alpha_above (decoded run)
  then Kept (decoded run) else Rejected (decoded run).
Proof.
  unfold try_run, decoded, decode_latin1.
  now destruct (decode_utf8 run).
Qed.

(** The loop appends to [text_sequences] what each run it reads adds. *)
Lemma scan_loop_runs (fuel i : nat) (rest : bytes) (acc : list text_seq) :
  scan_loop alpha_above fuel i rest acc
  = acc ++ flat_map (candidate alpha_above) (runs_loop fuel i rest).
Proof.
  revert i rest acc. induction fuel as [|f IH]; intros i rest acc.
  - destruct rest; simpl; now rewrite app_nil_r.
  - destruct rest as [|b t]; [simpl; now rewrite app_nil_r|].
    cbn [scan_loop runs_loop].
    destruct (32 <=? Byte.to_N b)%N; [|apply IH].
    destruct (printable_run (b :: t)) as [run after].
    rewrite IH. cbn [flat_map]. unfold candidate at 2. cbn [fst snd].
    rewrite try_run_decoded.
    destruct (accepts alpha_above (decoded run)).
    + now rewrite <- app_assoc.
    + reflexivity.
Qed.

End WithUnicode.

Lemma app_eq_app_le (A : Type) (x1 y1 x2 y2 : list A) :
  x1 ++ y1 = x2 ++ y2 -> length x1 <= length x2 ->
  exists d, x2 = x1 ++ d /\ y1 = d ++ y2.
Proof.
  intros E L. destruct (app_eq_app _ _ _ _ E) as (d & [[E1 E2]|[E1 E2]]).
  - subst x1. rewrite length_app in L.
    destruct d; [|simpl in L; lia].
    exists []. rewrite !app_nil_r. simpl in E2. subst. auto.
  - exists d. auto.
Qed.

(** Every run the loop reads is a printable run of the entry. *)
Lemma runs_loop_sound (fuel i : nat) (pre rest : bytes) (start : nat)
  (run : bytes) :
  length pre = i -> low_end (rev pre) \/ low_end rest ->
  In (start, run) (runs_loop fuel i rest) ->
  maximal_run (pre ++ rest) start run.
Proof.
  revert i pre rest.
  induction fuel as [|f IH]; intros i pre rest Li B I;
    [destruct rest; destruct I|].
  destruct rest as [|b t]; [destruct I|].
  cbn [runs_loop] in I. fold (printable b) in I.
  destruct (printable b) eqn:Pb.
  - destruct (printable_run_spec (b :: t)) as (E & P & L).
    destruct (printable_run (b :: t)) as [r after] eqn:R.
    cbn [fst snd] in E, P, L.
    destruct I as [I|I].
    + inversion I; subst. repeat split.
      * rewrite printable_run_cons, Pb in R. inversion R. discriminate.
      * exact P.
      * exists pre, after. rewrite <- E. repeat split; [|exact L].
        destruct B as [B|B]; [exact B|]. simpl in B. congruence.
    + rewrite E. rewrite app_assoc.
      apply (IH (i + length r)); [rewrite length_app; lia | now right|].
      exact I.
  - replace (pre ++ b :: t) with ((pre ++ [b]) ++ t)
      by (now rewrite <- app_assoc).
    apply (IH (i + 1)); [rewrite length_app; simpl; lia | |exact I].
    left. rewrite rev_app_distr. simpl. exact Pb.
Qed.

(** Every printable run of the entry is read by the loop. *)
Lemma runs_loop_complete (fuel i : nat) (pre rest : bytes) (start : nat)
  (run : bytes) :
  length rest <= fuel -> length pre = i ->
  maximal_run (pre ++ rest) start run -> i <= start ->
  In (start, run) (runs_loop fuel i rest).
Proof.
  revert i pre rest.
  assert (Z : forall pre, maximal_run (pre ++ []) start run ->
                length pre <= start -> False).
  { intros pre (Ne & _ & p & q & E & L & _) Ls.
    rewrite app_nil_r in E. apply (f_equal (@length byte)) in E.
    rewrite !length_app in E. destruct run; [congruence|]. simpl in E. lia. }
  induction fuel as [|f IH]; intros i pre rest Lf Li M Ls.
  - destruct rest; [|simpl in Lf; lia]. exfalso. apply (Z pre M). lia.
  - destruct rest as [|b t]; [exfalso; apply (Z pre M); lia|].
    destruct M as (Ne & P & p & q & E & Lp & Bl & Br).
    destruct (app_eq_app_le _ _ _ _ E) as (d & Ep & Et); [lia|].
    cbn [runs_loop]. fold (printable b).
    destruct (printable b) eqn:Pb.
    + destruct (printable_run_spec (b :: t)) as (Er & Pr & Lr).
      destruct (printable_run (b :: t)) as [r after] eqn:R.
      cbn [fst snd] in Er, Pr, Lr.
      assert (Nr : r <> []).
      { rewrite printable_run_cons, Pb in R. inversion R. discriminate. }
      destruct d as [|x d'].
      * left. simpl in Et. rewrite Et, (printable_run_app _ _ P Br) in R.
        inversion R; subst. rewrite app_nil_r. reflexivity.
      * right. rewrite Er in Et.
        destruct (app_eq_app _ _ _ _ Et) as (l & [[E1 E2]|[E1 E2]]).
        -- exfalso. subst r.
           destruct (exists_last (l := x :: d')) as (d0 & y & Ed);
             [discriminate|].
           rewrite Ep, Ed, app_assoc, rev_app_distr in Bl. simpl in Bl.
           rewrite Ed in Pr. rewrite !forallb_app in Pr.
           apply andb_true_iff in Pr as [Pr _].
           apply andb_true_iff in Pr as [_ Pr].
           simpl in Pr. rewrite Bl in Pr. discriminate.
        -- apply (IH (i + length r) (pre ++ r)).
           ++ apply (f_equal (@length byte)) in Er.
              rewrite length_app in Er. simpl in Er, Lf.
              destruct r; [congruence|]. simpl in Er. lia.
           ++ rewrite length_app. lia.
           ++ repeat split; [exact Ne | exact P|].
              exists p, q. repeat split; try assumption.
              rewrite <- app_assoc, <- Er. exact E.
           ++ rewrite <- Lp, Ep, E1, !length_app. lia.
    + destruct d as [|x d'].
      * exfalso. simpl in Et. destruct run as [|c run']; [congruence|].
        simpl in Et, P. inversion Et; subst.
        rewrite Pb in P. discriminate.
      * simpl in Et. injection Et as Ex Et'. subst x.
        apply (IH (i + 1) (pre ++ [b])).
        -- simpl in Lf. lia.
        -- rewrite length_app. simpl. lia.
        -- repeat split; [exact Ne | exact P|].
           exists p, q. repeat split; try assumption.
           rewrite <- app_assoc. exact E.
        -- rewrite <- Lp, Ep, !length_app. simpl. lia.
Qed.

(** The length of the entry is enough fuel: more changes nothing. *)
Lemma runs_loop_fuel (f g i : nat) (rest : bytes) :
  length rest <= f -> length rest <= g ->
  runs_loop f i rest = runs_loop g i rest.
Proof.
  revert g i rest. induction f as [|f IH]; intros [|g] i rest Lf Lg;
    try (destruct rest; [reflexivity | simpl in *; lia]).
  destruct rest as [|b t]; [reflexivity|].
  cbn [runs_loop]. fold (printable b).
  destruct (printable b) eqn:Pb.
  - destruct (printable_run_spec (b :: t)) as (E & _ & _).
    destruct (printable_run (b :: t)) as [r after] eqn:R.
    cbn [fst snd] in E.
    assert (Lr : length after < length (b :: t)).
    { rewrite E, length_app.
      rewrite printable_run_cons, Pb in R. inversion R. simpl. lia. }
    f_equal. apply IH; cbn [length] in *; lia.
  - apply IH; cbn [length] in *; lia.
Qed.

(** The runs are read in strictly increasing offset. *)
Lemma runs_loop_sorted (fuel i : nat) (rest : bytes) :
  Forall (le i) (map fst (runs_loop fuel i rest))
  /\ StronglySorted lt (map fst (runs_loop fuel i rest)).
Proof.
  revert i rest. induction fuel as [|f IH]; intros i rest;
    [destruct rest; split; constructor|].
  destruct rest as [|b t]; [split; constructor|].
  cbn [runs_loop]. fold (printable b).
  destruct (printable b) eqn:Pb.
  - destruct (printable_run (b :: t)) as [r after] eqn:R.
    assert (Lr : 0 < length r).
    { rewrite printable_run_cons, Pb in R. inversion R. simpl. lia. }
    destruct (IH (i + length r) after) as [B S]. simpl map. split.
    + constructor; [lia|]. eapply Forall_impl; [|exact B].
      simpl. intros; lia.
    + constructor; [exact S|]. eapply Forall_impl; [|exact B].
      simpl. intros; lia.
  - destruct (IH (i + 1) t) as [B S]. split; [|exact S].
    eapply Forall_impl; [|exact B]. simpl. intros; lia.
Qed.

Section SortFacts.

Variable A : Type.
Variable key : A -> nat.

Lemma insert_desc_nonempty (x : A) (l : list A) : insert_desc key x l <> [].
Proof. destruct l; simpl; [|destruct (key x <? key a)]; discriminate. Qed.

(** The head of the sorted list is the first element of greatest key:
    what stands before it in the list has a smaller key, and what stands
    after it has no greater key. *)
Lemma sort_desc_head (l : list A) (x : A) (r : list A) :
  sort_desc key l = x :: r ->
  exists before after,
    l = before ++ x :: after
    /\ Forall (fun y => key y < key x) before
    /\ Forall (fun y => key y <= key x) after.
Proof.
  revert x r. induction l as [|a l IH]; intros x r; [discriminate|].
  simpl. destruct (sort_desc key l) as [|y s] eqn:E.
  - destruct l as [|b l]; [|exfalso; eapply insert_desc_nonempty, E].
    simpl. intro H. inversion H; subst. exists [], []. auto.
  - destruct (IH y s eq_refl) as (l1 & l2 & -> & F1 & F2).
    simpl. destruct (key a <? key y) eqn:C.
    + apply Nat.ltb_lt in C. intro H. inversion H; subst.
      exists (a :: l1), l2. auto.
    + apply Nat.ltb_ge in C. intro H. inversion H; subst.
      exists [], (l1 ++ y :: l2). repeat split; [constructor|].
      apply Forall_app. split; [|constructor].
      * eapply Forall_impl; [|exact F1]. simpl. intros; lia.
      * exact C.
      * eapply Forall_impl; [|exact F2]. simpl. intros; lia.
Qed.

Lemma sort_desc_nil (l : list A) : sort_desc key l = [] -> l = [].
Proof.
  destruct l as [|a l]; [reflexivity|]. simpl. intro H.
  exfalso. eapply insert_desc_nonempty, H.
Qed.

End SortFacts.

Section Candidates.

Variable alpha_above : N -> bool.

Lemma accepts_iff (t : pystr) :
  accepts alpha_above t = true <-> survives alpha_above t.
Proof.
  unfold accepts, survives.
  rewrite !andb_true_iff, negb_true_iff, !Nat.leb_le. tauto.
Qed.

Lemma text_sequences_runs (entry : bytes) :
  text_sequences alpha_above entry
  = flat_map (candidate alpha_above) (runs_loop (length entry) 0 entry).
Proof. unfold text_sequences. now rewrite scan_loop_runs. Qed.

(** The candidates are the texts of the printable runs of the entry that
    pass the three tests, each with the offset of its run. *)
Lemma text_sequences_In (entry : bytes) (c : text_seq) :
  In c (text_sequences alpha_above entry) <->
  exists run,
    maximal_run entry (ts_offset c) run /\ text c = decoded run
    /\ survives alpha_above (text c).
Proof.
  rewrite text_sequences_runs, in_flat_map. split.
  - intros ([s r] & I & Ic). unfold candidate in Ic. cbn [fst snd] in Ic.
    destruct (accepts alpha_above (decoded r)) eqn:Acc; [|destruct Ic].
    destruct Ic as [<-|[]]. cbn [ts_offset text].
    exists r. split; [|split; [reflexivity | apply accepts_iff, Acc]].
    apply (@runs_loop_sound (length entry) 0 [] entry s r);
      [reflexivity | left; exact Logic.I | exact I].
  - intros (run & M & E & Sv). exists (ts_offset c, run). split.
    + apply (@runs_loop_complete (length entry) 0 [] entry);
        [lia | reflexivity | exact M | lia].
    + unfold candidate. cbn [fst snd]. rewrite <- E.
      apply accepts_iff in Sv. rewrite Sv. left. now destruct c.
Qed.

(** The candidates stand in [text_sequences] in the order of their
    offsets. *)
Lemma text_sequences_sorted (entry : bytes) :
  StronglySorted lt (map ts_offset (text_sequences alpha_above entry)).
Proof.
  rewrite text_sequences_runs.
  destruct (runs_loop_sorted (length entry) 0 entry) as [_ S].
  induction (runs_loop (length entry) 0 entry) as [|[s r] l IH];
    [constructor|].
  simpl in S. inversion S as [|? ? S' B]; subst.
  cbn [flat_map]. unfold candidate at 1. cbn [fst snd].
  destruct (accepts alpha_above (decoded r)); [|now apply IH].
  simpl. constructor; [now apply IH|].
  clear IH S S'. induction l as [|[s' r'] l IH]; [constructor|].
  simpl in B. inversion B; subst.
  cbn [flat_map]. unfold candidate at 1. cbn [fst snd].
  destruct (accepts alpha_above (decoded r')); simpl; auto.
Qed.

End Candidates.

(** The test of the program is the property [identifier_like]. *)
Lemma is_uuid_like_iff (t : pystr) :
  is_uuid_like t = true <-> identifier_like t.
Proof.
  unfold is_uuid_like, identifier_like.
  destruct t as [|c t].
  - simpl. split; [discriminate|].
    intros [(k & M)|(L & _)]; [|simpl in L; lia].
    exfalso. apply M. unfold matches_at. now destruct k.
  - cbn [truthy negb]. rewrite <- re_search_iff.
    destruct (re_search [Hex 8; Lit 45; Hex 4] (c :: t)); [tauto|].
    set (h := length (filter _ (c :: t))).
    set (n := length (c :: t)).
    destruct ((10 <? n) && (7 * n <? 10 * h)) eqn:E.
    + apply andb_true_iff in E as [E1 E2].
      apply Nat.ltb_lt in E1, E2. tauto.
    + split; [discriminate|]. intros [D|(L1 & L2)]; [discriminate|].
      apply andb_false_iff in E as [E|E]; apply Nat.ltb_ge in E; lia.
Qed.

(** An entry has one printable run at most at an offset. *)
Lemma maximal_run_unique (entry : bytes) (start : nat) (r1 r2 : bytes) :
  maximal_run entry start r1 -> maximal_run entry start r2 -> r1 = r2.
Proof.
  intros (_ & P1 & pre1 & post1 & E1 & L1 & _ & Lo1)
         (_ & P2 & pre2 & post2 & E2 & L2 & _ & Lo2).
  assert (Ep : pre1 = pre2).
  { assert (E : pre1 ++ r1 ++ post1 = pre2 ++ r2 ++ post2) by congruence.
    destruct (app_eq_app_le _ _ _ _ E) as (d & Ed & _); [lia|].
    apply (f_equal (@length byte)) in Ed as Ld.
    rewrite length_app in Ld. destruct d; [|simpl in Ld; lia].
    now rewrite app_nil_r in Ed. }
  subst pre2. rewrite E1 in E2. apply app_inv_head in E2.
  pose proof (printable_run_app r1 post1 P1 Lo1) as R1.
  pose proof (printable_run_app r2 post2 P2 Lo2) as R2.
  rewrite E2 in R1. congruence.
Qed.

End TextFacts.

(* ================================================================== *)
(** * The claims on the text detection *)
(* ================================================================== *)

(** C5, as the claim states it, fails: the program strips the white
    space at the ends of a decoded run before it tests and measures it.
    In [record_padded] the run of 19 bytes at offset 48 passes the three
    tests as it is decoded and is the longest such run, yet the playlist
    title is the other text, of 15 characters. *)
Lemma longest_unstripped_run_not_title :
  maximal_run record_padded 48 (blit "   Hi there, you   ")
  /\ survives no_table (decoded_spec (blit "   Hi there, you   "))
  /\ playlist_title_spec no_table record_padded
     = decoded_spec (blit "   Hi there, you   ")
  /\ map merlin_renamer.pl_title
       (merlin_renamer.read_merlin_playlist no_table record_padded)
     = [lit "Hello big World"].
Proof.
  split; [|split; [|split]].
  - repeat split; [discriminate|].
    exists (repeat x00 3 ++ merlin_renamer.UUID_MARKER
            ++ blit "1c74e8f3-123e-4497-964b-6720f1817071"
            ++ repeat x00 4),
           ([x00] ++ blit "Hello big World" ++ repeat x00 173).
    repeat split.
  - apply accepts_iff. vm_compute. reflexivity.
  - vm_compute. reflexivity.
  - vm_compute. reflexivity.
Qed.

(** C5, amended.  The candidates of a record are the texts of its
    printable runs, decoded and stripped of the white space at their
    ends, that are then at least eight characters long, hold at least
    three alphabetic characters and are not identifier-like; they are
    kept in the order of their offsets.  Without candidate the playlist
    title is the empty string; otherwise it is the text of the longest
    candidate, and of the first one in the record among those of that
    length. *)
Theorem longest_candidate_first (alpha_above : N -> bool) (entry : bytes)
  (uuid_offsets : list merlin_renamer.uuid_info) :
  let cands := text_sequences alpha_above entry in
  let title :=
    merlin_renamer.extract_title_from_entry alpha_above entry uuid_offsets in
  let len := fun x => length (merlin_renamer.text x) in
  (forall c, In c cands <->
     exists run,
       maximal_run entry (merlin_renamer.ts_offset c) run
       /\ merlin_renamer.text c = decoded run
       /\ survives alpha_above (merlin_renamer.text c))
  /\ StronglySorted lt (map merlin_renamer.ts_offset cands)
  /\ (cands = [] -> title = [])
  /\ (cands <> [] ->
      exists before c after,
        cands = before ++ c :: after
        /\ title = merlin_renamer.text c
        /\ Forall (fun x => len x < len c) before
        /\ Forall (fun x => len x <= len c) after).
Proof.
  intros cands title len. repeat split.
  - apply text_sequences_In.
  - apply text_sequences_In.
  - apply text_sequences_sorted.
  - intro E. subst title. unfold merlin_renamer.extract_title_from_entry.
    fold (text_sequences alpha_above entry). fold cands. now rewrite E.
  - intro Ne. subst title. unfold merlin_renamer.extract_title_from_entry.
    fold (text_sequences alpha_above entry). fold cands.
    destruct (sort_desc (fun x => length (merlin_renamer.text x)) cands)
      as [|x r] eqn:E.
    + apply sort_desc_nil in E. contradiction.
    + destruct (sort_desc_head _ _ E) as (l1 & l2 & El & F1 & F2).
      exists l1, x, l2. auto.
Qed.

Lemma longest_candidate_first_witness :
  exists before c after,
    text_sequences no_table record_padded = before ++ c :: after
    /\ merlin_renamer.extract_title_from_entry no_table record_padded []
       = merlin_renamer.text c
    /\ Forall (fun x => length (merlin_renamer.text x)
                        < length (merlin_renamer.text c)) before
    /\ Forall (fun x => length (merlin_renamer.text x)
                        <= length (merlin_renamer.text c)) after.
Proof.
  apply (longest_candidate_first no_table record_padded []).
  vm_compute. discriminate.
Defined.

(** C6, as the claim states it, fails: a record with an identifier and
    the text [deadbeef-song title], which holds eight hexadecimal digits
    followed by a hyphen, yields an entry whose playlist title is that
    text. *)
Lemma hex_prefixed_title_selected :
  map merlin_renamer.pl_title
    (merlin_renamer.read_merlin_playlist no_table record_hex_title)
  = [lit "deadbeef-song title"]
  /\ identifier_like_spec (lit "deadbeef-song title").
Proof.
  split; [vm_compute; reflexivity|].
  left. exists 0. vm_compute. discriminate.
Qed.

(** C6, amended.  The playlist title of a record is never
    identifier-like, where identifier-like is what the program tests
    with [is_uuid_like]: the text holds eight hexadecimal digits, a
    hyphen and four hexadecimal digits in a row, or it is longer than ten
    characters and more than 70% of them are hexadecimal digits or
    hyphens. *)
Theorem title_not_identifier_like (alpha_above : N -> bool) (entry : bytes)
  (uuid_offsets : list merlin_renamer.uuid_info) :
  let title :=
    merlin_renamer.extract_title_from_entry alpha_above entry uuid_offsets in
  merlin_renamer.is_uuid_like title = false
  /\ (merlin_renamer.is_uuid_like title = true <-> identifier_like title).
Proof.
  intro title. split; [|apply is_uuid_like_iff].
  subst title. unfold merlin_renamer.extract_title_from_entry.
  fold (text_sequences alpha_above entry).
  destruct (sort_desc (fun x => length (merlin_renamer.text x))
              (text_sequences alpha_above entry)) as [|x r] eqn:E;
    [reflexivity|].
  destruct (sort_desc_head _ _ E) as (l1 & l2 & El & _).
  assert (I : In x (text_sequences alpha_above entry))
    by (rewrite El; apply in_or_app; right; now left).
  apply text_sequences_In in I as (run & _ & _ & _ & _ & U). exact U.
Qed.

(** C10, as the claim states it, fails: the text that the fallback
    gives is stripped of the white space at its ends before the three
    tests.  The run [run_latin1_padded] is not UTF-8; as Latin-1 it is
    the eight characters of two spaces, [caf], e acute and two spaces,
    which pass the three tests; yet the record has no candidate and its
    playlist title is empty. *)
Lemma latin1_text_stripped_before_tests :
  maximal_run record_latin1_padded 48 run_latin1_padded
  /\ decode_utf8 run_latin1_padded = None
  /\ decode_latin1 run_latin1_padded
     = Some (lit "  caf" ++ [233%N] ++ lit "  ")
  /\ survives no_table (lit "  caf" ++ [233%N] ++ lit "  ")
  /\ text_sequences no_table record_latin1_padded = []
  /\ map merlin_renamer.pl_title
       (merlin_renamer.read_merlin_playlist no_table record_latin1_padded)
     = [[]].
Proof.
  split; [|split; [|split; [|split; [|split]]]];
    try (vm_compute; reflexivity).
  - repeat split; [discriminate|].
    exists (repeat x00 3 ++ merlin_renamer.UUID_MARKER
            ++ blit "1c74e8f3-123e-4497-964b-6720f1817071"
            ++ repeat x00 4),
           (repeat x00 200).
    repeat split.
  - apply accepts_iff. vm_compute. reflexivity.
Qed.

(** C10, amended.  A printable run of a record that is not UTF-8 is
    never dropped: it is decoded as Latin-1, one character for each
    byte, and the text, stripped of the white space at its ends, is kept
    or refused by the three tests alone.  The record has no other
    candidate at the offset of the run, and it has this one exactly when
    the stripped text passes the three tests. *)
Theorem latin1_fallback_total (alpha_above : N -> bool) (entry : bytes)
  (start : nat) (run : bytes) :
  maximal_run entry start run ->
  decode_utf8 run = None ->
  let stripped := strip isspace (map Byte.to_N run) in
  merlin_renamer.try_run alpha_above run
  = (if merlin_renamer.accepts alpha_above stripped
     then merlin_renamer.Kept stripped
     else merlin_renamer.Rejected stripped)
  /\ (forall c,
        In c (text_sequences alpha_above entry) ->
        merlin_renamer.ts_offset c = start ->
        merlin_renamer.text c = stripped)
  /\ (In {| merlin_renamer.ts_offset := start;
            merlin_renamer.text := stripped |}
         (text_sequences alpha_above entry)
      <-> survives alpha_above stripped).
Proof.
  intros M U stripped.
  assert (D : decoded run = stripped)
    by (unfold decoded; now rewrite U).
  split; [|split].
  - rewrite try_run_decoded, D. reflexivity.
  - intros c I O. apply text_sequences_In in I as (run' & M' & T & _).
    rewrite O in M'. rewrite (maximal_run_unique M M') in D.
    now rewrite T.
  - rewrite text_sequences_In.
    cbn [merlin_renamer.ts_offset merlin_renamer.text]. split.
    + intros (run' & _ & _ & Sv). exact Sv.
    + intro Sv. exists run. auto.
Qed.

Lemma latin1_fallback_total_witness :
  merlin_renamer.try_run no_table run_latin1
  = (if merlin_renamer.accepts no_table
          (strip isspace (map Byte.to_N run_latin1))
     then merlin_renamer.Kept (strip isspace (map Byte.to_N run_latin1))
     else merlin_renamer.Rejected
            (strip isspace (map Byte.to_N run_latin1)))
  /\ (forall c,
        In c (text_sequences no_table record_latin1) ->
        merlin_renamer.ts_offset c = 48 ->
        merlin_renamer.text c = strip isspace (map Byte.to_N run_latin1))
  /\ (In {| merlin_renamer.ts_offset := 48;
            merlin_renamer.text :=
              strip isspace (map Byte.to_N run_latin1) |}
         (text_sequences no_table record_latin1)
      <-> survives no_table (strip isspace (map Byte.to_N run_latin1))).
Proof.
  apply (@latin1_fallback_total no_table record_latin1 48 run_latin1).
  - repeat split; [discriminate|].
    exists (repeat x00 3 ++ merlin_renamer.UUID_MARKER
            ++ blit "1c74e8f3-123e-4497-964b-6720f1817071"
            ++ repeat x00 4),
           (repeat x00 195).
    repeat split.
  - vm_compute. reflexivity.
Defined.

(* ================================================================== *)
(** * Further properties of [sanitize_filename] *)
(* ================================================================== *)

Section StripEnds.

Variable p : N -> bool.

(** What [lstrip] leaves does not begin with a character to remove. *)
Lemma lstrip_head (s : pystr) :
  match lstrip p s with [] => True | c :: _ => p c = false end.
Proof.
  induction s as [|c t IH]; simpl; [exact I|].
  destruct (p c) eqn:E; [exact IH | exact E].
Qed.

(** [rstrip] keeps a prefix. *)
Lemma rstrip_prefix (s : pystr) : exists suf, s = rstrip p s ++ suf.
Proof.
  unfold rstrip. destruct (lstrip_split p (rev s)) as (pre & E & _).
  exists (rev pre).
  rewrite <- rev_app_distr, <- E. now rewrite rev_involutive.
Qed.

(** What [strip] leaves does not begin with a character to remove. *)
Lemma strip_head (s : pystr) :
  match strip p s with [] => True | c :: _ => p c = false end.
Proof.
  unfold strip. pose proof (lstrip_head s) as H.
  destruct (rstrip_prefix (lstrip p s)) as (suf & E).
  destruct (rstrip p (lstrip p s)) as [|c r]; [exact I|].
  rewrite E in H. exact H.
Qed.

(** What [strip] leaves does not end with a character to remove. *)
Lemma strip_last (s : pystr) (d : N) :
  strip p s <> [] -> p (last (strip p s) d) = false.
Proof.
  unfold strip, rstrip. set (l := lstrip p s).
  pose proof (lstrip_head (rev l)) as H. intro Ne.
  destruct (lstrip p (rev l)) as [|c r]; [now elim Ne|].
  simpl rev. now rewrite last_last.
Qed.

End StripEnds.

Section SanitizeMore.

Import merlin_renamer.

(** The truncation keeps a prefix. *)
Lemma truncate_loop_prefix (fuel max_length : nat) (s r : pystr) :
  truncate_loop fuel max_length s = Some r -> exists suf, s = r ++ suf.
Proof.
  revert s. induction fuel as [|f IH]; intros s; simpl;
    destruct (encode_utf8 s) as [b|]; try discriminate;
    destruct ((max_length <? length b) && truthy s);
    try (intro H; inversion H; exists []; now rewrite app_nil_r).
  intro H. destruct (IH _ H) as (suf & E).
  destruct s as [|a t] using rev_ind.
  - exists []. simpl in E. destruct r; [reflexivity | discriminate].
  - rewrite removelast_last in E. exists (suf ++ [a]).
    now rewrite E, <- app_assoc.
Qed.

Lemma trimmed_head (title : pystr) :
  match trimmed title with
  | [] => True
  | c :: _ => char_in (lit "._-") c = false
  end.
Proof. unfold trimmed. apply strip_head. Qed.

End SanitizeMore.

(** [sanitize_filename] returns on every title that can be encoded. *)
Lemma sanitize_defined (title : pystr) (max_length : nat) :
  forallb encodable title = true ->
  exists out, merlin_renamer.sanitize_filename title max_length = Some out.
Proof.
  intro H. rewrite sanitize_filename_unfold.
  destruct (negb (truthy title)); [eauto|].
  destruct (truncate_loop_defined (length (trimmed title)) max_length
              (trimmed title)) as (r & ->); [|eauto].
  apply forallb_forall, Forall_forall, trimmed_Forall.
  now apply substituted_encodable.
Qed.

(** X1.  What [sanitize_filename] returns can be encoded, and in at most
    [max_length] bytes unless it is the literal [unnamed]; with a budget
    of seven bytes or more (60 by default) the bound always holds. *)
Theorem sanitize_within_budget (title out : pystr) (max_length : nat) :
  merlin_renamer.sanitize_filename title max_length = Some out ->
  exists b,
    encode_utf8 out = Some b
    /\ (length b <= max_length \/ out = lit "unnamed")
    /\ (7 <= max_length -> length b <= max_length).
Proof.
  intro H. destruct (sanitize_filename_inv _ _ H) as [-> | (_ & T)].
  - exists (blit "unnamed"). repeat split; auto.
  - destruct (truncate_loop_exit _ _ (Nat.le_refl _) T) as (b & E & L).
    exists b. auto.
Qed.

Lemma sanitize_within_budget_witness :
  exists b,
    encode_utf8 (repeat 233%N 30) = Some b
    /\ (length b <= 60 \/ repeat 233%N 30 = lit "unnamed")
    /\ (7 <= 60 -> length b <= 60).
Proof.
  apply (sanitize_within_budget (repeat 233%N 40)).
  vm_compute. reflexivity.
Defined.

(** X2.  What [sanitize_filename] returns is never empty, holds neither
    two spaces nor two underscores in a row, and does not begin with a
    period, an underscore or a hyphen. *)
Theorem sanitize_shape (title out : pystr) (max_length : nat) :
  merlin_renamer.sanitize_filename title max_length = Some out ->
  out <> []
  /\ has_double 32 out = false
  /\ has_double 95 out = false
  /\ exists c rest, out = c :: rest /\ char_in (lit "._-") c = false.
Proof.
  intro H. destruct (sanitize_filename_inv _ _ H) as [-> | (T & Tr)].
  - repeat split; [discriminate|]. now exists 117%N, (lit "nnamed").
  - pose proof (truncate_loop_infix _ _ _ Tr) as I.
    destruct (trimmed_no_double title) as [D32 D95].
    destruct (truncate_loop_prefix _ _ _ Tr) as (suf & E).
    pose proof (trimmed_head title) as Hd.
    destruct out as [|c rest]; [discriminate|].
    repeat split; [discriminate | | |].
    + exact (@has_double_infix 32 _ _ I D32).
    + exact (@has_double_infix 95 _ _ I D95).
    + exists c, rest. split; [reflexivity|]. now rewrite E in Hd.
Qed.

Lemma sanitize_shape_witness :
  lit "a_b" <> []
  /\ has_double 32 (lit "a_b") = false
  /\ has_double 95 (lit "a_b") = false
  /\ exists c rest, lit "a_b" = c :: rest /\ char_in (lit "._-") c = false.
Proof. apply (sanitize_shape (lit "..a//b") 60). reflexivity. Defined.

(** A clean title that fits the byte budget is a fixed point. *)
Lemma sanitize_fixed (title : pystr) (b : bytes)
  (max_length : nat) :
  title <> [] ->
  Forall (fun c => merlin_renamer.invalid_chars c = false) title ->
  has_double 32 title = false ->
  has_double 95 title = false ->
  clean_ends title = true ->
  encode_utf8 title = Some b -> length b <= max_length ->
  merlin_renamer.sanitize_filename title max_length = Some title.
Proof.
  intros Ne C D32 D95 Ce E L. apply truthy_iff in Ne.
  rewrite sanitize_filename_unfold, Ne. cbn [negb]. unfold trimmed.
  rewrite (substitution_fixed C), (collapse_fixed _ _ D32),
    (collapse_fixed _ _ D95).
  apply trim_fixed_iff in Ce. rewrite Ce.
  now rewrite (truncate_loop_fixed _ _ E L), Ne.
Qed.

(** X3.  A title is returned as it is when it is not empty, holds no
    invalid character and no two spaces or two underscores in a row,
    neither begins nor ends with white space, period, underscore or
    hyphen, and fits the byte budget: letters with accents, apostrophes
    and every other character are kept. *)
Theorem sanitize_keeps_clean_title (title : pystr) (b : bytes)
  (max_length : nat) :
  title <> [] ->
  Forall (fun c => merlin_renamer.invalid_chars c = false) title ->
  has_double 32 title = false ->
  has_double 95 title = false ->
  clean_ends title = true ->
  encode_utf8 title = Some b -> length b <= max_length ->
  merlin_renamer.sanitize_filename title max_length = Some title.
Proof. apply sanitize_fixed. Qed.

Lemma sanitize_keeps_clean_title_witness :
  merlin_renamer.sanitize_filename cafe_d_ete 60 = Some cafe_d_ete.
Proof.
  apply (sanitize_keeps_clean_title
           (b := [x43; x61; x66; xc3; xa9; x20; x64; x27; xc3; xa9; x74;
                  xc3; xa9])).
  - discriminate.
  - repeat constructor.
  - reflexivity.
  - reflexivity.
  - reflexivity.
  - reflexivity.
  - simpl. lia.
Defined.

(** X4.  [sanitize_filename] invents no character: what it returns is the
    literal [unnamed], or every character of it is an underscore or a
    character of the title. *)
Theorem sanitize_invents_nothing (title out : pystr) (max_length : nat) :
  merlin_renamer.sanitize_filename title max_length = Some out ->
  out = lit "unnamed" \/ forall c, In c out -> c = 95%N \/ In c title.
Proof.
  intro H. destruct (sanitize_filename_inv _ _ H) as [-> | (_ & T)];
    [now left | right].
  apply Forall_forall.
  eapply infix_Forall; [eapply truncate_loop_infix, T|].
  apply trimmed_Forall, Forall_map, Forall_forall. intros c Hc.
  destruct (merlin_renamer.invalid_chars c); auto.
Qed.

Lemma sanitize_invents_nothing_witness :
  lit "a_b" = lit "unnamed"
  \/ forall c, In c (lit "a_b") -> c = 95%N \/ In c (lit "a/b").
Proof. apply (sanitize_invents_nothing (lit "a/b") 60). reflexivity. Defined.

(* ================================================================== *)
(** * The older [sanitize_filename] *)
(* ================================================================== *)

Section LegacySanitize.

Variable alnum_above : N -> bool.

(** The two copies of the truncation loop are the same function. *)
Lemma legacy_truncate_loop_eq (fuel max_length : nat) (s : pystr) :
  rename_from_id3.truncate_loop fuel max_length s
  = merlin_renamer.truncate_loop fuel max_length s.
Proof.
  reflexivity.
Qed.

Lemma legacy_sanitize_unfold (title : pystr) (max_length : nat) :
  rename_from_id3.sanitize_filename alnum_above title max_length =
  if negb (truthy title) then Some (lit "unnamed")
  else
    let safe :=
      trim_collapse
        (map (fun c => if legacy_keeps alnum_above c then c else 95%N)
           title) in
    match merlin_renamer.truncate_loop (length safe) max_length safe with
    | None => None
    | Some safe => Some (if truthy safe then safe else lit "unnamed")
    end.
Proof.
  unfold rename_from_id3.sanitize_filename.
  destruct (negb (truthy title)); [reflexivity|].
  cbv zeta. rewrite legacy_truncate_loop_eq. reflexivity.
Qed.

Lemma canonical_sanitize_unfold (title : pystr) (max_length : nat) :
  merlin_renamer.sanitize_filename title max_length =
  if negb (truthy title) then Some (lit "unnamed")
  else
    let safe :=
      trim_collapse
        (map (fun c => if merlin_renamer.invalid_chars c then 95%N else c)
           title) in
    match merlin_renamer.truncate_loop (length safe) max_length safe with
    | None => None
    | Some safe => Some (if truthy safe then safe else lit "unnamed")
    end.
Proof. reflexivity. Qed.

Lemma trim_collapse_Forall (P : N -> Prop) (safe : pystr) :
  Forall P safe -> Forall P (trim_collapse safe).
Proof.
  intro H. unfold trim_collapse.
  eapply infix_Forall; [apply strip_infix|].
  eapply infix_Forall; [apply strip_infix|].
  now apply collapse_loop_Forall, collapse_loop_Forall.
Qed.

(** A character the older function keeps is none of the forbidden
    characters and no control character. *)
Lemma legacy_keeps_valid (c : N) :
  legacy_keeps alnum_above c = true ->
  merlin_renamer.invalid_chars c = false.
Proof.
  unfold legacy_keeps, isalnum, latin1_isalnum, latin1_isalpha,
    merlin_renamer.invalid_chars, between.
  destruct (N.ltb_spec c 0x100) as [L|L].
  - intro H. apply not_true_iff_false. intro I.
    apply orb_true_iff in I as [I|I].
    + unfold char_in in I. cbn [existsb] in I.
      repeat (apply orb_true_iff in I as [I|I];
              [apply N.eqb_eq in I; subst c; vm_compute in H;
               discriminate H|]).
      discriminate I.
    + apply andb_true_iff in I as [_ I]. apply N.leb_le in I.
      repeat (apply orb_true_iff in H as [H|H]);
        try (apply andb_true_iff in H as [H1 H2]; apply N.leb_le in H1; lia);
        try (apply N.eqb_eq in H; lia);
        try (apply N.eqb_eq in H; subst c; vm_compute in I; apply I;
             reflexivity).
      discriminate H.
  - intros _. apply orb_false_iff. split.
    + unfold char_in. cbn [existsb].
      repeat (apply orb_false_iff; split;
              [apply N.eqb_neq; lia|]).
      reflexivity.
    + apply andb_false_iff. right. apply N.leb_gt. lia.
Qed.

End LegacySanitize.

(** X5.  Every character of what the older [sanitize_filename] returns is
    alphanumeric or one of space, underscore, hyphen and period; so it is
    none of the nine forbidden characters and no control character
    either. *)
Theorem legacy_sanitize_alphabet (alnum_above : N -> bool)
  (title out : pystr) (max_length : nat) (c : N) :
  rename_from_id3.sanitize_filename alnum_above title max_length = Some out ->
  In c out ->
  legacy_keeps alnum_above c = true /\ ~ In c forbidden /\ ~ is_control c.
Proof.
  intros H Hc.
  assert (K : legacy_keeps alnum_above c = true).
  { revert c Hc. apply Forall_forall.
    rewrite legacy_sanitize_unfold in H.
    destruct (negb (truthy title)).
    - inversion H. repeat constructor.
    - cbv zeta in H.
      destruct (merlin_renamer.truncate_loop _ _ _) as [r|] eqn:T;
        [|discriminate].
      destruct (truthy r); inversion H; subst; [|repeat constructor].
      eapply infix_Forall; [eapply truncate_loop_infix, T|].
      apply trim_collapse_Forall, Forall_map, Forall_forall. intros d _.
      destruct (legacy_keeps alnum_above d) eqn:E; [exact E | reflexivity]. }
  split; [exact K|]. now apply invalid_chars_spec, legacy_keeps_valid with alnum_above.
Qed.

Lemma legacy_sanitize_alphabet_witness :
  legacy_keeps no_table 95%N = true
  /\ ~ In 95%N forbidden /\ ~ is_control 95%N.
Proof.
  apply (@legacy_sanitize_alphabet no_table cafe_d_ete cafe_d_ete_legacy 60).
  - reflexivity.
  - simpl. tauto.
Defined.

(** X6.  On a title made of characters the older function keeps
    (alphanumeric, space, underscore, hyphen, period) the two
    [sanitize_filename] functions return the same. *)
Theorem sanitize_variants_agree (alnum_above : N -> bool) (title : pystr)
  (max_length : nat) :
  Forall (fun c => legacy_keeps alnum_above c = true) title ->
  rename_from_id3.sanitize_filename alnum_above title max_length
  = merlin_renamer.sanitize_filename title max_length.
Proof.
  intro H. rewrite legacy_sanitize_unfold, canonical_sanitize_unfold.
  replace (map (fun c => if legacy_keeps alnum_above c then c else 95%N)
             title) with title.
  - replace (map (fun c => if merlin_renamer.invalid_chars c then 95%N
                           else c) title) with title; [reflexivity|].
    symmetry. apply substitution_fixed.
    eapply Forall_impl; [|exact H]. apply legacy_keeps_valid.
  - induction H as [|c t Hc _ IH]; simpl; [reflexivity|].
    now rewrite Hc, <- IH.
Qed.

Lemma sanitize_variants_agree_witness :
  rename_from_id3.sanitize_filename no_table (lit "My  Song_.") 60
  = merlin_renamer.sanitize_filename (lit "My  Song_.") 60.
Proof. apply sanitize_variants_agree. repeat constructor. Defined.

(* ================================================================== *)
(** * Further properties of the record scanner *)
(* ================================================================== *)

Section RegexMore.

Lemma eat_hex_firstn (n k : nat) (s t : list N) :
  eat_hex n s = Some t -> n <= k ->
  eat_hex n (firstn k s) = Some (firstn (k - n) t).
Proof.
  revert k s. induction n as [|n IH]; intros k s; simpl.
  - intros H _. inversion H. now rewrite Nat.sub_0_r.
  - destruct s as [|c r]; [discriminate|].
    destruct (is_hex c) eqn:Hc; [|discriminate].
    intros H L. destruct k as [|k]; [lia|].
    simpl. rewrite Hc. apply IH; [exact H | lia].
Qed.

(** A match only reads the characters it consumes. *)
Lemma re_match_firstn (p : list atom) (k : nat) (s t : list N) :
  re_match p s = Some t -> pat_len p <= k ->
  re_match p (firstn k s) = Some (firstn (k - pat_len p) t).
Proof.
  revert k s. induction p as [|[n|c] p IH]; intros k s; simpl.
  - intros H _. inversion H. now rewrite Nat.sub_0_r.
  - destruct (eat_hex n s) as [r|] eqn:E; [|discriminate].
    intros H L. rewrite (@eat_hex_firstn n k s r E) by lia.
    rewrite (IH _ _ H) by lia. f_equal. f_equal. lia.
  - destruct s as [|d r]; [discriminate|].
    destruct (d =? c)%N eqn:Ed; [|discriminate].
    intros H L. destruct k as [|k]; [lia|].
    simpl. rewrite Ed. apply IH; [exact H | lia].
Qed.

(** A match of a pattern begins with a match of any prefix of it. *)
Lemma re_match_app (p q : list atom) (s t : list N) :
  re_match (p ++ q) s = Some t -> exists r, re_match p s = Some r.
Proof.
  revert s. induction p as [|[n|c] p IH]; intros s; simpl.
  - eauto.
  - destruct (eat_hex n s); [apply IH | discriminate].
  - destruct s as [|d r]; [discriminate|].
    destruct (d =? c)%N; [apply IH | discriminate].
Qed.

(** A match at the head is found by [re.search]. *)
Lemma re_search_head (p : list atom) (s : list N) :
  re_match p s <> None -> re_search p s = true.
Proof.
  intro H. destruct s; simpl; revert H; destruct (re_match p _);
    congruence.
Qed.

Section FindIterMore.

Variable p : list atom.
Hypothesis p_positive : 0 < pat_len p.

(** The matches lie inside the subject and do not overlap, so there are
    at most as many as the subject has room for. *)
Lemma re_finditer_apart (fuel pos : nat) (s : list N) :
  Forall (fun k => pos <= k /\ k + pat_len p <= pos + length s)
         (map fst (re_finditer fuel p pos s))
  /\ StronglySorted (fun a b => a + pat_len p <= b)
       (map fst (re_finditer fuel p pos s))
  /\ pat_len p * length (re_finditer fuel p pos s) <= length s.
Proof.
  revert pos s. induction fuel as [|f IH]; intros pos s.
  - repeat split; try constructor. simpl. lia.
  - destruct s as [|a t]; [repeat split; try constructor; simpl; lia|].
    cbn [re_finditer].
    destruct (re_match p (a :: t)) as [r|] eqn:E.
    + destruct (re_match_split _ _ E) as (m & Em & Lm).
      assert (Ls : pat_len p <= length (a :: t))
        by (rewrite Em, length_app; lia).
      destruct (IH (pos + pat_len p) (skipn (pat_len p) (a :: t)))
        as (B & S & C).
      rewrite length_skipn in B, C. cbn [map fst length] in *.
      repeat split.
      * constructor; [lia|]. eapply Forall_impl; [|exact B].
        cbn beta. intros k Hk. lia.
      * constructor; [exact S|]. eapply Forall_impl; [|exact B].
        cbn beta. intros k Hk. lia.
      * rewrite Nat.mul_succ_r. lia.
    + destruct (IH (S pos) t) as (B & S & C). repeat split.
      * eapply Forall_impl; [|exact B]. cbn beta.
        intros k Hk. cbn [length]. lia.
      * exact S.
      * cbn [length]. lia.
Qed.

(** The first match reported is the leftmost match of the pattern. *)
Lemma re_finditer_leftmost (fuel pos : nat) (s : list N) (k0 : nat)
  (m0 : list N) (rest : list (nat * list N)) :
  re_finditer fuel p pos s = (k0, m0) :: rest ->
  forall k, matches_at p s k -> k0 <= pos + k.
Proof.
  unfold matches_at.
  revert pos s. induction fuel as [|f IH]; intros pos s; [discriminate|].
  destruct s as [|a t]; [discriminate|].
  cbn [re_finditer]. destruct (re_match p (a :: t)) eqn:E.
  - intro H. inversion H. intros; lia.
  - intros H k M. destruct k as [|k]; [simpl in M; congruence|].
    simpl in M. specialize (IH _ _ H k M). lia.
Qed.

End FindIterMore.

End RegexMore.

Section ScannerMore.

Import merlin_renamer.

Lemma str_eqb_refl (s : pystr) : str_eqb s s = true.
Proof. induction s; simpl; [reflexivity|]. now rewrite N.eqb_refl. Qed.

Lemma skipn_map_to_N (k : nat) (entry : bytes) :
  skipn k (map Byte.to_N entry) = map Byte.to_N (skipn k entry).
Proof. apply skipn_map. Qed.

(** When the pattern matches at offset [k], the two bytes there are
    hexadecimal digits. *)
Lemma match_starts_with_hex (entry : bytes) (k : nat) :
  matches_at UUID_PATTERN (map Byte.to_N entry) k ->
  exists b0 b1 r,
    skipn k entry = b0 :: b1 :: r
    /\ is_hex (Byte.to_N b0) = true /\ is_hex (Byte.to_N b1) = true.
Proof.
  unfold matches_at. rewrite skipn_map.
  destruct (skipn k entry) as [|b0 [|b1 r]]; simpl.
  - congruence.
  - destruct (is_hex (Byte.to_N b0)); congruence.
  - destruct (is_hex (Byte.to_N b0)) eqn:H0; [|congruence].
    destruct (is_hex (Byte.to_N b1)) eqn:H1; [|congruence].
    intros _. now exists b0, b1, r.
Qed.

(** The marker read at offset [m] of the entry. *)
Lemma marker_at (entry : bytes) (m : nat) :
  slice entry m (m + 5) = UUID_MARKER ->
  exists r, skipn m entry = x4c :: x61 :: x94 :: x69 :: x24 :: r.
Proof.
  unfold slice. replace (m + 5 - m) with 5 by lia.
  destruct (skipn m entry) as [|a [|b [|c [|d [|e r]]]]]; try discriminate.
  simpl. intro H. inversion H. now exists r.
Qed.

End ScannerMore.

(** The shape of an identifier that [find_uuids_in_entry] reports. *)
Lemma find_uuids_shape (entry : bytes) (u : merlin_renamer.uuid_info) :
  In u (merlin_renamer.find_uuids_in_entry entry) ->
  merlin_renamer.uuid u
  = map Byte.to_N
      (slice entry (merlin_renamer.offset u) (merlin_renamer.offset u + 36))
  /\ length (merlin_renamer.uuid u) = 36
  /\ merlin_renamer.offset u + 36 <= length entry
  /\ merlin_renamer.is_uuid_like (merlin_renamer.uuid u) = true.
Proof.
  intro I. destruct (find_uuids_In _ _ I) as (M & E).
  unfold matches_at in M.
  destruct (re_match merlin_renamer.UUID_PATTERN
              (skipn (merlin_renamer.offset u) (map Byte.to_N entry)))
    as [t|] eqn:R; [clear M | congruence].
  destruct (re_match_split _ _ R) as (m & Em & Lm).
  assert (Eu : merlin_renamer.uuid u = m).
  { rewrite E, Em. change 36 with (pat_len merlin_renamer.UUID_PATTERN).
    rewrite <- Lm. rewrite firstn_app, Nat.sub_diag, firstn_all.
    simpl. apply app_nil_r. }
  assert (Lk : merlin_renamer.offset u + 36 <= length entry).
  { apply (f_equal (@length N)) in Em.
    rewrite length_skipn, length_map, length_app, Lm in Em.
    change (pat_len merlin_renamer.UUID_PATTERN) with 36 in Em. lia. }
  repeat split.
  - rewrite E. unfold slice.
    replace (merlin_renamer.offset u + 36 - merlin_renamer.offset u)
      with 36 by lia.
    now rewrite skipn_map, firstn_map.
  - rewrite Eu. exact Lm.
  - exact Lk.
  - unfold merlin_renamer.is_uuid_like.
    assert (Lu : length (merlin_renamer.uuid u) = 36)
      by (rewrite Eu; exact Lm).
    destruct (merlin_renamer.uuid u) as [|c r] eqn:U;
      [discriminate Lu|].
    cbn [truthy negb]. rewrite E.
    change merlin_renamer.UUID_PATTERN
      with ([Hex 8; Lit 45; Hex 4]
            ++ [Lit 45; Hex 4; Lit 45; Hex 4; Lit 45; Hex 12]) in R.
    destruct (@re_match_app _ _ _ _ R) as (r' & R').
    assert (F : re_match [Hex 8; Lit 45; Hex 4]
                  (firstn 36 (skipn (merlin_renamer.offset u)
                                (map Byte.to_N entry))) <> None).
    { rewrite (@re_match_firstn _ 36 _ _ R') by (simpl; lia). discriminate. }
    now rewrite (@re_search_head _ _ F).
Qed.

(** X7.  Every identifier that [find_uuids_in_entry] reports is the 36
    bytes that the entry holds at the reported offset, lies inside the
    entry, and is identifier-like for [is_uuid_like]. *)
Theorem found_uuid_shape (entry : bytes) (u : merlin_renamer.uuid_info) :
  In u (merlin_renamer.find_uuids_in_entry entry) ->
  merlin_renamer.uuid u
  = map Byte.to_N
      (slice entry (merlin_renamer.offset u) (merlin_renamer.offset u + 36))
  /\ length (merlin_renamer.uuid u) = 36
  /\ merlin_renamer.offset u + 36 <= length entry
  /\ merlin_renamer.is_uuid_like (merlin_renamer.uuid u) = true.
Proof. apply find_uuids_shape. Qed.

Lemma found_uuid_shape_witness :
  merlin_renamer.uuid uuid0
  = map Byte.to_N
      (slice record0 (merlin_renamer.offset uuid0)
         (merlin_renamer.offset uuid0 + 36))
  /\ length (merlin_renamer.uuid uuid0) = 36
  /\ merlin_renamer.offset uuid0 + 36 <= length record0
  /\ merlin_renamer.is_uuid_like (merlin_renamer.uuid uuid0) = true.
Proof. apply found_uuid_shape. vm_compute. left. reflexivity. Defined.

(** X8.  For an identifier reported at offset [k], [has_marker] is true
    exactly when [k >= 5] and the five bytes just before the identifier
    are the marker: of the five offsets the loop visits only [k - 5]
    can hold it, because the identifier begins with two hexadecimal
    digits. *)
Theorem marker_immediately_before (entry : bytes)
  (u : merlin_renamer.uuid_info) :
  In u (merlin_renamer.find_uuids_in_entry entry) ->
  (merlin_renamer.has_marker u = true <->
   5 <= merlin_renamer.offset u
   /\ slice entry (merlin_renamer.offset u - 5) (merlin_renamer.offset u)
      = merlin_renamer.UUID_MARKER).
Proof.
  intro I. destruct (find_uuids_In _ _ I) as (M & _).
  destruct (@match_starts_with_hex _ _ M) as (b0 & b1 & r & Ek & H0 & H1).
  unfold merlin_renamer.find_uuids_in_entry in I.
  apply in_map_iff in I as ([k t] & <- & _).
  cbn [merlin_renamer.has_marker merlin_renamer.offset] in *.
  rewrite marker_loop_iff. unfold range. split.
  - intros (m & Hm & S). apply in_seq in Hm.
    change (length merlin_renamer.UUID_MARKER) with 5 in S.
    destruct (@marker_at _ _ S) as (r' & Er).
    assert (J : k = m + 5 \/ k = m + 4 \/ k = m + 3 \/ k = m + 2
                \/ k = m + 1) by lia.
    assert (Es : forall j, skipn (m + j) entry = skipn j (skipn m entry))
      by (intro j; now rewrite skipn_skipn, Nat.add_comm).
    destruct J as [->|[->|[->|[->| ->]]]].
    + split; [lia|]. now replace (m + 5 - 5) with m by lia.
    + rewrite Es, Er in Ek. simpl in Ek. inversion Ek; subst.
      discriminate H0.
    + rewrite Es, Er in Ek. simpl in Ek. inversion Ek; subst.
      discriminate H0.
    + rewrite Es, Er in Ek. simpl in Ek. inversion Ek; subst.
      discriminate H0.
    + rewrite Es, Er in Ek. simpl in Ek. inversion Ek; subst.
      discriminate H1.
  - intros (L & S). exists (k - 5). split; [apply in_seq; lia|].
    change (length merlin_renamer.UUID_MARKER) with 5.
    now replace (k - 5 + 5) with k by lia.
Qed.

Lemma marker_immediately_before_witness :
  merlin_renamer.has_marker uuid0 = true <->
  5 <= merlin_renamer.offset uuid0
  /\ slice record0 (merlin_renamer.offset uuid0 - 5)
       (merlin_renamer.offset uuid0)
     = merlin_renamer.UUID_MARKER.
Proof. apply marker_immediately_before. vm_compute. left. reflexivity. Defined.

(** X9.  The identifiers of an entry do not overlap: each one begins at
    least 36 bytes after the one before; so an entry of [n] bytes holds
    at most [n / 36] of them, seven for a record. *)
Theorem uuids_do_not_overlap (entry : bytes) :
  StronglySorted (fun a b => a + 36 <= b)
    (map merlin_renamer.offset (merlin_renamer.find_uuids_in_entry entry))
  /\ 36 * length (merlin_renamer.find_uuids_in_entry entry) <= length entry.
Proof.
  destruct (@re_finditer_apart merlin_renamer.UUID_PATTERN
              UUID_PATTERN_positive (length entry) 0 (map Byte.to_N entry))
    as (_ & S & C).
  rewrite find_uuids_offsets. split; [exact S|].
  unfold merlin_renamer.find_uuids_in_entry.
  rewrite length_map in *. exact C.
Qed.

(** X10.  The first identifier of an entry is the leftmost match: the
    pattern matches at no offset before it. *)
Theorem first_uuid_is_leftmost (entry : bytes)
  (u : merlin_renamer.uuid_info) (rest : list merlin_renamer.uuid_info)
  (k : nat) :
  merlin_renamer.find_uuids_in_entry entry = u :: rest ->
  matches_at merlin_renamer.UUID_PATTERN (map Byte.to_N entry) k ->
  merlin_renamer.offset u <= k.
Proof.
  unfold merlin_renamer.find_uuids_in_entry. intros E M.
  destruct (re_finditer (length entry) merlin_renamer.UUID_PATTERN 0
              (map Byte.to_N entry)) as [|[k0 m0] l] eqn:F; [discriminate|].
  simpl in E. inversion E; subst. cbn [merlin_renamer.offset].
  eapply re_finditer_leftmost with (k := k) in F;
    try exact M; try apply UUID_PATTERN_positive.
  exact F.
Qed.

Lemma first_uuid_is_leftmost_witness :
  merlin_renamer.offset uuid0 <= 8.
Proof.
  apply (@first_uuid_is_leftmost record0 uuid0 [] 8).
  - vm_compute. reflexivity.
  - vm_compute. discriminate.
Defined.

(* ================================================================== *)
(** * Further properties of the playlist reader *)
(* ================================================================== *)

Unset Implicit Arguments.

Section PlaylistMore.

Import merlin_renamer.

Variable alpha_above : N -> bool.

Lemma seq_sorted (a n : nat) : StronglySorted lt (seq a n).
Proof.
  revert a. induction n as [|n IH]; intro a; simpl; constructor.
  - apply IH.
  - apply Forall_forall. intros x Hx. apply in_seq in Hx. lia.
Qed.

Lemma entry_of_indices (container : bytes) (i : nat) :
  map index (entry_of alpha_above container i) = []
  \/ map index (entry_of alpha_above container i) = [i].
Proof.
  unfold entry_of.
  destruct (find_uuids_in_entry (record container i)); [now left | now right].
Qed.

(** The indices of the entries of a list of records are a part of that
    list, in the same order. *)
Lemma entries_indices_sorted (container : bytes) (l : list nat) :
  StronglySorted lt l ->
  StronglySorted lt (map index (flat_map (entry_of alpha_above container) l))
  /\ incl (map index (flat_map (entry_of alpha_above container) l)) l.
Proof.
  induction 1 as [|i l S [IH1 IH2] B]; [split; [constructor | easy]|].
  cbn [flat_map]. rewrite map_app.
  destruct (entry_of_indices container i) as [-> | ->]; simpl.
  - split; [exact IH1|]. now apply incl_tl.
  - split.
    + constructor; [exact IH1|]. apply Forall_forall. intros j Hj.
      rewrite Forall_forall in B. apply B, IH2, Hj.
    + intros j [<-|Hj]; [now left | right; now apply IH2].
Qed.

(** A record that lies in the first of two containers put end to end. *)
Lemma record_app_left (c1 c2 : bytes) (i : nat) :
  (S i) * ENTRY_SIZE <= length c1 ->
  record (c1 ++ c2) i = record c1 i.
Proof.
  intro L. unfold record, seek_read.
  generalize dependent ENTRY_SIZE. intros E L. simpl in L.
  rewrite skipn_app, firstn_app, length_skipn.
  replace (i * E - length c1) with 0 by lia.
  replace (E - (length c1 - i * E)) with 0 by lia.
  simpl. now rewrite app_nil_r.
Qed.

(** A record of the second container, after [n] whole records of the
    first. *)
Lemma record_app_right (c1 c2 : bytes) (n j : nat) :
  length c1 = n * ENTRY_SIZE ->
  record (c1 ++ c2) (n + j) = record c2 j.
Proof.
  intro L. unfold record, seek_read.
  rewrite skipn_app, L.
  replace ((n + j) * ENTRY_SIZE - n * ENTRY_SIZE) with (j * ENTRY_SIZE)
    by lia.
  rewrite skipn_all2 by lia. reflexivity.
Qed.

Lemma entry_of_app_right (c1 c2 : bytes) (n j : nat) :
  length c1 = n * ENTRY_SIZE ->
  entry_of alpha_above (c1 ++ c2) (n + j)
  = map (shift_index n) (entry_of alpha_above c2 j).
Proof.
  intro L. unfold entry_of. rewrite (record_app_right c1 c2 n j L).
  now destruct (find_uuids_in_entry (record c2 j)).
Qed.

Lemma flat_map_seq_shift (A : Type) (f : nat -> list A) (n m : nat) :
  flat_map f (seq n m) = flat_map (fun j => f (n + j)) (seq 0 m).
Proof.
  revert f n. induction m as [|m IH]; intros f n; [reflexivity|].
  cbn [seq flat_map]. rewrite Nat.add_0_r. f_equal.
  rewrite (IH f (S n)), (IH (fun j => f (n + j)) 1).
  apply flat_map_ext. intro j. f_equal. lia.
Qed.

Lemma map_flat_map (A B C : Type) (g : B -> C) (f : A -> list B)
  (l : list A) :
  map g (flat_map f l) = flat_map (fun x => map g (f x)) l.
Proof.
  induction l as [|x l IH]; [reflexivity|].
  cbn [flat_map]. now rewrite map_app, IH.
Qed.

(** The entries of two containers put end to end, the first one made of
    whole records. *)
Lemma read_app (c1 c2 : bytes) (n : nat) :
  length c1 = n * ENTRY_SIZE ->
  read_merlin_playlist alpha_above (c1 ++ c2)
  = read_merlin_playlist alpha_above c1
    ++ map (shift_index n) (read_merlin_playlist alpha_above c2).
Proof.
  intro L. rewrite !read_merlin_playlist_spec.
  pose proof ENTRY_SIZE_positive as Pos.
  rewrite length_app, L, Nat.div_add_l, Nat.div_mul by lia.
  rewrite seq_app, flat_map_app. cbn [Nat.add]. f_equal.
  - rewrite !flat_map_concat_map. f_equal. apply map_ext_in.
    intros i Hi. apply in_seq in Hi. unfold entry_of.
    rewrite record_app_left; [reflexivity|].
    rewrite L. apply Nat.mul_le_mono_r. lia.
  - rewrite flat_map_seq_shift, map_flat_map. apply flat_map_ext.
    intro j. now apply entry_of_app_right.
Qed.

(** What an entry records of the identifiers of its record. *)
Lemma entry_of_uuids (container : bytes) (i : nat) (it : item) :
  In it (entry_of alpha_above container i) ->
  all_uuids it = map uuid (find_uuids_in_entry (record container i))
  /\ In (item_uuid it) (all_uuids it).
Proof.
  unfold entry_of.
  destruct (find_uuids_in_entry (record container i)) as [|u0 us] eqn:E;
    [intros []|].
  intros [<-|[]]. cbn [all_uuids item_uuid]. split; [reflexivity|].
  destruct (filter has_marker (u0 :: us)) as [|u r] eqn:F.
  - now left.
  - apply in_map. apply (proj1 (filter_In has_marker u (u0 :: us))).
    rewrite F. now left.
Qed.

End PlaylistMore.

(** X11.  The entries come in the order of their records: their indices
    are strictly increasing and below the number of records, so no two
    entries share an index. *)
Theorem entries_in_record_order (alpha_above : N -> bool)
  (container : bytes) :
  let items := merlin_renamer.read_merlin_playlist alpha_above container in
  StronglySorted lt (map merlin_renamer.index items)
  /\ Forall (fun i => i < length container / merlin_renamer.ENTRY_SIZE)
       (map merlin_renamer.index items).
Proof.
  intro items. subst items. rewrite read_merlin_playlist_spec.
  destruct (entries_indices_sorted alpha_above container _
              (seq_sorted 0 (length container / merlin_renamer.ENTRY_SIZE)))
    as [S I].
  split; [exact S|]. apply Forall_forall. intros i Hi.
  apply I, in_seq in Hi. lia.
Qed.

(** X12.  An entry lists the identifiers of its record in the order of
    their offsets; the list is not empty, the identifier of the entry is
    one of them, and each of them is 36 characters long and
    identifier-like. *)
Theorem entry_identifiers (alpha_above : N -> bool) (container : bytes)
  (it : merlin_renamer.item) :
  In it (merlin_renamer.read_merlin_playlist alpha_above container) ->
  merlin_renamer.all_uuids it
  = map merlin_renamer.uuid
      (merlin_renamer.find_uuids_in_entry
         (record container (merlin_renamer.index it)))
  /\ In (merlin_renamer.item_uuid it) (merlin_renamer.all_uuids it)
  /\ Forall (fun s => length s = 36
                      /\ merlin_renamer.is_uuid_like s = true)
       (merlin_renamer.all_uuids it).
Proof.
  intro I. rewrite read_merlin_playlist_spec in I.
  apply in_flat_map in I as (i & _ & I).
  rewrite (entry_of_index _ _ _ _ I).
  destruct (entry_of_uuids alpha_above _ _ _ I) as [E M].
  repeat split; [exact E | exact M|].
  rewrite E. apply Forall_map, Forall_forall. intros u Hu.
  destruct (@find_uuids_shape _ _ Hu) as (_ & L & _ & U). auto.
Qed.

Lemma entry_identifiers_witness :
  merlin_renamer.all_uuids item0
  = map merlin_renamer.uuid
      (merlin_renamer.find_uuids_in_entry
         (record container0 (merlin_renamer.index item0)))
  /\ In (merlin_renamer.item_uuid item0) (merlin_renamer.all_uuids item0)
  /\ Forall (fun s => length s = 36
                      /\ merlin_renamer.is_uuid_like s = true)
       (merlin_renamer.all_uuids item0).
Proof.
  apply (entry_identifiers no_table container0).
  vm_compute. left. reflexivity.
Defined.

(** X13.  Reading two containers put end to end, the first one made of
    [n] whole records, gives the entries of the first followed by the
    entries of the second with their indices moved by [n]: what a record
    yields does not depend on the records around it. *)
Theorem read_concatenation (alpha_above : N -> bool) (c1 c2 : bytes)
  (n : nat) :
  length c1 = n * merlin_renamer.ENTRY_SIZE ->
  merlin_renamer.read_merlin_playlist alpha_above (c1 ++ c2)
  = merlin_renamer.read_merlin_playlist alpha_above c1
    ++ map (shift_index n)
         (merlin_renamer.read_merlin_playlist alpha_above c2).
Proof. apply read_app. Qed.

Lemma read_concatenation_witness :
  merlin_renamer.read_merlin_playlist no_table (container0 ++ record0)
  = merlin_renamer.read_merlin_playlist no_table container0
    ++ map (shift_index 2)
         (merlin_renamer.read_merlin_playlist no_table record0).
Proof. apply read_concatenation. reflexivity. Defined.

(* ================================================================== *)
(** * Further properties of the text detection *)
(* ================================================================== *)

Section DecodeFacts.

Local Open Scope N_scope.

Lemma cons_opt_inv (c : N) (r : option pystr) (s : pystr) :
  cons_opt c r = Some s -> exists s', r = Some s' /\ s = c :: s'.
Proof.
  destruct r as [s'|]; simpl; [|discriminate].
  intro H. inversion H. eauto.
Qed.

Ltac tests_to_props :=
  unfold is_cont, between in *;
  repeat match goal with
  | H : _ && _ = true |- _ => apply andb_true_iff in H; destruct H
  | H : (_ <=? _) = true |- _ => apply N.leb_le in H
  | H : (_ <? _) = true |- _ => apply N.ltb_lt in H
  | H : (_ <? _) = false |- _ => apply N.ltb_ge in H
  | H : (_ =? _) = true |- _ => apply N.eqb_eq in H
  | H : (_ =? _) = false |- _ => apply N.eqb_neq in H
  end.

Lemma encodable_iff (c : N) :
  encodable c = true <-> (c < 0xD800 \/ 0xDFFF < c) /\ c < 0x110000.
Proof.
  unfold encodable, between.
  rewrite andb_true_iff, negb_true_iff, andb_false_iff, N.ltb_lt,
    !N.leb_gt. tauto.
Qed.

(** One step of the decoder: it reads one to four bytes, gives one code
    point that can be encoded again and that is at least 32 when the
    first byte is, and goes on with the rest. *)
Lemma decode_step (b0 : N) (t0 : list N) (s : pystr) :
  decode_utf8_values (b0 :: t0) = Some s ->
  exists c s' pre rest,
    b0 :: t0 = pre ++ rest /\ pre <> [] /\ s = c :: s'
    /\ decode_utf8_values rest = Some s'
    /\ encodable c = true /\ (32 <= b0 -> 32 <= c).
Proof.
  cbn [decode_utf8_values].
  destruct (b0 <? 0x80) eqn:T1.
  { intro H. apply cons_opt_inv in H as (s' & D & ->).
    exists b0, s', [b0], t0. tests_to_props.
    repeat split; try easy. apply encodable_iff. lia. }
  destruct (between 0xC2 0xDF b0) eqn:T2.
  { destruct t0 as [|b1 t1]; [discriminate|].
    destruct (is_cont b1) eqn:C1; [|discriminate].
    intro H. apply cons_opt_inv in H as (s' & D & ->).
    exists ((b0 - 0xC0) * 64 + (b1 - 0x80)), s', [b0; b1], t1.
    tests_to_props.
    repeat split; try easy; [apply encodable_iff|]; lia. }
  destruct (between 0xE0 0xEF b0) eqn:T3.
  { destruct t0 as [|b1 [|b2 t2]]; try discriminate.
    destruct (b0 =? 0xE0) eqn:E0; destruct (b0 =? 0xED) eqn:ED;
      match goal with
      | |- context [between ?lo ?hi b1 && is_cont b2] =>
          destruct (between lo hi b1 && is_cont b2) eqn:C; [|discriminate]
      end;
      intro H; apply cons_opt_inv in H as (s' & D & ->);
      exists ((b0 - 0xE0) * 4096 + (b1 - 0x80) * 64 + (b2 - 0x80)), s',
             [b0; b1; b2], t2;
      tests_to_props;
      (repeat split; try easy; [apply encodable_iff|]; lia). }
  destruct (between 0xF0 0xF4 b0) eqn:T4; [|discriminate].
  destruct t0 as [|b1 [|b2 [|b3 t3]]]; try discriminate.
  destruct (b0 =? 0xF0) eqn:E0; destruct (b0 =? 0xF4) eqn:E4;
    match goal with
    | |- context [between ?lo ?hi b1 && is_cont b2 && is_cont b3] =>
        destruct (between lo hi b1 && is_cont b2 && is_cont b3) eqn:C;
          [|discriminate]
    end;
    intro H; apply cons_opt_inv in H as (s' & D & ->);
    exists ((b0 - 0xF0) * 262144 + (b1 - 0x80) * 4096
            + (b2 - 0x80) * 64 + (b3 - 0x80)), s', [b0; b1; b2; b3], t3;
    tests_to_props;
    (repeat split; try easy; [apply encodable_iff|]; lia).
Qed.

(** What the decoder returns can be encoded again, is not longer than
    the bytes, and holds no character below 32 when no byte is below
    32. *)
Lemma decode_utf8_values_valid (bs : list N) (s : pystr) :
  decode_utf8_values bs = Some s ->
  forallb encodable s = true
  /\ (length s <= length bs)%nat
  /\ (Forall (fun b => 32 <= b) bs -> Forall (fun c => 32 <= c) s).
Proof.
  remember (length bs) as n eqn:Ln.
  assert (L : (length bs <= n)%nat) by lia. clear Ln.
  revert bs s L. induction n as [|n IH]; intros bs s L H.
  - destruct bs; [|simpl in L; lia]. simpl in H. inversion H.
    repeat split; auto.
  - destruct bs as [|b0 t0].
    + simpl in H. inversion H. repeat split; auto.
    + apply decode_step in H
        as (c & s' & pre & rest & E & Ne & -> & D & Ec & Pc).
      assert (Lr : (length rest <= n)%nat).
      { apply (f_equal (@length N)) in E. rewrite length_app in E.
        destruct pre; [congruence|]. simpl in E, L. lia. }
      destruct (IH rest s' Lr D) as (F & Ls & P). repeat split.
      * simpl. now rewrite Ec, F.
      * apply (f_equal (@length N)) in E. rewrite length_app in E.
        destruct pre; [congruence|]. simpl in *. lia.
      * intro A. constructor.
        -- apply Pc. now inversion A.
        -- apply P. rewrite E in A. now apply Forall_app in A as [_ A].
Qed.

End DecodeFacts.

Section TitleFacts.

Import merlin_renamer.

(** The text of a printable run can be encoded, holds no character below
    32, is not longer than the run and has no white space at its ends. *)
Lemma decoded_valid (run : bytes) :
  forallb printable run = true ->
  forallb encodable (decoded run) = true
  /\ Forall (fun c => (32 <= c)%N) (decoded run)
  /\ length (decoded run) <= length run
  /\ no_space_ends (decoded run).
Proof.
  intro P. unfold decoded.
  set (raw := match decode_utf8 run with
              | Some t => t
              | None => map Byte.to_N run
              end).
  assert (Pb : Forall (fun b => (32 <= b)%N) (map Byte.to_N run)).
  { apply Forall_map, Forall_forall. intros b Hb.
    rewrite forallb_forall in P. apply N.leb_le, (P b Hb). }
  assert (R : forallb encodable raw = true
              /\ length raw <= length run
              /\ Forall (fun c => (32 <= c)%N) raw).
  { subst raw. unfold decode_utf8.
    destruct (decode_utf8_values (map Byte.to_N run)) as [t|] eqn:D.
    - destruct (decode_utf8_values_valid _ _ D) as (E & L & F).
      rewrite length_map in L. auto.
    - repeat split; [|now rewrite length_map | exact Pb].
      apply forallb_forall. intros c Hc. apply in_map_iff in Hc
        as (b & <- & _).
      apply encodable_iff. pose proof (Byte.to_N_bounded b). lia. }
  destruct R as (E & L & F).
  pose proof (strip_infix isspace raw) as I. repeat split.
  - apply forallb_forall, Forall_forall.
    eapply infix_Forall; [exact I|]. now apply Forall_forall, forallb_forall.
  - eapply infix_Forall; [exact I | exact F].
  - pose proof (infix_length I). lia.
  - unfold no_space_ends. pose proof (strip_head isspace raw) as Hd.
    destruct (strip isspace raw) as [|c r] eqn:S; [exact Logic.I|].
    split; [exact Hd|]. rewrite <- S. apply strip_last.
    rewrite S. discriminate.
Qed.

Section WithUnicode.

Variable alpha_above : N -> bool.

(** The title is empty or the text of a printable run of the entry. *)
Lemma extract_title_run (entry : bytes) (uuid_offsets : list uuid_info) :
  extract_title_from_entry alpha_above entry uuid_offsets = []
  \/ exists start run,
       maximal_run entry start run
       /\ extract_title_from_entry alpha_above entry uuid_offsets
          = decoded run.
Proof.
  unfold extract_title_from_entry.
  fold (text_sequences alpha_above entry).
  destruct (sort_desc (fun x => length (text x))
              (text_sequences alpha_above entry)) as [|x r] eqn:E;
    [now left | right].
  destruct (sort_desc_head _ _ E) as (l1 & l2 & El & _).
  assert (I : In x (text_sequences alpha_above entry))
    by (rewrite El; apply in_or_app; right; now left).
  apply text_sequences_In in I as (run & M & T & _).
  exists (ts_offset x), run. auto.
Qed.

Lemma title_valid (entry : bytes) (uuid_offsets : list uuid_info) :
  let title := extract_title_from_entry alpha_above entry uuid_offsets in
  forallb encodable title = true
  /\ Forall (fun c => (32 <= c)%N) title
  /\ length title <= length entry
  /\ no_space_ends title.
Proof.
  intro title. subst title.
  destruct (extract_title_run entry uuid_offsets)
    as [-> | (start & run & M & ->)].
  - repeat split; simpl; auto. lia.
  - destruct M as (_ & P & pre & post & E & _).
    destruct (decoded_valid run P) as (A & B & C & D).
    repeat split; auto.
    rewrite E, !length_app. lia.
Qed.

Lemma entry_of_title (container : bytes) (i : nat) (it : item) :
  In it (entry_of alpha_above container i) ->
  pl_title it
  = extract_title_from_entry alpha_above (record container i)
      (find_uuids_in_entry (record container i)).
Proof.
  unfold entry_of.
  destruct (find_uuids_in_entry (record container i)); [intros []|].
  now intros [<-|[]].
Qed.

End WithUnicode.

Local Open Scope N_scope.

(** A hexadecimal digit is an ASCII character that [sanitize_filename]
    neither replaces nor trims. *)
Lemma hex_is_plain (c : N) :
  is_hex c = true ->
  invalid_chars c = false /\ trimmed_char c = false
  /\ c <> 32 /\ c <> 95 /\ c < 0x80.
Proof.
  unfold is_hex, between. intro H.
  assert (R : (48 <= c <= 57) \/ (97 <= c <= 102) \/ (65 <= c <= 70)).
  { repeat (apply orb_true_iff in H as [H|H]);
      apply andb_true_iff in H as [H1 H2];
      apply N.leb_le in H1, H2; lia. }
  clear H. unfold invalid_chars, trimmed_char, isspace, char_in, between.
  cbn [existsb lit]. repeat split; try lia.
  - repeat (apply orb_false_iff; split);
      try (apply N.eqb_neq; lia);
      try (apply andb_false_iff; right; apply N.leb_gt; lia);
      reflexivity.
  - repeat (apply orb_false_iff; split);
      try (apply N.eqb_neq; simpl; lia);
      try (apply andb_false_iff;
           (left; apply N.leb_gt; lia) || (right; apply N.leb_gt; lia));
      reflexivity.
Qed.

Lemma hyphen_is_plain :
  invalid_chars 45 = false /\ 45 <> 32 /\ 45 <> 95 /\ 45 < 0x80.
Proof. repeat split; discriminate. Qed.

Local Close Scope N_scope.

(** A string without the character [d] has no double of it. *)
Lemma no_char_no_double (d : N) (s : pystr) :
  Forall (fun c => c <> d) s -> has_double d s = false.
Proof.
  induction 1 as [|c t Hc _ IH]; [reflexivity|].
  rewrite has_double_cons. destruct (hd_error t); [|reflexivity].
  rewrite IH. apply N.eqb_neq in Hc. now rewrite Hc.
Qed.

(** ASCII text is encoded byte for character. *)
Lemma encode_ascii (s : pystr) :
  Forall (fun c => (c < 0x80)%N) s ->
  exists b, encode_utf8 s = Some b /\ length b = length s.
Proof.
  induction 1 as [|c t Hc _ (b & E & L)]; [now exists []|].
  exists (byte_of c :: b). simpl. unfold encode_char.
  apply N.ltb_lt in Hc. rewrite Hc, E. simpl. auto.
Qed.

(** The text of a match of the identifier pattern: hexadecimal digits
    and hyphens, a hexadecimal digit at either end. *)
Lemma uuid_text (m : list N) :
  re_match UUID_PATTERN m = Some [] ->
  Forall (fun c => is_hex c = true \/ c = 45%N) m
  /\ exists c0 r,
       m = c0 :: r /\ is_hex c0 = true /\ is_hex (last m c0) = true.
Proof.
  intro H.
  assert (L : length m = 36).
  { destruct (re_match_split _ _ H) as (m' & E & L').
    rewrite app_nil_r in E. now subst m'. }
  do 37 (destruct m as [|? m]; try discriminate L). clear L.
  cbn [UUID_PATTERN re_match eat_hex] in H.
  repeat match type of H with
  | context [is_hex ?c] =>
      let E := fresh "E" in
      destruct (is_hex c) eqn:E;
      cbn [UUID_PATTERN re_match eat_hex] in H; [|discriminate H]
  | context [(?c =? ?d)%N] =>
      let E := fresh "E" in
      destruct (c =? d)%N eqn:E;
      cbn [UUID_PATTERN re_match eat_hex] in H;
      [apply N.eqb_eq in E|discriminate H]
  end.
  split.
  - repeat (apply Forall_cons; [auto|]). apply Forall_nil.
  - eexists _, _. split; [reflexivity|]. cbn [last]. auto.
Qed.

(** The text of an identifier that [find_uuids_in_entry] reports is
    matched whole by the pattern. *)
Lemma found_uuid_matches (entry : bytes) (u : uuid_info) :
  In u (find_uuids_in_entry entry) ->
  re_match UUID_PATTERN (uuid u) = Some [].
Proof.
  intro I. destruct (find_uuids_In _ _ I) as (M & E).
  unfold matches_at in M.
  destruct (re_match UUID_PATTERN (skipn (offset u) (map Byte.to_N entry)))
    as [t|] eqn:R; [|congruence].
  rewrite E. now rewrite (@re_match_firstn _ 36 _ _ R) by (simpl; lia).
Qed.

(** The text of a match of the identifier pattern is a fixed point of
    [sanitize_filename]. *)
Lemma sanitize_uuid_text (m : list N) (max_length : nat) :
  re_match UUID_PATTERN m = Some [] -> 36 <= max_length ->
  sanitize_filename m max_length = Some m.
Proof.
  intros H Lmax.
  assert (L : length m = 36).
  { destruct (re_match_split _ _ H) as (m' & E & L').
    rewrite app_nil_r in E. now subst m'. }
  destruct (uuid_text m H) as (F & c0 & r & Em & H0 & Hl).
  assert (A : Forall (fun c => invalid_chars c = false /\ c <> 32%N
                               /\ c <> 95%N /\ (c < 0x80)%N) m).
  { eapply Forall_impl; [|exact F]. cbn beta. intros c [Hc| ->].
    - destruct (hex_is_plain c Hc) as (? & ? & ? & ? & ?). auto.
    - apply hyphen_is_plain. }
  destruct (encode_ascii m) as (b & Eb & Lb).
  { eapply Forall_impl; [|exact A]. cbn beta. tauto. }
  apply sanitize_fixed with (b := b).
  - rewrite Em. discriminate.
  - eapply Forall_impl; [|exact A]. cbn beta. tauto.
  - apply no_char_no_double. eapply Forall_impl; [|exact A].
    cbn beta. tauto.
  - apply no_char_no_double. eapply Forall_impl; [|exact A].
    cbn beta. tauto.
  - unfold clean_ends. rewrite Em. rewrite <- Em.
    destruct (hex_is_plain c0 H0) as (_ & T0 & _).
    destruct (hex_is_plain _ Hl) as (_ & Tl & _).
    now rewrite T0, Tl.
  - exact Eb.
  - lia.
Qed.

End TitleFacts.

(** X14.  The playlist title of an entry holds no character below
    U+0020 and no surrogate, is not longer than the entry, and neither
    begins nor ends with white space. *)
Theorem title_is_clean_text (alpha_above : N -> bool) (entry : bytes)
  (uuid_offsets : list merlin_renamer.uuid_info) :
  let title :=
    merlin_renamer.extract_title_from_entry alpha_above entry uuid_offsets in
  forallb encodable title = true
  /\ Forall (fun c => (32 <= c)%N) title
  /\ length title <= length entry
  /\ no_space_ends title.
Proof. apply title_valid. Qed.

(** X15.  [sanitize_filename] never raises on the playlist title of an
    entry read from a container. *)
Theorem playlist_title_sanitizable (alpha_above : N -> bool)
  (container : bytes) (it : merlin_renamer.item) (max_length : nat) :
  In it (merlin_renamer.read_merlin_playlist alpha_above container) ->
  exists out,
    merlin_renamer.sanitize_filename (merlin_renamer.pl_title it) max_length
    = Some out.
Proof.
  intro I. rewrite read_merlin_playlist_spec in I.
  apply in_flat_map in I as (i & _ & I).
  rewrite (entry_of_title _ _ _ _ I).
  apply sanitize_defined, title_valid.
Qed.

Lemma playlist_title_sanitizable_witness :
  exists out,
    merlin_renamer.sanitize_filename (merlin_renamer.pl_title item0) 60
    = Some out.
Proof.
  apply (playlist_title_sanitizable no_table container0).
  vm_compute. left. reflexivity.
Defined.

(** X16.  An identifier found in an entry is returned unchanged by
    [sanitize_filename] for every budget of 36 bytes or more: the name
    that stands in for a missing title is the identifier itself. *)
Theorem uuid_survives_sanitize (entry : bytes)
  (u : merlin_renamer.uuid_info) (max_length : nat) :
  In u (merlin_renamer.find_uuids_in_entry entry) ->
  36 <= max_length ->
  merlin_renamer.sanitize_filename (merlin_renamer.uuid u) max_length
  = Some (merlin_renamer.uuid u).
Proof.
  intros I L. apply sanitize_uuid_text; [|exact L].
  now apply found_uuid_matches with entry.
Qed.

Lemma uuid_survives_sanitize_witness :
  merlin_renamer.sanitize_filename (merlin_renamer.uuid uuid0) 60
  = Some (merlin_renamer.uuid uuid0).
Proof.
  apply (uuid_survives_sanitize record0); [|lia].
  vm_compute. left. reflexivity.
Defined.

(* ================================================================== *)
(** * The tag lookups *)
(* ================================================================== *)

Section Id3Facts.

Import merlin_renamer.

Lemma id3_loop_some (tags : id3_tags) (keys : list tag) (t : pystr) :
  id3_loop tags keys = Some (Some t) <->
  exists pre k post r,
    keys = pre ++ k :: post /\ tags k = Some (t :: r) /\ 3 <= length t
    /\ Forall (frame_skipped tags) pre.
Proof.
  induction keys as [|k ks IH]; cbn [id3_loop].
  - split; [discriminate|]. intros (pre & k & post & r & E & _).
    now destruct pre.
  - destruct (tags k) as [[|x xs]|] eqn:Tk.
    + split; [discriminate|].
      intros (pre & k' & post & r & E & T & L & F).
      destruct pre as [|p pre]; cbn [app] in E; inversion E; subst.
      * congruence.
      * inversion F as [|? ? [N|(t' & r' & N & _)] _]; congruence.
    + destruct (truthy x && (3 <=? length x)) eqn:C.
      * apply andb_true_iff in C as [_ C]. apply Nat.leb_le in C. split.
        -- intro H. inversion H; subst.
           exists [], k, ks, xs. repeat split; auto.
        -- intros (pre & k' & post & r & E & T & L & F).
           destruct pre as [|p pre]; cbn [app] in E; inversion E; subst.
           ++ congruence.
           ++ inversion F as [|? ? [N|(t' & r' & N & S)] _]; [congruence|].
              rewrite Tk in N. inversion N; subst. lia.
      * assert (S : length x < 3).
        { apply andb_false_iff in C as [C|C].
          - destruct x; [simpl; lia | discriminate].
          - now apply Nat.leb_gt in C. }
        rewrite IH. split.
        -- intros (pre & k' & post & r & E & T & L & F).
           exists (k :: pre), k', post, r. subst ks.
           repeat split; auto. constructor; [|exact F].
           right. now exists x, xs.
        -- intros (pre & k' & post & r & E & T & L & F).
           destruct pre as [|p pre]; cbn [app] in E; inversion E; subst.
           ++ rewrite Tk in T. inversion T; subst. lia.
           ++ exists pre, k', post, r. repeat split; auto.
              now inversion F.
    + rewrite IH. split.
      * intros (pre & k' & post & r & E & T & L & F).
        exists (k :: pre), k', post, r. subst ks.
        repeat split; auto. constructor; [now left | exact F].
      * intros (pre & k' & post & r & E & T & L & F).
        destruct pre as [|p pre]; cbn [app] in E; inversion E; subst.
        -- congruence.
        -- exists pre, k', post, r. repeat split; auto. now inversion F.
Qed.

Lemma id3_loop_empty (tags : id3_tags) (pre post : list tag) (k : tag) :
  Forall (frame_skipped tags) pre -> tags k = Some [] ->
  id3_loop tags (pre ++ k :: post) = None.
Proof.
  intros F E. induction F as [|p pre [N|(t & r & N & S)] _ IH];
    cbn [app id3_loop].
  - now rewrite E.
  - now rewrite N.
  - rewrite N.
    replace (truthy t && (3 <=? length t)) with false; [exact IH|].
    symmetry. apply andb_false_iff. right. now apply Nat.leb_gt.
Qed.

Lemma get_id3_title_some (m : bool) (file : option id3_tags) (t : pystr) :
  get_id3_title m file = Some t <->
  m = true
  /\ exists tags, file = Some tags
     /\ exists pre k post r,
          [TIT2; TIT1; TALB] = pre ++ k :: post
          /\ tags k = Some (t :: r) /\ 3 <= length t
          /\ Forall (frame_skipped tags) pre.
Proof.
  unfold get_id3_title. destruct m; cbn [negb].
  - destruct file as [tags|].
    + pose proof (id3_loop_some tags [TIT2; TIT1; TALB] t) as S.
      destruct (id3_loop tags [TIT2; TIT1; TALB]) as [r|]; split.
      * intros ->. split; [reflexivity|]. exists tags.
        split; [reflexivity|]. now apply S.
      * intros (_ & tags' & E & H). inversion E; subst.
        apply S in H. now inversion H.
      * discriminate.
      * intros (_ & tags' & E & H). inversion E; subst.
        apply S in H. discriminate.
    + split; [discriminate|]. now intros (_ & tags & E & _).
  - split; [discriminate|]. now intros (E & _).
Qed.

End Id3Facts.

(** X17.  [get_id3_title] returns a title exactly when the tag library
    is there, the file can be read, and the title is the first string,
    of three characters or more, of the first frame among TIT2, TIT1 and
    TALB that is neither absent nor too short; a frame with an empty
    text list that comes before any such frame makes the lookup return
    nothing. *)
Theorem id3_title_first_long_frame (HAS_MUTAGEN : bool)
  (file : option merlin_renamer.id3_tags) :
  (forall t,
     merlin_renamer.get_id3_title HAS_MUTAGEN file = Some t <->
     HAS_MUTAGEN = true
     /\ exists tags, file = Some tags
        /\ exists pre k post r,
             [merlin_renamer.TIT2; merlin_renamer.TIT1; merlin_renamer.TALB]
             = pre ++ k :: post
             /\ tags k = Some (t :: r) /\ 3 <= length t
             /\ Forall (frame_skipped tags) pre)
  /\ (forall tags pre k post,
        file = Some tags ->
        [merlin_renamer.TIT2; merlin_renamer.TIT1; merlin_renamer.TALB]
        = pre ++ k :: post ->
        Forall (frame_skipped tags) pre -> tags k = Some [] ->
        merlin_renamer.get_id3_title HAS_MUTAGEN file = None).
Proof.
  split.
  - intro t. apply get_id3_title_some.
  - intros tags pre k post -> E F Z. unfold merlin_renamer.get_id3_title.
    destruct (negb HAS_MUTAGEN); [reflexivity|].
    rewrite E. now rewrite (id3_loop_empty tags pre post k F Z).
Qed.

(** X18.  When the file has a TIT2 or a TIT1 frame, a title of three
    characters or more that the older [get_title_from_id3] returns is
    also what [get_id3_title] returns. *)
Theorem legacy_title_agrees (old_tags : rename_from_id3.id3_tags)
  (new_tags : merlin_renamer.id3_tags) (t : pystr) :
  new_tags merlin_renamer.TIT2 = old_tags rename_from_id3.TIT2 ->
  new_tags merlin_renamer.TIT1 = old_tags rename_from_id3.TIT1 ->
  old_tags rename_from_id3.TIT2 <> None
  \/ old_tags rename_from_id3.TIT1 <> None ->
  rename_from_id3.get_title_from_id3 true (Some old_tags) = Some t ->
  3 <= length t ->
  merlin_renamer.get_id3_title true (Some new_tags) = Some t.
Proof.
  intros E2 E1 P H L.
  assert (C : truthy t && (3 <=? length t) = true).
  { apply andb_true_iff. split; [|now apply Nat.leb_le].
    destruct t; [simpl in L; lia | reflexivity]. }
  unfold rename_from_id3.get_title_from_id3 in H. cbn [negb] in H.
  unfold merlin_renamer.get_id3_title. cbn [negb merlin_renamer.id3_loop].
  rewrite E2, E1.
  destruct (old_tags rename_from_id3.TIT2) as [[|x xs]|].
  - discriminate.
  - cbn [rename_from_id3.first_text] in H. inversion H; subst.
    now rewrite C.
  - destruct (old_tags rename_from_id3.TIT1) as [[|x xs]|].
    + discriminate.
    + cbn [rename_from_id3.first_text] in H. inversion H; subst.
      now rewrite C.
    + destruct P as [P|P]; now elim P.
Qed.

Lemma legacy_title_agrees_witness :
  merlin_renamer.get_id3_title true
    (Some (fun k => match k with
                    | merlin_renamer.TIT1 => Some [lit "Album side"]
                    | _ => None
                    end))
  = Some (lit "Album side").
Proof.
  apply (legacy_title_agrees
           (fun k => match k with
                     | rename_from_id3.TIT1 => Some [lit "Album side"]
                     | _ => None
                     end)).
  - reflexivity.
  - reflexivity.
  - right. discriminate.
  - reflexivity.
  - simpl. lia.
Defined.

(* ================================================================== *)
(** * Images and free names *)
(* ================================================================== *)

Section PathFacts.

Import merlin_renamer.

Lemma image_loop_some (source : pystr -> bool) (base_name : pystr)
  (exts : list pystr) (p : pystr) :
  image_loop source base_name exts = Some p <->
  exists pre ext post,
    exts = pre ++ ext :: post /\ p = base_name ++ ext /\ source p = true
    /\ Forall (fun e => source (base_name ++ e) = false) pre.
Proof.
  induction exts as [|e es IH]; cbn [image_loop].
  - split; [discriminate|]. intros (pre & ext & post & E & _).
    now destruct pre.
  - destruct (source (base_name ++ e)) eqn:S.
    + split.
      * intro H. inversion H; subst. exists [], e, es. auto.
      * intros (pre & ext & post & E & -> & T & F).
        destruct pre as [|x pre]; cbn [app] in E; inversion E; subst.
        -- reflexivity.
        -- inversion F; congruence.
    + rewrite IH. split.
      * intros (pre & ext & post & -> & -> & T & F).
        exists (e :: pre), ext, post. auto.
      * intros (pre & ext & post & E & -> & T & F).
        destruct pre as [|x pre]; cbn [app] in E; inversion E; subst.
        -- congruence.
        -- exists pre, ext, post. repeat split; auto. now inversion F.
Qed.

Lemma image_loop_none (source : pystr -> bool) (base_name : pystr)
  (exts : list pystr) :
  image_loop source base_name exts = None <->
  Forall (fun e => source (base_name ++ e) = false) exts.
Proof.
  induction exts as [|e es IH]; cbn [image_loop].
  - split; auto.
  - destruct (source (base_name ++ e)) eqn:S.
    + split; [discriminate|]. intro F. inversion F; congruence.
    + rewrite IH. split; [auto|]. intro F. now inversion F.
Qed.

Lemma str_eqb_eq (s t : pystr) : str_eqb s t = true <-> s = t.
Proof.
  revert t. induction s as [|a s IH]; intros [|b t]; cbn [str_eqb];
    try (split; [discriminate|congruence]); [tauto|].
  rewrite andb_true_iff, N.eqb_eq, IH. split.
  - intros [-> ->]. reflexivity.
  - intro H. inversion H. auto.
Qed.

Lemma listed_iff (s : list pystr) (name : pystr) :
  listed s name = true <-> In name s.
Proof.
  unfold listed. rewrite existsb_exists. split.
  - intros (x & I & E). apply str_eqb_eq in E. now subst.
  - intro I. exists name. split; [exact I | now apply str_eqb_eq].
Qed.

(** The file system of the examples is sound. *)
Lemma listed_sound : sound_file_system listed listed_copy2.
Proof.
  unfold sound_file_system, listed_copy2. repeat split.
  - intros s src dst s' H. destruct (truthy src); inversion H; subst.
    apply listed_iff. now left.
  - intros s src dst s' name H E. destruct (truthy src); inversion H; subst.
    apply listed_iff. right. now apply listed_iff.
  - intro s. exists s. intros name E. now apply listed_iff.
Qed.

Lemma lit_inj (a b : string) : lit a = lit b -> a = b.
Proof.
  revert b. induction a as [|x a IH]; intros [|y b]; cbn [lit];
    try discriminate; [reflexivity|].
  intro H. inversion H as [[Hx Hr]]. f_equal; [|now apply IH].
  rewrite <- (ascii_N_embedding x), <- (ascii_N_embedding y).
  now rewrite Hx.
Qed.

Lemma str_of_int_inj (j k : nat) : str_of_int j = str_of_int k -> j = k.
Proof.
  unfold str_of_int. intro H. apply lit_inj in H.
  apply DecimalNat.Unsigned.to_uint_inj.
  pose proof (DecimalString.NilEmpty.usu (Nat.to_uint j)) as A.
  pose proof (DecimalString.NilEmpty.usu (Nat.to_uint k)) as B.
  rewrite H in A. congruence.
Qed.

Lemma numbered_inj (base_name extension : pystr) (j k : nat) :
  numbered base_name extension j = numbered base_name extension k -> j = k.
Proof.
  unfold numbered. intro H.
  apply app_inv_head in H. apply app_inv_head in H.
  apply app_inv_tail in H. now apply str_of_int_inj.
Qed.

Lemma numbered_NoDup (base_name extension : pystr) (l : list nat) :
  NoDup l -> NoDup (map (numbered base_name extension) l).
Proof.
  induction 1 as [|x l N _ IH]; cbn [map]; constructor; [|exact IH].
  intro I. apply in_map_iff in I as (y & E & I).
  apply numbered_inj in E. now subst.
Qed.

(** The numbered names cannot all exist when only finitely many names
    do. *)
Lemma numbered_pigeonhole (exists_ : pystr -> bool) (listing : list pystr)
  (base_name extension : pystr) (k : nat) :
  covers exists_ listing ->
  (forall i, k <= i < k + S (length listing) ->
             exists_ (numbered base_name extension i) = true) ->
  False.
Proof.
  intros C H.
  assert (I : incl (map (numbered base_name extension)
                      (seq k (S (length listing)))) listing).
  { intros x Hx. apply in_map_iff in Hx as (i & <- & Hi).
    apply in_seq in Hi. apply C, H. lia. }
  apply NoDup_incl_length in I.
  - rewrite length_map, length_seq in I. lia.
  - apply numbered_NoDup, seq_NoDup.
Qed.

Lemma unique_loop_spec (fuel : nat) (exists_ : pystr -> bool)
  (base_name extension : pystr) (k : nat) :
  match unique_loop fuel exists_ base_name extension k with
  | Some p =>
      exists j, k <= j < k + fuel
        /\ p = numbered base_name extension j
        /\ exists_ p = false
        /\ forall i, k <= i < j ->
                     exists_ (numbered base_name extension i) = true
  | None =>
      forall i, k <= i < k + fuel ->
                exists_ (numbered base_name extension i) = true
  end.
Proof.
  revert k. induction fuel as [|f IH]; intro k; cbn [unique_loop].
  - intros i Hi. lia.
  - fold (numbered base_name extension k).
    destruct (exists_ (numbered base_name extension k)) eqn:E;
      cbn [negb].
    + specialize (IH (k + 1)).
      destruct (unique_loop f exists_ base_name extension (k + 1)) as [p|].
      * destruct IH as (j & R & Ep & F & B). exists j.
        repeat split; auto; try lia.
        intros i Hi. destruct (Nat.eq_dec i k) as [->|Ne]; [exact E|].
        apply B. lia.
      * intros i Hi. destruct (Nat.eq_dec i k) as [->|Ne]; [exact E|].
        apply IH. lia.
    + exists k. repeat split; auto; try lia.
Qed.

(** The loop returns the name of the least counter that is free when
    its fuel reaches that counter, and does not return before. *)
Lemma unique_loop_least (fuel : nat) (exists_ : pystr -> bool)
  (base_name extension : pystr) (k : nat) :
  1 <= k ->
  exists_ (numbered base_name extension k) = false ->
  (forall i, 1 <= i < k ->
             exists_ (numbered base_name extension i) = true) ->
  (k <= fuel ->
   unique_loop fuel exists_ base_name extension 1
   = Some (numbered base_name extension k))
  /\ (fuel < k -> unique_loop fuel exists_ base_name extension 1 = None).
Proof.
  intros Lk Fk Bk.
  pose proof (unique_loop_spec fuel exists_ base_name extension 1) as U.
  destruct (unique_loop fuel exists_ base_name extension 1) as [p|].
  - destruct U as (j & R & -> & Fj & Bj). split.
    + intros _. f_equal. f_equal.
      destruct (Nat.lt_trichotomy j k) as [L|[E|L]]; [|exact E|].
      * rewrite (Bk j) in Fj by lia. discriminate.
      * rewrite (Bj k) in Fk by lia. discriminate.
    + intro L. rewrite (Bk j) in Fj by lia. discriminate.
  - split; [|reflexivity]. intro L.
    rewrite (U k) in Fk by lia. discriminate.
Qed.

(** With more fuel than names exist, [get_unique_path] returns a name
    that does not exist, the same for every such fuel. *)
Lemma get_unique_path_free (exists_ : pystr -> bool) (listing : list pystr)
  (base_name extension : pystr) :
  covers exists_ listing ->
  exists p,
    exists_ p = false
    /\ forall fuel, length listing < fuel ->
         get_unique_path fuel exists_ base_name extension = Some p.
Proof.
  intro C. unfold get_unique_path.
  destruct (exists_ (base_name ++ extension)) eqn:E; cbn [negb];
    [|exists (base_name ++ extension); auto].
  pose proof (unique_loop_spec (S (length listing)) exists_ base_name
                extension 1) as U.
  destruct (unique_loop (S (length listing)) exists_ base_name extension 1)
    as [p|].
  - destruct U as (j & R & -> & Fj & Bj).
    exists (numbered base_name extension j). split; [exact Fj|].
    intros fuel L.
    apply (unique_loop_least fuel exists_ base_name extension j);
      auto; lia.
  - destruct (numbered_pigeonhole exists_ listing base_name extension 1 C U).
Qed.

Section WithFileSystem.

Variable fs : Type.
Variable path_exists : fs -> pystr -> bool.
Variable copy2 : fs -> pystr -> pystr -> option fs.
Variable suffix_lower : pystr -> pystr.

Hypothesis sound : sound_file_system path_exists copy2.

(** The copy loop from any state: with enough fuel it ends, and when no
    exception stops it the names it has added are pairwise distinct,
    did not exist before and exist afterwards. *)
Lemma copy_loop_spec (mapping : list mapping_entry) (st : copy_state fs) :
  exists F, forall fuel, F <= fuel ->
    exists o,
      copy_loop path_exists copy2 suffix_lower fuel mapping st = Some o
      /\ match o with
         | Raised _ => True
         | Done st' =>
             exists new,
               written st' = new ++ written st
               /\ NoDup new
               /\ (forall x, In x new ->
                             path_exists (files st) x = false
                             /\ path_exists (files st') x = true)
               /\ (forall x, path_exists (files st) x = true ->
                             path_exists (files st') x = true)
               /\ mp3_count st' + skipped st'
                  = mp3_count st + skipped st + length mapping
               /\ mp3_count st' + img_count st'
                  = mp3_count st + img_count st + length new
         end.
Proof.
  destruct sound as (Created & Kept & Finite).
  assert (Absent : forall s src dst s' x,
             copy2 s src dst = Some s' -> path_exists s' x = false ->
             path_exists s x = false).
  { intros s src dst s' x H E. destruct (path_exists s x) eqn:P;
      [|reflexivity]. rewrite (Kept _ _ _ _ _ H P) in E. discriminate. }
  revert st. induction mapping as [|m r IH]; intro st.
  - exists 0. intros fuel _. exists (Done st). split; [reflexivity|].
    exists []. split; [reflexivity|]. split; [constructor|].
    split; [intros x []|]. split; [auto|]. cbn [length]. lia.
  - cbn [copy_loop]. destruct (mp3_exists m); cbn [negb].
    + destruct (Finite (files st)) as (l0 & C0).
      destruct (get_unique_path_free (path_exists (files st)) l0
                  (final_title m) (lit ".mp3") C0) as (p & Fp & Gp).
      destruct (copy2 (files st) (mp3_src m) p) as [s1|] eqn:C1.
      * destruct (img_src m) as [img|].
        -- destruct (Finite s1) as (l1 & Cl1).
           destruct (get_unique_path_free (path_exists s1) l1
                       (final_title m) (suffix_lower img) Cl1)
             as (q & Fq & Gq).
           destruct (copy2 s1 img q) as [s2|] eqn:C2.
           ++ destruct (IH {| files := s2;
                              written := q :: p :: written st;
                              mp3_count := mp3_count st + 1;
                              img_count := img_count st + 1;
                              skipped := skipped st |}) as (F & HF).
              exists (S (length l0) + S (length l1) + F).
              intros fuel L.
              rewrite (Gp fuel) by lia. rewrite C1.
              rewrite (Gq fuel) by lia. rewrite C2.
              destruct (HF fuel) as (o & -> & Ho); [lia|].
              exists o. split; [reflexivity|].
              destruct o as [st'|]; [|exact I].
              destruct Ho as (new & W & N & Fr & Mono & Cn1 & Cn2).
              cbn [files written mp3_count img_count skipped] in *.
              assert (Pq : path_exists (files st') q = true)
                by (apply Mono; eapply Created, C2).
              assert (Pp : path_exists (files st') p = true).
              { apply Mono. eapply Kept; [exact C2|].
                eapply Created, C1. }
              assert (P1 : path_exists s1 p = true)
                by (eapply Created, C1).
              assert (P2q : path_exists s2 q = true)
                by (eapply Created, C2).
              assert (P2p : path_exists s2 p = true)
                by (eapply Kept; [exact C2 | exact P1]).
              exists (new ++ [q; p]). rewrite <- app_assoc. cbn [app].
              repeat split; auto.
              ** apply NoDup_app; repeat split.
                 --- exact N.
                 --- constructor; [|constructor; [tauto|constructor]].
                     intros [E|[]]. subst q. congruence.
                 --- intros x Hx Hq. destruct (Fr x Hx) as [A _].
                     destruct Hq as [<-|[<-|[]]]; congruence.
              ** apply in_app_or in H as [Hx|[<-|[<-|[]]]].
                 --- destruct (Fr x Hx) as [A _].
                     eapply Absent; [exact C1|].
                     eapply Absent; [exact C2 | exact A].
                 --- eapply Absent; [exact C1 | exact Fq].
                 --- exact Fp.
              ** apply in_app_or in H as [Hx|[<-|[<-|[]]]].
                 --- now destruct (Fr x Hx).
                 --- exact Pq.
                 --- exact Pp.
              ** intros x Hx. apply Mono. eapply Kept; [exact C2|].
                 eapply Kept; [exact C1 | exact Hx].
              ** cbn [length]. lia.
              ** rewrite length_app. cbn [length]. lia.
           ++ exists (S (length l0) + S (length l1)). intros fuel L.
              rewrite (Gp fuel) by lia. rewrite C1.
              rewrite (Gq fuel) by lia. rewrite C2.
              exists (Raised fs). split; [reflexivity | exact I].
        -- destruct (IH {| files := s1;
                           written := p :: written st;
                           mp3_count := mp3_count st + 1;
                           img_count := img_count st;
                           skipped := skipped st |}) as (F & HF).
           exists (S (length l0) + F). intros fuel L.
           rewrite (Gp fuel) by lia. rewrite C1.
           destruct (HF fuel) as (o & -> & Ho); [lia|].
           exists o. split; [reflexivity|].
           destruct o as [st'|]; [|exact I].
           destruct Ho as (new & W & N & Fr & Mono & Cn1 & Cn2).
           cbn [files written mp3_count img_count skipped] in *.
           assert (P1 : path_exists s1 p = true)
             by (eapply Created, C1).
           exists (new ++ [p]). rewrite <- app_assoc. cbn [app].
           repeat split; auto.
           ++ apply NoDup_app; repeat split.
              ** exact N.
              ** constructor; [tauto|constructor].
              ** intros x Hx Hq. destruct (Fr x Hx) as [A _].
                 destruct Hq as [<-|[]]. congruence.
           ++ apply in_app_or in H as [Hx|[<-|[]]].
              ** destruct (Fr x Hx) as [A _].
                 eapply Absent; [exact C1 | exact A].
              ** exact Fp.
           ++ apply in_app_or in H as [Hx|[<-|[]]].
              ** now destruct (Fr x Hx).
              ** now apply Mono.
           ++ intros x Hx. apply Mono. eapply Kept; [exact C1 | exact Hx].
           ++ cbn [length]. lia.
           ++ rewrite length_app. cbn [length]. lia.
      * exists (S (length l0)). intros fuel L.
        rewrite (Gp fuel) by lia. rewrite C1.
        exists (Raised fs). split; [reflexivity | exact I].
    + destruct (IH {| files := files st;
                      written := written st;
                      mp3_count := mp3_count st;
                      img_count := img_count st;
                      skipped := skipped st + 1 |}) as (F & HF).
      exists F. intros fuel L.
      destruct (HF fuel L) as (o & -> & Ho).
      exists o. split; [reflexivity|].
      destruct o as [st'|]; [|exact I].
      destruct Ho as (new & W & N & Fr & Mono & Cn1 & Cn2).
      cbn [files written mp3_count img_count skipped] in *.
      exists new. repeat split; auto; try apply Fr; auto.
      cbn [length]. lia.
Qed.

End WithFileSystem.

End PathFacts.

(** X19.  [find_matching_image] returns an image exactly when the MP3
    file is there and the image has the stem of the MP3 file, exists in
    the source folder, and carries the first of the extensions .jpg,
    .jpeg, .JPG, .JPEG for which such a file exists. *)
Theorem image_first_extension (mp3_path : option pystr)
  (source : pystr -> bool) (p : pystr) :
  merlin_renamer.find_matching_image mp3_path source = Some p <->
  exists base_name pre ext post,
    mp3_path = Some base_name
    /\ image_extensions = pre ++ ext :: post
    /\ p = base_name ++ ext /\ source p = true
    /\ Forall (fun e => source (base_name ++ e) = false) pre.
Proof.
  unfold merlin_renamer.find_matching_image.
  destruct mp3_path as [base_name|].
  - fold image_extensions. rewrite image_loop_some. split.
    + intros (pre & ext & post & H). now exists base_name, pre, ext, post.
    + intros (b & pre & ext & post & E & H). inversion E; subst.
      now exists pre, ext, post.
  - split; [discriminate|]. now intros (b & pre & ext & post & E & _).
Qed.

(** X20.  When only finitely many names exist in the output folder,
    [get_unique_path] returns, given more rounds than there are such
    names, and the name it returns does not exist. *)
Theorem unique_path_is_free (exists_ : pystr -> bool)
  (listing : list pystr) (base_name extension : pystr) (fuel : nat) :
  covers exists_ listing ->
  length listing < fuel ->
  exists p,
    merlin_renamer.get_unique_path fuel exists_ base_name extension = Some p
    /\ exists_ p = false.
Proof.
  intros C L.
  destruct (get_unique_path_free exists_ listing base_name extension C)
    as (p & F & G).
  exists p. split; [now apply G | exact F].
Qed.

Lemma unique_path_is_free_witness :
  exists p,
    merlin_renamer.get_unique_path 3
      (listed [lit "Song.mp3"; lit "Song_1.mp3"]) (lit "Song") (lit ".mp3")
    = Some p
    /\ listed [lit "Song.mp3"; lit "Song_1.mp3"] p = false.
Proof.
  apply (unique_path_is_free
           (listed [lit "Song.mp3"; lit "Song_1.mp3"])
           [lit "Song.mp3"; lit "Song_1.mp3"]).
  - intros name E. now apply listed_iff.
  - simpl. lia.
Defined.

(** X21.  [get_unique_path] returns the plain name when it does not
    exist.  When it exists, the function returns the name numbered with
    the least counter from 1 on whose name does not exist, after as many
    rounds as that counter and not before; and when every numbered name
    exists it never returns. *)
Theorem unique_path_least_counter (exists_ : pystr -> bool)
  (base_name extension : pystr) :
  (exists_ (base_name ++ extension) = false ->
   forall fuel,
     merlin_renamer.get_unique_path fuel exists_ base_name extension
     = Some (base_name ++ extension))
  /\ (exists_ (base_name ++ extension) = true ->
      forall k,
        1 <= k ->
        exists_ (numbered base_name extension k) = false ->
        (forall i, 1 <= i < k ->
                   exists_ (numbered base_name extension i) = true) ->
        forall fuel,
          (k <= fuel ->
           merlin_renamer.get_unique_path fuel exists_ base_name extension
           = Some (numbered base_name extension k))
          /\ (fuel < k ->
              merlin_renamer.get_unique_path fuel exists_ base_name
                extension
              = None))
  /\ (exists_ (base_name ++ extension) = true ->
      (forall i, 1 <= i ->
                 exists_ (numbered base_name extension i) = true) ->
      forall fuel,
        merlin_renamer.get_unique_path fuel exists_ base_name extension
        = None).
Proof.
  unfold merlin_renamer.get_unique_path. repeat split.
  - intros E fuel. now rewrite E.
  - rewrite H. cbn [negb]. intro L.
    now apply (unique_loop_least fuel exists_ base_name extension k).
  - rewrite H. cbn [negb]. intro L.
    now apply (unique_loop_least fuel exists_ base_name extension k).
  - intros E A fuel. rewrite E. cbn [negb].
    pose proof (unique_loop_spec fuel exists_ base_name extension 1) as U.
    destruct (merlin_renamer.unique_loop fuel exists_ base_name extension 1)
      as [p|]; [|reflexivity].
    destruct U as (j & R & -> & Fj & _). rewrite A in Fj by lia.
    discriminate.
Qed.

(** X22.  On a file system where a copy that succeeds leaves its
    destination in existence and removes nothing, and where only
    finitely many names exist, the copy loop of [main] ends once
    [get_unique_path] is given rounds enough: stopped by the exception
    of a copy, or after the last element.  In the latter case the names
    written are pairwise distinct, none of them existed before the loop,
    so that no file is overwritten, and all of them exist after it;
    every element of the mapping is either copied or skipped, and every
    name written is counted as an MP3 file or as an image. *)
Theorem copy_never_overwrites (fs : Type)
  (path_exists : fs -> pystr -> bool)
  (copy2 : fs -> pystr -> pystr -> option fs)
  (suffix_lower : pystr -> pystr)
  (mapping : list merlin_renamer.mapping_entry) (s : fs) :
  sound_file_system path_exists copy2 ->
  exists F, forall fuel, F <= fuel ->
    exists o,
      merlin_renamer.copy_loop path_exists copy2 suffix_lower fuel mapping
        (fresh_state s)
      = Some o
      /\ match o with
         | merlin_renamer.Raised _ => True
         | merlin_renamer.Done st => copied_safely path_exists mapping s st
         end.
Proof.
  intro Sound.
  destruct (copy_loop_spec fs path_exists copy2 suffix_lower Sound mapping
              (fresh_state s)) as (F & HF).
  exists F. intros fuel L. destruct (HF fuel L) as (o & E & Ho).
  exists o. split; [exact E|].
  destruct o as [st|]; [|exact I].
  destruct Ho as (new & W & N & Fr & _ & C1 & C2).
  cbn [fresh_state merlin_renamer.files merlin_renamer.written
       merlin_renamer.mp3_count merlin_renamer.img_count
       merlin_renamer.skipped] in *.
  rewrite app_nil_r in W. subst new.
  unfold copied_safely. repeat split; auto; apply Fr; auto.
Qed.

Lemma copy_never_overwrites_witness :
  exists F, forall fuel, F <= fuel ->
    exists o,
      merlin_renamer.copy_loop listed listed_copy2 (fun _ => lit ".jpg")
        fuel
        [ {| merlin_renamer.final_title := lit "Song";
             merlin_renamer.mp3_src := lit "a.mp3";
             merlin_renamer.mp3_exists := true;
             merlin_renamer.img_src := Some (lit "a.JPG") |};
          {| merlin_renamer.final_title := lit "Song";
             merlin_renamer.mp3_src := lit "c.mp3";
             merlin_renamer.mp3_exists := true;
             merlin_renamer.img_src := None |} ]
        (fresh_state [lit "Song.mp3"])
      = Some o
      /\ match o with
         | merlin_renamer.Raised _ => True
         | merlin_renamer.Done st =>
             copied_safely listed
               [ {| merlin_renamer.final_title := lit "Song";
                    merlin_renamer.mp3_src := lit "a.mp3";
                    merlin_renamer.mp3_exists := true;
                    merlin_renamer.img_src := Some (lit "a.JPG") |};
                 {| merlin_renamer.final_title := lit "Song";
                    merlin_renamer.mp3_src := lit "c.mp3";
                    merlin_renamer.mp3_exists := true;
                    merlin_renamer.img_src := None |} ]
               [lit "Song.mp3"] st
         end.
Proof.
  apply (copy_never_overwrites (list pystr) listed listed_copy2
           (fun _ => lit ".jpg")).
  exact listed_sound.
Defined.

(* ================================================================== *)
(** * The mapping of [main] *)
(* ================================================================== *)

Section MappingFacts.

Import merlin_renamer.

(** What [sanitize_filename] returns under the default budget is a valid
    name. *)
Lemma sanitize_valid_name (title out : pystr) :
  sanitize_filename title 60 = Some out -> valid_name out.
Proof.
  intro H. destruct (sanitize_filename_inv _ _ H) as [-> | (T & Tr)].
  - repeat split; [discriminate| |].
    + apply Forall_forall. intros c Hc. apply invalid_chars_spec.
      revert c Hc. apply Forall_forall. repeat constructor.
    + exists (blit "unnamed"). split; [reflexivity | simpl; lia].
  - repeat split.
    + now apply truthy_iff.
    + apply Forall_forall. intros c Hc. apply invalid_chars_spec.
      revert c Hc. apply Forall_forall.
      eapply infix_Forall; [eapply truncate_loop_infix, Tr|].
      apply trimmed_Forall, substituted_clean.
    + exact (truncate_loop_exit _ _ (Nat.le_refl _) Tr).
Qed.

(** The title that [main] chooses is a string of a tag of a file of the
    folder, the playlist title or the identifier. *)
Lemma choose_title_cases (m id3_only : bool) (source_folder : folder)
  (it : item) :
  let t := fst (choose_title m id3_only source_folder it) in
  (exists name tags k r,
     source_folder name = Some (Some tags) /\ tags k = Some (t :: r))
  \/ t = pl_title it \/ t = item_uuid it.
Proof.
  unfold choose_title.
  set (otherwise := match (if negb id3_only then Some (pl_title it) else None)
                    with
                    | Some p =>
                        if truthy p && negb (is_uuid_like p)
                        then (p, PLAYLIST)
                        else (item_uuid it, UUID)
                    | None => (item_uuid it, UUID)
                    end).
  assert (O : fst otherwise = pl_title it \/ fst otherwise = item_uuid it).
  { subst otherwise. destruct (negb id3_only); [|now right].
    destruct (truthy (pl_title it) && negb (is_uuid_like (pl_title it)));
      [now left | now right]. }
  cbv zeta.
  destruct (source_folder (item_uuid it ++ lit ".mp3")) as [file|] eqn:E;
    [|now right].
  destruct m; [|now right].
  destruct (get_id3_title true file) as [t|] eqn:G; [|now right].
  destruct (truthy t); [|now right].
  left. apply get_id3_title_some in G
    as (_ & tags & -> & pre & k & post & r & _ & T & _).
  now exists (item_uuid it ++ lit ".mp3"), tags, k, r.
Qed.

Lemma mapping_loop_spec (m id3_only no_images : bool)
  (source_folder : folder) (items : list item) :
  tags_encodable source_folder ->
  Forall (fun it => forallb encodable (pl_title it) = true
                    /\ forallb encodable (item_uuid it) = true) items ->
  exists mapping,
    mapping_loop m id3_only no_images source_folder items = Some mapping
    /\ Forall2 (maps_to source_folder) items mapping.
Proof.
  intros TE F. induction F as [|it r (Hp & Hu) _ (mapping & IH & R)];
    cbn [mapping_loop].
  - exists []. split; [reflexivity | constructor].
  - destruct (sanitize_defined
                (fst (choose_title m id3_only source_folder it)) 60)
      as (safe & Es).
    { destruct (choose_title_cases m id3_only source_folder it)
        as [(name & tags & k & r' & Ef & Et) | [-> | ->]]; auto.
      pose proof (TE _ _ _ _ Ef Et) as A. now inversion A. }
    rewrite Es, IH. eexists. split; [reflexivity|].
    constructor; [|exact R]. unfold maps_to.
    cbn [final_title mp3_src mp3_exists img_src].
    split; [exact (@sanitize_valid_name _ _ Es)|].
    split; [reflexivity|]. intros img H.
    destruct no_images; [discriminate|].
    unfold find_matching_image in H.
    destruct (exists_in source_folder (item_uuid it ++ lit ".mp3"));
      [|discriminate].
    split; [reflexivity|].
    apply image_loop_some in H as (pre & ext & post & _ & _ & T & _).
    exact T.
Qed.

(** The items read from a container have titles and identifiers that can
    be encoded. *)
Lemma read_items_encodable (alpha_above : N -> bool) (container : bytes) :
  Forall (fun it => forallb encodable (pl_title it) = true
                    /\ forallb encodable (item_uuid it) = true)
    (read_merlin_playlist alpha_above container).
Proof.
  apply Forall_forall. intros it I.
  rewrite read_merlin_playlist_spec in I.
  apply in_flat_map in I as (i & _ & I). split.
  - rewrite (entry_of_title _ _ _ _ I). apply title_valid.
  - destruct (entry_of_uuids _ _ _ _ I) as (A & U). rewrite A in U.
    apply in_map_iff in U as (u & <- & U).
    apply found_uuid_matches, uuid_text in U as (U & _).
    apply forallb_forall, Forall_forall.
    eapply Forall_impl; [|exact U]. cbn beta. intros c Hc.
    apply encodable_iff. destruct Hc as [Hc| ->].
    + destruct (hex_is_plain c Hc) as (_ & _ & _ & _ & L). lia.
    + lia.
Qed.

End MappingFacts.

(** X23.  When every string of the tags of the source folder can be
    encoded, the loop of [main] that builds the mapping never raises on
    the entries read from a container: it yields one element per entry,
    in order, whose name is a valid file name (not empty, without
    forbidden or control character, of at most 60 bytes), and whose
    image, if any, is a file of the source folder beside an MP3 file
    that exists. *)
Theorem mapping_names_valid (alpha_above : N -> bool)
  (HAS_MUTAGEN id3_only no_images : bool)
  (source_folder : merlin_renamer.folder) (container : bytes) :
  tags_encodable source_folder ->
  exists mapping,
    merlin_renamer.mapping_loop HAS_MUTAGEN id3_only no_images source_folder
      (merlin_renamer.read_merlin_playlist alpha_above container)
    = Some mapping
    /\ Forall2 (maps_to source_folder)
         (merlin_renamer.read_merlin_playlist alpha_above container) mapping.
Proof.
  intro TE. apply mapping_loop_spec; [exact TE|].
  apply read_items_encodable.
Qed.

Lemma mapping_names_valid_witness :
  exists mapping,
    merlin_renamer.mapping_loop true false false tagged_folder
      (merlin_renamer.read_merlin_playlist no_table container0)
    = Some mapping
    /\ Forall2 (maps_to tagged_folder)
         (merlin_renamer.read_merlin_playlist no_table container0) mapping.
Proof.
  apply (mapping_names_valid no_table true false false tagged_folder
           container0).
  intros name tags k texts E T. unfold tagged_folder in E.
  inversion E; subst. destruct k; inversion T; subst;
    repeat constructor.
Defined.
